(** * Voice-call extension: transcript filter, topic guard, response cues,
      generation-based cancellation, webhook ingestion and call manager.

    Shallow embedding of [extensions/voice-call/src/webhook.ts] and
    [extensions/voice-call/src/response-cues.ts].  The call manager
    ([manager.ts]) is modelled from the specification, as stated at its
    definitions. *)

From Stdlib Require Import String Ascii List NArith ZArith QArith Qround Lia Bool.
From stdpp Require Import base strings list gmap pretty.

Local Open Scope string_scope.
Local Open Scope list_scope.

(** ** JavaScript strings

    A JavaScript string is a sequence of UTF-16 code units.  The model takes
    the code units below 256 (the Latin-1 range): a [string] is the sequence
    of its code units, one [ascii] each.  On that range [String.prototype.trim],
    the regular-expression class [\s] and [String.prototype.toLowerCase] are
    modelled exactly. *)
Module Js.

(** WhiteSpace and LineTerminator code units below 256:
    TAB, LF, VT, FF, CR, SPACE and NO-BREAK SPACE.  Both [trim] and the
    class [\s] use this set. *)
Definition isWhiteSpace (c : ascii) : bool :=
  let n := N_of_ascii c in
  (((9 <=? n) && (n <=? 13)) || (n =? 32) || (n =? 160))%N.

(** The class [[a-z0-9]]. *)
Definition isLowerAlnum (c : ascii) : bool :=
  let n := N_of_ascii c in
  (((97 <=? n) && (n <=? 122)) || ((48 <=? n) && (n <=? 57)))%N.

(** The class [\d]. *)
Definition isDigit (c : ascii) : bool :=
  let n := N_of_ascii c in
  ((48 <=? n) && (n <=? 57))%N.

(** [toLowerCase] on one code unit below 256: A-Z, and the upper-case
    letters of the Latin-1 supplement (U+00C0..U+00DE without U+00D7). *)
Definition lowerChar (c : ascii) : ascii :=
  let n := N_of_ascii c in
  if (((65 <=? n) && (n <=? 90))
      || ((192 <=? n) && (n <=? 222) && negb (n =? 215)))%N
  then ascii_of_N (n + 32) else c.

Fixpoint toLowerCase (s : string) : string :=
  match s with
  | EmptyString => EmptyString
  | String c r => String (lowerChar c) (toLowerCase r)
  end.

Definition isEmpty (s : string) : bool :=
  match s with EmptyString => true | String _ _ => false end.

(** Removal of the longest prefix of characters in class [p]
    ([replace(/^p+/, "")]). *)
Fixpoint dropStart (p : ascii -> bool) (s : string) : string :=
  match s with
  | EmptyString => EmptyString
  | String c r => if p c then dropStart p r else s
  end.

(** Removal of the longest suffix of characters in class [p]
    ([replace(/p+$/, "")]). *)
Fixpoint dropEnd (p : ascii -> bool) (s : string) : string :=
  match s with
  | EmptyString => EmptyString
  | String c r =>
      let r' := dropEnd p r in
      if p c && isEmpty r' then EmptyString else String c r'
  end.

(** [s.trim()]. *)
Definition trim (s : string) : string :=
  dropEnd isWhiteSpace (dropStart isWhiteSpace s).

(** [s.replace(/\s+/g, " ")]: every maximal run of white space becomes one
    space.  [inRun] tells that the previous character belonged to a run
    that has already been replaced. *)
Fixpoint collapseFrom (inRun : bool) (s : string) : string :=
  match s with
  | EmptyString => EmptyString
  | String c r =>
      if isWhiteSpace c
      then if inRun then collapseFrom true r
           else String " " (collapseFrom true r)
      else String c (collapseFrom false r)
  end.

Definition collapseWhiteSpace (s : string) : string := collapseFrom false s.

Definition consHead (c : ascii) (l : list string) : list string :=
  match l with
  | [] => [String c EmptyString]
  | w :: ws => String c w :: ws
  end.

(** Splitting at every character of class [p]; the result always has at
    least one element, and empty pieces are kept, as [split] does. *)
Fixpoint splitOn (p : ascii -> bool) (s : string) : list string :=
  match s with
  | EmptyString => [EmptyString]
  | String c r =>
      if p c then EmptyString :: splitOn p r
      else consHead c (splitOn p r)
  end.

Definition isSpaceChar (c : ascii) : bool := Ascii.eqb c " ".

(** [s.split(" ")]. *)
Definition splitSpace (s : string) : list string := splitOn isSpaceChar s.

(** [s.replace(/^[^a-z0-9]+|[^a-z0-9]+$/g, "")]. *)
Definition stripNonAlnum (s : string) : string :=
  dropEnd (fun c => negb (isLowerAlnum c))
    (dropStart (fun c => negb (isLowerAlnum c)) s).

Fixpoint allChars (p : ascii -> bool) (s : string) : bool :=
  match s with
  | EmptyString => true
  | String c r => p c && allChars p r
  end.

(** [/^\d+$/.test(s)]. *)
Definition isAllDigits (s : string) : bool :=
  negb (isEmpty s) && allChars isDigit s.

(** [Set.prototype.has] / [Array.prototype.includes] on strings. *)
Definition has (l : list string) (w : string) : bool :=
  bool_decide (w ∈ l).

(** [Array.from(new Set(l))] when [seen] is empty: the elements in the
    order of their first insertion. *)
Fixpoint insertAll (seen : list string) (l : list string) : list string :=
  match l with
  | [] => []
  | x :: r =>
      if has seen x then insertAll seen r
      else x :: insertAll (x :: seen) r
  end.

Definition arrayFromSet (l : list string) : list string := insertAll [] l.

End Js.

(** ** Reading of the words of the specification *)
Module Words.

(** The white-space separated tokens of a text: its maximal runs of
    characters that are not white space. *)
Definition words (s : string) : list string :=
  filter (fun w => w ≠ EmptyString) (Js.splitOn Js.isWhiteSpace s).

(** A text made of white space only (the empty text included). *)
Definition blank (s : string) : Prop := Js.allChars Js.isWhiteSpace s = true.

(** The elements of [l] that occur at no earlier position of [l], in
    their order. *)
Definition firstOccurrences (l : list string) : list string :=
  concat (imap (fun i x => if bool_decide (x ∈ take i l) then [] else [x]) l).

(** A separator followed by the joined rest, or nothing. *)
Definition sepJoin (l : list string) : string :=
  match l with
  | [] => EmptyString
  | _ => String " " (String.concat " " l)
  end.

(** The piece before the first white-space character. *)
Definition firstPiece (s : string) : string :=
  hd EmptyString (Js.splitOn Js.isWhiteSpace s).

(** The words after the first white-space character. *)
Definition laterWords (s : string) : list string :=
  filter (fun w => w ≠ EmptyString) (tl (Js.splitOn Js.isWhiteSpace s)).

Definition spaceFree (w : string) : Prop :=
  Js.allChars (fun c => negb (Js.isSpaceChar c)) w = true.

Definition whiteFree (w : string) : Prop :=
  Js.allChars (fun c => negb (Js.isWhiteSpace c)) w = true.

(** The alphanumeric characters of a lower-cased text: the letters a to z
    and the digits. *)
Definition alphanumeric (c : ascii) : Prop :=
  c ∈ list_ascii_of_string "abcdefghijklmnopqrstuvwxyz0123456789".

Definition digit (c : ascii) : Prop :=
  c ∈ list_ascii_of_string "0123456789".

(** The lower-case form of a character: for a letter A to Z the letter at
    the same place in a to z; for a capital letter of the Latin-1
    supplement (code units 192 to 222 without the multiplication sign,
    215) the code unit 32 above; any other character is its own. *)
Definition lowerCaseOf (c : ascii) : ascii :=
  match list_find (fun u => u = c)
          (list_ascii_of_string "ABCDEFGHIJKLMNOPQRSTUVWXYZ") with
  | Some (i, _) =>
      default c (list_ascii_of_string "abcdefghijklmnopqrstuvwxyz" !! i)
  | None =>
      let n := N_of_ascii c in
      if ((192 <=? n) && (n <=? 222) && negb (n =? 215))%N
      then ascii_of_N (n + 32) else c
  end.

(** A text with every character in its lower-case form. *)
Definition lowerCased (s : string) : string :=
  string_of_list_ascii (map lowerCaseOf (list_ascii_of_string s)).

(** No character of the text is alphanumeric. *)
Definition noAlphanumeric (s : string) : Prop :=
  Forall (fun c => ¬ alphanumeric c) (list_ascii_of_string s).

(** [k] is [s] stripped of its leading and trailing non-alphanumerics:
    [s] is [k] between two runs of characters that are not alphanumeric,
    and [k], unless it is empty, begins and ends with an alphanumeric
    character. *)
Definition stripped (s k : string) : Prop :=
  ∃ before after : string,
    s = String.append before (String.append k after)
    ∧ noAlphanumeric before
    ∧ noAlphanumeric after
    ∧ (∀ c, head (list_ascii_of_string k) = Some c → alphanumeric c)
    ∧ (∀ c, last (list_ascii_of_string k) = Some c → alphanumeric c).

End Words.

(** ** webhook.ts: transcript filter and topic guard *)

Definition TRANSCRIPT_FILLER_WORDS : list string :=
  ["ah"; "eh"; "erm"; "hey"; "hi"; "hm"; "hmm"; "huh"; "mhm"; "mm"; "uh";
   "uhh"; "um"; "umm"].

Definition TRANSCRIPT_SHORT_WORD_ALLOWLIST : list string :=
  ["no"; "nope"; "ok"; "okay"; "sure"; "yes"; "yep"].

Definition SINGLE_TOPIC_STOP_WORDS : list string :=
  ["a"; "an"; "and"; "are"; "as"; "at"; "be"; "but"; "by"; "for"; "from";
   "how"; "i"; "if"; "in"; "is"; "it"; "me"; "my"; "of"; "on"; "or"; "our";
   "please"; "so"; "that"; "the"; "their"; "them"; "they"; "this"; "to";
   "us"; "we"; "what"; "when"; "where"; "which"; "who"; "why"; "with";
   "you"; "your"].

Definition SINGLE_TOPIC_ANCHOR_KEYWORD_LIMIT : nat := 16.

Definition normalizeTranscriptWord (word : string) : string :=
  Js.stripNonAlnum (Js.toLowerCase word).

Definition shouldIgnoreTranscriptForResponse (transcript : string) : bool :=
  let compact := Js.collapseWhiteSpace (Js.trim transcript) in
  if Js.isEmpty compact then true
  else
    let tokens := Js.splitSpace compact in
    if negb (length tokens =? 1)%nat then false
    else
      let token := normalizeTranscriptWord (hd EmptyString tokens) in
      if negb (Js.isEmpty token) && Js.has TRANSCRIPT_FILLER_WORDS token
      then true
      else if negb (Js.isEmpty token) && (String.length token <=? 2)%nat
                && negb (Js.has TRANSCRIPT_SHORT_WORD_ALLOWLIST token)
      then true
      else if Js.isEmpty token && (String.length compact <=? 2)%nat
      then true
      else false.

Definition normalizeTopicKeyword (word : string) : string :=
  Js.stripNonAlnum (Js.toLowerCase word).

Definition extractTopicKeywords (transcript : string) : list string :=
  let compact := Js.collapseWhiteSpace (Js.trim transcript) in
  if Js.isEmpty compact then []
  else
    let keywords :=
      filter (fun word => Js.has SINGLE_TOPIC_STOP_WORDS word = false)
        (filter (fun word => Js.isAllDigits word = false)
           (filter (fun word => (3 <= String.length word)%nat)
              (map normalizeTopicKeyword (Js.splitSpace compact)))) in
    Js.arrayFromSet keywords.

(** A normalized token that counts as a keyword: at least three characters,
    not made of digits only, and not a stop word. *)
Definition keptKeyword (word : string) : Prop :=
  (3 <= String.length word)%nat
  ∧ Js.allChars Js.isDigit word = false
  ∧ word ∉ SINGLE_TOPIC_STOP_WORDS.

(** A JavaScript number: NaN, the two infinities, or a finite value.  Every
    finite double is a rational, so finite values are taken in [Q]. *)
Inductive number : Type :=
  | NaN
  | PosInfinity
  | NegInfinity
  | Finite (q : Q).

(** [x || 1]: zero and NaN are falsy. *)
Definition orOne (x : number) : number :=
  match x with
  | NaN => Finite 1
  | Finite q => if Qeq_bool q 0 then Finite 1 else Finite q
  | _ => x
  end.

Definition mathFloor (x : number) : number :=
  match x with
  | Finite q => Finite (inject_Z (Qfloor q))
  | _ => x
  end.

(** [Math.max(1, x)]. *)
Definition mathMaxOne (x : number) : number :=
  match x with
  | NaN => NaN
  | PosInfinity => PosInfinity
  | NegInfinity => Finite 1
  | Finite q => if Qle_bool 1 q then Finite q else Finite 1
  end.

(** [n < x] for an array length [n]. *)
Definition lengthLt (n : nat) (x : number) : bool :=
  match x with
  | NaN => false
  | PosInfinity => true
  | NegInfinity => false
  | Finite q => negb (Qle_bool q (inject_Z (Z.of_nat n)))
  end.

Record TopicDecision : Type := {
  allow : bool;
  establishAnchor : bool;
  transcriptKeywords : list string;
  overlapKeywords : list string;
}.

Definition evaluateSingleTopicTranscript
    (transcript : string) (anchorKeywords : list string) (minKeywords : number)
    : TopicDecision :=
  let minKeywords := mathMaxOne (mathFloor (orOne minKeywords)) in
  let transcriptKeywords := extractTopicKeywords transcript in
  if lengthLt (length transcriptKeywords) minKeywords then
    {| allow := true; establishAnchor := false;
       transcriptKeywords := transcriptKeywords; overlapKeywords := [] |}
  else if (length anchorKeywords =? 0)%nat then
    {| allow := true; establishAnchor := true;
       transcriptKeywords := transcriptKeywords; overlapKeywords := [] |}
  else
    let overlapKeywords :=
      filter (fun keyword => Js.has anchorKeywords keyword = true)
        transcriptKeywords in
    {| allow := (0 <? length overlapKeywords)%nat; establishAnchor := false;
       transcriptKeywords := transcriptKeywords;
       overlapKeywords := overlapKeywords |}.

(** The loop of [mergeTopicKeywords]: [merged] and [seen] are the loop's two
    mutable locals; reaching the limit after a push leaves the loop. *)
Fixpoint mergeLoop (merged seen : list string) (keywords : list string)
    : list string :=
  match keywords with
  | [] => merged
  | keyword :: rest =>
      if Js.has seen keyword then mergeLoop merged seen rest
      else
        let merged := merged ++ [keyword] in
        let seen := keyword :: seen in
        if (SINGLE_TOPIC_ANCHOR_KEYWORD_LIMIT <=? length merged)%nat
        then merged
        else mergeLoop merged seen rest
  end.

Definition mergeTopicKeywords (anchorKeywords transcriptKeywords : list string)
    : list string :=
  mergeLoop anchorKeywords anchorKeywords transcriptKeywords.

(** ** response-cues.ts *)
Module ResponseCues.

Inductive VoiceCallResponseCueKind : Type := acknowledgement | progress.

Record VoiceCallResponseCuePlan : Type := {
  enabled : bool;
  acknowledgementText : option string;
  progressText : option string;
  progressDelayMs : N;
}.

Definition DEFAULT_ACKNOWLEDGEMENT : string := "Got it, checking now.".
Definition DEFAULT_PROGRESS : string := "Still working on that.".
Definition DEFAULT_PROGRESS_DELAY_MS : N := 6000%N.

(** The configuration as given; an absent field is [None]. *)
Record VoiceCallResponseCuesConfig : Type := {
  configEnabled : option bool;
  configAcknowledgement : option string;
  configProgress : option string;
  configProgressDelayMs : option number;
}.

Definition normalizeCueText (raw : option string) (fallback : string)
    : option string :=
  match raw with
  | None => Some fallback
  | Some raw =>
      let trimmed := Js.trim raw in
      if (0 <? String.length trimmed)%nat then Some trimmed else None
  end.

Definition resolveVoiceCallResponseCuePlan
    (config : option VoiceCallResponseCuesConfig) : VoiceCallResponseCuePlan :=
  let enabled :=
    match config with
    | Some c => match configEnabled c with Some true => true | _ => false end
    | None => false
    end in
  let acknowledgement :=
    normalizeCueText (config ≫= configAcknowledgement) DEFAULT_ACKNOWLEDGEMENT in
  let progress :=
    normalizeCueText (config ≫= configProgress) DEFAULT_PROGRESS in
  let progressDelayMs :=
    match config ≫= configProgressDelayMs with
    | Some (Finite q) => Z.to_N (Z.max 0 (Qfloor q))
    | _ => DEFAULT_PROGRESS_DELAY_MS
    end in
  if negb enabled then
    {| enabled := false; acknowledgementText := None; progressText := None;
       progressDelayMs := progressDelayMs |}
  else
    {| enabled := enabled; acknowledgementText := acknowledgement;
       progressText := progress; progressDelayMs := progressDelayMs |}.

(** One call of the [speak] parameter.  [awaited] tells whether the
    controller awaited the returned promise ([await speak(..)]) or
    discarded it ([void speak(..)]). *)
Record Cue : Type := {
  kind : VoiceCallResponseCueKind;
  text : string;
  awaited : bool;
}.

(** Truthiness of a [string | null]. *)
Definition truthy (t : option string) : bool :=
  match t with
  | Some s => negb (Js.isEmpty s)
  | None => false
  end.

(** A controller instance: the plan, the two mutable locals of the
    closure, and the timers that [setTimeoutImpl] has set for it and that
    have neither fired nor been cleared. *)
Record Controller : Type := {
  plan : VoiceCallResponseCuePlan;
  settled : bool;
  progressTimer : option nat;
  timers : list nat;
  nextTimer : nat;
}.

Definition createVoiceCallResponseCueController
    (plan : VoiceCallResponseCuePlan) : Controller :=
  {| plan := plan; settled := false; progressTimer := None;
     timers := []; nextTimer := 0 |}.

Definition maybeSpeakAcknowledgement (c : Controller)
    : Controller * list Cue :=
  if negb (enabled (plan c)) || negb (truthy (acknowledgementText (plan c)))
     || settled c
  then (c, [])
  else
    (c, [ {| kind := acknowledgement;
             text := default EmptyString (acknowledgementText (plan c));
             awaited := true |} ]).

Definition scheduleProgressCue (c : Controller) : Controller :=
  if negb (enabled (plan c)) || negb (truthy (progressText (plan c)))
     || settled c || bool_decide (is_Some (progressTimer c))
  then c
  else
    {| plan := plan c; settled := settled c;
       progressTimer := Some (nextTimer c);
       timers := nextTimer c :: timers c;
       nextTimer := S (nextTimer c) |}.

(** The callback given to [setTimeoutImpl]. *)
Definition progressCallback (c : Controller) : list Cue :=
  if settled c || negb (truthy (progressText (plan c)))
  then []
  else [ {| kind := progress;
            text := default EmptyString (progressText (plan c));
            awaited := false |} ].

Definition clearTimeoutImpl (h : nat) (ts : list nat) : list nat :=
  filter (fun t => t ≠ h) ts.

Definition settle (c : Controller) : Controller :=
  match progressTimer c with
  | Some h =>
      {| plan := plan c; settled := true; progressTimer := None;
         timers := clearTimeoutImpl h (timers c);
         nextTimer := nextTimer c |}
  | None =>
      {| plan := plan c; settled := true; progressTimer := None;
         timers := timers c; nextTimer := nextTimer c |}
  end.

(** The delay of timer [h] elapses: a timer that is still set fires once
    and runs its callback; any other handle does nothing. *)
Definition timerElapses (h : nat) (c : Controller) : Controller * list Cue :=
  if bool_decide (h ∈ timers c)
  then ({| plan := plan c; settled := settled c;
           progressTimer := progressTimer c;
           timers := clearTimeoutImpl h (timers c);
           nextTimer := nextTimer c |},
        progressCallback c)
  else (c, []).

(** What a holder of the controller, or the clock, may do with it. *)
Inductive Op : Type :=
  | OpMaybeSpeakAcknowledgement
  | OpScheduleProgressCue
  | OpSettle
  | OpTimerElapses (h : nat).

Definition step (c : Controller) (o : Op) : Controller * list Cue :=
  match o with
  | OpMaybeSpeakAcknowledgement => maybeSpeakAcknowledgement c
  | OpScheduleProgressCue => (scheduleProgressCue c, [])
  | OpSettle => (settle c, [])
  | OpTimerElapses h => timerElapses h c
  end.

(** A sequence of operations and the cues spoken during it, in order. *)
Fixpoint run (c : Controller) (ops : list Op) : Controller * list Cue :=
  match ops with
  | [] => (c, [])
  | o :: rest =>
      let '(c1, out1) := step c o in
      let '(c2, out2) := run c1 rest in
      (c2, out1 ++ out2)
  end.

(** The calls of [maybeSpeakAcknowledgement] in [ops] that come before
    the first call of [settle]. *)
Fixpoint acknowledgementCalls (ops : list Op) : nat :=
  match ops with
  | [] => 0
  | OpSettle :: _ => 0
  | OpMaybeSpeakAcknowledgement :: rest => S (acknowledgementCalls rest)
  | _ :: rest => acknowledgementCalls rest
  end.

(** The timers of a controller are the one it holds in [progressTimer],
    if that one has not fired. *)
Definition timersHeld (c : Controller) : Prop :=
  timers c = [] ∨ ∃ h, progressTimer c = Some h ∧ timers c = [h].

Definition isAcknowledgement (q : Cue) : bool :=
  match kind q with acknowledgement => true | progress => false end.

(** The acknowledgement cues among the spoken ones. *)
Definition ackCount (out : list Cue) : nat :=
  length (filter (fun q => isAcknowledgement q = true) out).

End ResponseCues.

(** ** Call records and normalized events (types.ts) *)

Inductive CallDirection : Type := inbound | outbound.

(** Modelled from the spec: the lifecycle states of a call; [types.ts],
    which declares them, is not among the sources.  [ended] and
    [errorTerminal] are the terminal states. *)
Inductive CallState : Type :=
  | initiated | ringing | answered | active | ended | errorTerminal.

Inductive Speaker : Type := bot | user.

Record TranscriptEntry : Type := {
  entryTimestamp : nat;
  speaker : Speaker;
  entryText : string;
  entryIsFinal : bool;
}.

(** Modelled from the spec: the record of one call (section 3 of the
    specification); its declaration in [types.ts] is not among the
    sources.  The field names follow the records built in the tests. *)
Record CallRecord : Type := {
  callId : string;
  providerCallId : string;
  provider : string;
  direction : CallDirection;
  state : CallState;
  from : string;
  to : string;
  startedAt : nat;
  transcript : list TranscriptEntry;
  processedEventIds : list string;
  metadata : list (string * string);
  endReason : option string;
  endedCallbackFired : bool;
}.

(** The payload that goes with the type of an event. *)
Inductive EventPayload : Type :=
  | CallInitiated
  | CallAnswered
  | CallSpeech (text : string) (isFinal : bool)
  | CallEnded (reason : string)
  | CallError (error : string) (retryable : bool).

(** Modelled from the spec: a normalized event (section 3); its declaration
    in [types.ts] is not among the sources.  An absent [providerCallId] is
    the empty string, which is as falsy as [undefined]. *)
Record NormalizedEvent : Type := {
  eventId : string;
  eventCallId : string;
  eventProviderCallId : string;
  eventTimestamp : nat;
  eventDirection : option CallDirection;
  eventFrom : option string;
  eventTo : option string;
  payload : EventPayload;
}.

(** [event.type === "call.ended" || (event.type === "call.error" && !event.retryable)] *)
Definition isTerminalEvent (event : NormalizedEvent) : bool :=
  match payload event with
  | CallEnded _ => true
  | CallError _ retryable => negb retryable
  | _ => false
  end.

(** How a call returns: normally, or by throwing. *)
Inductive Completion : Type := Returned | Threw.

(** The part of the call manager that the webhook server uses. *)
Module Api.

Class CallManagerApi (M : Type) : Type := {
  getCall : M → string → option CallRecord;
  getCallByProviderCallId : M → string → option CallRecord;
  processEvent : M → NormalizedEvent → M * Completion;
}.

End Api.

(** ** webhook.ts: the server *)
Module Webhook.

Inductive LogLevel : Type := LogInfo | LogWarn | LogError.

(** What the server does to the outside: [manager.speak], with the
    generation on whose behalf it speaks (none for a drift warning),
    [manager.endCall], and console output (level and leading text). *)
Inductive Effect : Type :=
  | ESpeak (callId text : string) (recordTranscript : bool)
           (onBehalf : option nat)
  | EEndCall (callId : string)
  | ELog (level : LogLevel) (message : string).

(** [settleCues], when set, is the closure [() => cues.settle()] of one
    controller, held here by the controller's address. *)
Record PendingVoiceResponseState : Type := {
  generation : nat;
  disconnected : bool;
  settleCues : option nat;
}.

Record SingleTopicCallState : Type := {
  anchorKeywords : list string;
  driftCount : nat;
}.

Record SingleTopicConfig : Type := {
  singleTopicEnabled : bool;
  minKeywords : number;
  warningMessage : option string;
  endCallOnDrift : bool;
  maxDriftCount : nat;
}.

Record VoiceCallConfig : Type := {
  singleTopic : option SingleTopicConfig;
  responseCues : option ResponseCues.VoiceCallResponseCuesConfig;
  coreConfig : bool;
}.

(** A controller made by [handleInboundResponse], with the [callId] that
    its [speak] closure captured and the generation it was made for. *)
Record CueInstance : Type := {
  controller : ResponseCues.Controller;
  cueCallId : string;
  cueGeneration : nat;
}.

(** The [await]s of [handleInboundResponse]. *)
Inductive AwaitPoint : Type :=
  | AwaitImport
  | AwaitAcknowledgement
  | AwaitResponse
  | AwaitSpeakResult.

(** A suspended call of [handleInboundResponse]: its locals and the
    [await] it is suspended at. *)
Record ResponseTask : Type := {
  taskCallId : string;
  taskGeneration : nat;
  taskCues : nat;
  taskAt : AwaitPoint;
}.

(** The mutable state of the server: its two maps, the controllers and
    the suspended calls of [handleInboundResponse] that exist, and the
    next free address. *)
Record Server : Type := {
  pendingResponses : gmap string PendingVoiceResponseState;
  singleTopicStates : gmap string SingleTopicCallState;
  cueControllers : gmap nat CueInstance;
  responseTasks : gmap nat ResponseTask;
  nextId : nat;
}.

Definition newServer : Server :=
  {| pendingResponses := ∅; singleTopicStates := ∅; cueControllers := ∅;
     responseTasks := ∅; nextId := 0 |}.

Definition setPendingResponses (s : Server)
    (m : gmap string PendingVoiceResponseState) : Server :=
  {| pendingResponses := m; singleTopicStates := singleTopicStates s;
     cueControllers := cueControllers s; responseTasks := responseTasks s;
     nextId := nextId s |}.

Definition setSingleTopicStates (s : Server)
    (m : gmap string SingleTopicCallState) : Server :=
  {| pendingResponses := pendingResponses s; singleTopicStates := m;
     cueControllers := cueControllers s; responseTasks := responseTasks s;
     nextId := nextId s |}.

Definition setCueControllers (s : Server) (m : gmap nat CueInstance) : Server :=
  {| pendingResponses := pendingResponses s;
     singleTopicStates := singleTopicStates s;
     cueControllers := m; responseTasks := responseTasks s;
     nextId := nextId s |}.

Definition setResponseTasks (s : Server) (m : gmap nat ResponseTask) : Server :=
  {| pendingResponses := pendingResponses s;
     singleTopicStates := singleTopicStates s;
     cueControllers := cueControllers s; responseTasks := m;
     nextId := nextId s |}.

Definition withController (i : CueInstance) (c : ResponseCues.Controller)
    : CueInstance :=
  {| controller := c; cueCallId := cueCallId i;
     cueGeneration := cueGeneration i |}.

(** A call of the closure [() => cues.settle()] of controller [cid]. *)
Definition settleController (s : Server) (cid : nat) : Server :=
  setCueControllers s
    (alter (fun i => withController i (ResponseCues.settle (controller i)))
       cid (cueControllers s)).

Definition beginVoiceResponseGeneration (s : Server) (callId : string)
    : Server * nat :=
  let existing := pendingResponses s !! callId in
  let s1 :=
    match existing with
    | Some st =>
        match settleCues st with
        | Some cid => settleController s cid
        | None => s
        end
    | None => s
    end in
  let generation :=
    (match existing with Some st => generation st | None => 0 end + 1)%nat in
  (setPendingResponses s1
     (<[callId := {| generation := generation; disconnected := false;
                     settleCues := None |}]> (pendingResponses s1)),
   generation).

Definition registerCueController (s : Server) (callId : string)
    (generation0 : nat) (settle : nat) : Server :=
  match pendingResponses s !! callId with
  | None => settleController s settle
  | Some st =>
      if disconnected st || negb (generation st =? generation0)%nat
      then settleController s settle
      else
        setPendingResponses s
          (<[callId := {| generation := generation st;
                          disconnected := disconnected st;
                          settleCues := Some settle |}]>
             (pendingResponses s))
  end.

Definition clearCueController (s : Server) (callId : string)
    (generation0 : nat) : Server :=
  match pendingResponses s !! callId with
  | None => s
  | Some st =>
      if negb (generation st =? generation0)%nat then s
      else
        setPendingResponses s
          (<[callId := {| generation := generation st;
                          disconnected := disconnected st;
                          settleCues := None |}]>
             (pendingResponses s))
  end.

Definition markResponseDisconnected (s : Server) (callId : string) : Server :=
  match pendingResponses s !! callId with
  | None => s
  | Some st =>
      let s1 :=
        match settleCues st with
        | Some cid => settleController s cid
        | None => s
        end in
      setPendingResponses s1
        (<[callId := {| generation := (generation st + 1)%nat;
                        disconnected := true; settleCues := None |}]>
           (pendingResponses s1))
  end.

Definition isVoiceResponseGenerationCurrent (s : Server) (callId : string)
    (generation0 : nat) : bool :=
  match pendingResponses s !! callId with
  | None => false
  | Some st => negb (disconnected st) && (generation st =? generation0)%nat
  end.

Definition clearSingleTopicState (s : Server) (callId : string) : Server :=
  setSingleTopicStates s (delete callId (singleTopicStates s)).

(** The [speak] closure that [handleInboundResponse] gives to the
    controller: [speakResponseCue], which calls [manager.speak] with
    [recordTranscript: false].  (A failed result is only logged.) *)
Definition speakResponseCue (i : CueInstance) (cue : ResponseCues.Cue)
    : Effect :=
  ESpeak (cueCallId i) (ResponseCues.text cue) false (Some (cueGeneration i)).

(** The result of [manager.speak] or [manager.endCall]. *)
Record CommandResult : Type := {
  success : bool;
  commandError : option string;
}.

(** [shouldAutoRespondToTranscript], its [await]s run to completion:
    [warningResult] and [endResult] are what [manager.speak] and
    [manager.endCall] answer when they are called. *)
Definition shouldAutoRespondToTranscript (config : VoiceCallConfig)
    (warningResult endResult : CommandResult)
    (s : Server) (callId transcript : string)
    : Server * list Effect * bool :=
  match singleTopic config with
  | None => (s, [], true)
  | Some singleTopic =>
      if negb (singleTopicEnabled singleTopic) then (s, [], true)
      else
        let existing :=
          default {| anchorKeywords := []; driftCount := 0 |}
            (singleTopicStates s !! callId) in
        let decision :=
          evaluateSingleTopicTranscript transcript (anchorKeywords existing)
            (minKeywords singleTopic) in
        if establishAnchor decision || allow decision then
          let anchorKeywords :=
            mergeTopicKeywords (anchorKeywords existing)
              (transcriptKeywords decision) in
          let s1 :=
            setSingleTopicStates s
              (<[callId := {| anchorKeywords := anchorKeywords;
                              driftCount := 0 |}]> (singleTopicStates s)) in
          let log :=
            if establishAnchor decision && (0 <? length anchorKeywords)%nat
            then [ELog LogInfo
                    ("[voice-call] Single-topic anchor set for " +:+ callId)]
            else [] in
          (s1, log, true)
        else
          let driftCount := (driftCount existing + 1)%nat in
          let s1 :=
            setSingleTopicStates s
              (<[callId := {| anchorKeywords := anchorKeywords existing;
                              driftCount := driftCount |}]>
                 (singleTopicStates s)) in
          let log1 :=
            [ELog LogInfo
               ("[voice-call] Single-topic drift detected for " +:+ callId)] in
          let warningMessage :=
            match warningMessage singleTopic with
            | Some m => Js.trim m
            | None => EmptyString
            end in
          let warn :=
            if (0 <? String.length warningMessage)%nat then
              ESpeak callId warningMessage false None
              :: (if negb (success warningResult)
                  then [ELog LogWarn
                          ("[voice-call] Failed to speak single-topic warning for "
                           +:+ callId)]
                  else [])
            else [] in
          if endCallOnDrift singleTopic
             && (maxDriftCount singleTopic <=? driftCount)%nat
          then
            let endLog :=
              ELog LogInfo ("[voice-call] Ending " +:+ callId)
              :: EEndCall callId
              :: (if negb (success endResult)
                  then [ELog LogWarn ("[voice-call] Failed to end " +:+ callId)]
                  else []) in
            (clearSingleTopicState (markResponseDisconnected s1 callId) callId,
             log1 ++ warn ++ endLog, false)
          else (s1, log1 ++ warn, false)
  end.

(** What [generateVoiceResponse] resolves to. *)
Record VoiceResponse : Type := {
  responseError : option string;
  responseText : option string;
}.

(** The outcome of the promise that a suspended [handleInboundResponse]
    awaits: the dynamic import, the acknowledgement, the response, or the
    final [manager.speak].  [false] and [None] are rejections. *)
Inductive Resumption : Type :=
  | ImportSettled (fulfilled : bool)
  | AcknowledgementSettled (fulfilled : bool)
  | ResponseSettled (result : option VoiceResponse)
  | SpeakSettled (result : option CommandResult).

(** An operation on controller [cid]; what it speaks goes through the
    controller's [speak] closure. *)
Definition withCues (s : Server) (cid : nat)
    (f : ResponseCues.Controller → ResponseCues.Controller * list ResponseCues.Cue)
    : Server * list Effect :=
  match cueControllers s !! cid with
  | None => (s, [])
  | Some i =>
      let '(c, out) := f (controller i) in
      (setCueControllers s (<[cid := withController i c]> (cueControllers s)),
       map (speakResponseCue i) out)
  end.

Definition setTaskAt (s : Server) (tid : nat) (t : ResponseTask)
    (at' : AwaitPoint) : Server :=
  setResponseTasks s
    (<[tid := {| taskCallId := taskCallId t;
                 taskGeneration := taskGeneration t;
                 taskCues := taskCues t; taskAt := at' |}]>
       (responseTasks s)).

(** The [finally] block of [handleInboundResponse]; the call is over. *)
Definition finallyBlock (s : Server) (tid : nat) (t : ResponseTask) : Server :=
  let s1 := clearCueController s (taskCallId t) (taskGeneration t) in
  let s2 := settleController s1 (taskCues t) in
  setResponseTasks s2 (delete tid (responseTasks s2)).

(** The [catch] block of [handleInboundResponse]. *)
Definition catchBlock : Effect :=
  ELog LogError "[voice-call] Auto-response error:".

(** [handleInboundResponse] up to its first [await].  [callKnown] tells
    whether [manager.getCall(callId)] finds the call. *)
Definition handleInboundResponse (config : VoiceCallConfig)
    (callKnown : bool) (s : Server) (callId userMessage : string)
    : Server * list Effect :=
  let log0 :=
    ELog LogInfo ("[voice-call] Auto-responding to inbound call " +:+ callId) in
  if negb callKnown then
    (s, [log0; ELog LogWarn ("[voice-call] Call not found for auto-response: "
                             +:+ callId)])
  else if negb (coreConfig config) then
    (s, [log0; ELog LogWarn
                 "[voice-call] Core config missing; skipping auto-response"])
  else
    let '(s1, generation) := beginVoiceResponseGeneration s callId in
    let cuePlan :=
      ResponseCues.resolveVoiceCallResponseCuePlan (responseCues config) in
    let cues := nextId s1 in
    let s2 :=
      {| pendingResponses := pendingResponses s1;
         singleTopicStates := singleTopicStates s1;
         cueControllers :=
           <[cues := {| controller :=
                          ResponseCues.createVoiceCallResponseCueController cuePlan;
                        cueCallId := callId;
                        cueGeneration := generation |}]> (cueControllers s1);
         responseTasks := responseTasks s1;
         nextId := S cues |} in
    let s3 := registerCueController s2 callId generation cues in
    let tid := nextId s3 in
    ({| pendingResponses := pendingResponses s3;
        singleTopicStates := singleTopicStates s3;
        cueControllers := cueControllers s3;
        responseTasks :=
          <[tid := {| taskCallId := callId; taskGeneration := generation;
                      taskCues := cues; taskAt := AwaitImport |}]>
            (responseTasks s3);
        nextId := S tid |},
     [log0]).

(** [handleInboundResponse] from one [await] to the next, or to its end. *)
Definition resumeInboundResponse (s : Server) (tid : nat) (r : Resumption)
    : Server * list Effect :=
  match responseTasks s !! tid with
  | None => (s, [])
  | Some t =>
      let callId := taskCallId t in
      let generation := taskGeneration t in
      match taskAt t, r with
      | AwaitImport, ImportSettled false
      | AwaitAcknowledgement, AcknowledgementSettled false
      | AwaitResponse, ResponseSettled None
      | AwaitSpeakResult, SpeakSettled None =>
          (finallyBlock s tid t, [catchBlock])
      | AwaitImport, ImportSettled true =>
          if negb (isVoiceResponseGenerationCurrent s callId generation)
          then (finallyBlock s tid t, [])
          else
            let '(s1, out) :=
              withCues s (taskCues t) ResponseCues.maybeSpeakAcknowledgement in
            (setTaskAt s1 tid t AwaitAcknowledgement, out)
      | AwaitAcknowledgement, AcknowledgementSettled true =>
          if negb (isVoiceResponseGenerationCurrent s callId generation)
          then (finallyBlock s tid t, [])
          else
            let '(s1, out) :=
              withCues s (taskCues t)
                (fun c => (ResponseCues.scheduleProgressCue c, [])) in
            (setTaskAt s1 tid t AwaitResponse, out)
      | AwaitResponse, ResponseSettled (Some result) =>
          if negb (isVoiceResponseGenerationCurrent s callId generation)
          then
            (finallyBlock s tid t,
             [ELog LogInfo
                ("[voice-call] Dropping stale voice response for " +:+ callId)])
          else if ResponseCues.truthy (responseError result) then
            (finallyBlock s tid t,
             [ELog LogError "[voice-call] Response generation error"])
          else if ResponseCues.truthy (responseText result) then
            (setTaskAt s tid t AwaitSpeakResult,
             [ESpeak callId (default EmptyString (responseText result)) true
                (Some generation)])
          else (finallyBlock s tid t, [])
      | AwaitSpeakResult, SpeakSettled (Some speakResult) =>
          if negb (success speakResult) then
            (finallyBlock s tid t,
             [ELog LogWarn
                ("[voice-call] Failed to speak AI response for " +:+ callId)])
          else (finallyBlock s tid t, [ELog LogInfo "[voice-call] AI response"])
      | _, _ => (s, [])
      end
  end.

(** What can happen to the server between two [await]s. *)
Inductive Action : Type :=
  (** a transcript passes the short-utterance filter: the topic guard,
      then [handleInboundResponse] if it allows *)
  | ATranscript (callId transcript : string)
      (warningResult endResult : CommandResult) (callKnown : bool)
  (** [handleInboundResponse] is called, whatever happened since the topic
      guard allowed it *)
  | AInboundResponse (callId userMessage : string) (callKnown : bool)
  (** the promise that call [tid] of [handleInboundResponse] awaits
      settles *)
  | AResume (tid : nat) (r : Resumption)
  (** the delay of timer [h] of controller [cid] elapses *)
  | ATimer (cid h : nat)
  (** the media stream of the call disconnects, or a terminal event of
      the call has been processed *)
  | ADisconnected (callId : string).

Definition step (config : VoiceCallConfig) (s : Server) (a : Action)
    : Server * list Effect :=
  match a with
  | ATranscript callId transcript warningResult endResult callKnown =>
      let '(s1, out1, allowResponse) :=
        shouldAutoRespondToTranscript config warningResult endResult s
          callId transcript in
      if negb allowResponse then (s1, out1)
      else
        let '(s2, out2) :=
          handleInboundResponse config callKnown s1 callId transcript in
        (s2, out1 ++ out2)
  | AInboundResponse callId userMessage callKnown =>
      handleInboundResponse config callKnown s callId userMessage
  | AResume tid r => resumeInboundResponse s tid r
  | ATimer cid h => withCues s cid (ResponseCues.timerElapses h)
  | ADisconnected callId =>
      (clearSingleTopicState (markResponseDisconnected s callId) callId, [])
  end.

(** The server after a sequence of actions. *)
Definition exec (config : VoiceCallConfig) (s : Server) (acts : list Action)
    : Server :=
  foldl (fun s a => fst (step config s a)) s acts.

(** Generation [g] of the call has been followed by a later one. *)
Definition superseded (s : Server) (callId : string) (g : nat) : Prop :=
  ∃ st, pendingResponses s !! callId = Some st ∧ (g < generation st)%nat.

(** How the controllers, the pending states and the suspended calls of
    [handleInboundResponse] hang together: a controller that is not
    settled is the one registered in the pending state of its call, for
    the current generation of a connected call; a suspended call holds
    the controller made for its generation; no two controllers are for
    the same generation of the same call, none is for a generation
    later than the call's latest, and addresses are used once. *)
Record coherent (s : Server) : Prop := {
  unsettledRegistered :
    ∀ cid i, cueControllers s !! cid = Some i →
      ResponseCues.settled (controller i) = false →
      ∃ st, pendingResponses s !! cueCallId i = Some st
            ∧ settleCues st = Some cid
            ∧ generation st = cueGeneration i
            ∧ disconnected st = false;
  taskHoldsCues :
    ∀ tid t, responseTasks s !! tid = Some t →
      ∃ i, cueControllers s !! taskCues t = Some i
           ∧ cueCallId i = taskCallId t
           ∧ cueGeneration i = taskGeneration t;
  cuesUnique :
    ∀ cid cid' i i', cueControllers s !! cid = Some i →
      cueControllers s !! cid' = Some i' →
      cueCallId i = cueCallId i' → cueGeneration i = cueGeneration i' →
      cid = cid';
  cuesBounded :
    ∀ cid i, cueControllers s !! cid = Some i →
      ∃ st, pendingResponses s !! cueCallId i = Some st
            ∧ (cueGeneration i <= generation st)%nat;
  addressesFresh :
    ∀ cid, is_Some (cueControllers s !! cid) → (cid < nextId s)%nat;
}.

(** [s'] differs from [s] in the controllers only, which keep their call
    and generation and do not come back from being settled. *)
Definition cuesAdvanced (s s' : Server) : Prop :=
  pendingResponses s' = pendingResponses s
  ∧ responseTasks s' = responseTasks s
  ∧ nextId s' = nextId s
  ∧ ∀ cid,
      match cueControllers s !! cid, cueControllers s' !! cid with
      | Some i, Some i' =>
          cueCallId i' = cueCallId i ∧ cueGeneration i' = cueGeneration i
          ∧ (ResponseCues.settled (controller i') = false →
             ResponseCues.settled (controller i) = false)
      | None, None => True
      | _, _ => False
      end.

(** No call loses its pending state, and no generation goes down. *)
Definition generationsGrow (s s' : Server) : Prop :=
  ∀ c st, pendingResponses s !! c = Some st →
    ∃ st', pendingResponses s' !! c = Some st'
           ∧ (generation st <= generation st')%nat.

(** The awaited promise is fulfilled, not rejected. *)
Definition isFulfilled (r : Resumption) : bool :=
  match r with
  | ImportSettled fulfilled | AcknowledgementSettled fulfilled => fulfilled
  | ResponseSettled result => bool_decide (is_Some result)
  | SpeakSettled result => bool_decide (is_Some result)
  end.

Definition isSpeak (e : Effect) : bool :=
  match e with ESpeak _ _ _ _ => true | _ => false end.

Definition isErrorLog (e : Effect) : bool :=
  match e with ELog LogError _ => true | _ => false end.

(** *** The HTTP handler *)

Record WebhookContext : Type := {
  headers : list (string * string);
  rawBody : string;
  url : string;
  method : string;
  query : list (string * string);
  remoteAddress : option string;
}.

Record WebhookVerificationResult : Type := {
  ok : bool;
  reason : option string;
}.

Record ProviderWebhookParseResult : Type := {
  events : list NormalizedEvent;
  statusCode : nat;
  providerResponseBody : option string;
  providerResponseHeaders : list (string * string);
}.

(** The two capabilities of a provider that the handler uses. *)
Record VoiceCallProvider : Type := {
  verifyWebhook : WebhookContext → WebhookVerificationResult;
  parseWebhookEvent : WebhookContext → ProviderWebhookParseResult;
}.

(** The text of [requestBodyErrorToText("REQUEST_BODY_TIMEOUT")]; the
    plugin SDK that defines it is not among the sources, and nothing below
    depends on the text. *)
Definition requestBodyTimeoutText : string := "Request body timeout".

(** What [readRequestBodyWithLimit] gives. *)
Inductive BodyRead : Type :=
  | BodyText (body : string)
  | PayloadTooLarge
  | RequestBodyTimeout
  | OtherFailure.

(** An incoming request, its URL parsed. *)
Record IncomingMessage : Type := {
  requestUrl : string;
  requestHost : string;
  requestPathname : string;
  requestSearchParams : list (string * string);
  requestMethod : string;
  requestHeaders : list (string * string);
  requestRemoteAddress : option string;
  requestBody : BodyRead;
}.

Record ServerResponse : Type := {
  responseStatus : nat;
  responseHeaders : list (string * string);
  responseBody : string;
}.

(** The calls that the handler makes to the provider and the manager. *)
Inductive Consulted : Type :=
  | VerifyWebhook (ctx : WebhookContext)
  | ParseWebhookEvent (ctx : WebhookContext)
  | ProcessEvent (event : NormalizedEvent).

(** The [WebhookContext] that the handler builds from a request whose
    body has been read. *)
Definition webhookContext (req : IncomingMessage) (body : string)
    : WebhookContext :=
  {| headers := requestHeaders req; rawBody := body;
     url := "http://" +:+ requestHost req +:+ requestUrl req;
     method := "POST"; query := requestSearchParams req;
     remoteAddress := requestRemoteAddress req |}.

Section Handler.

Context {M : Type} `{Api.CallManagerApi M}.

Record Handled : Type := {
  serverAfter : Server;
  managerAfter : M;
  response : option ServerResponse;
  consulted : list Consulted;
  logged : list Effect;
}.

Definition respond (s : Server) (m : M) (status : nat) (body : string)
    (calls : list Consulted) (log : list Effect) : Handled :=
  {| serverAfter := s; managerAfter := m;
     response := Some {| responseStatus := status; responseHeaders := [];
                         responseBody := body |};
     consulted := calls; logged := log |}.

(** The body of the loop over [result.events]. *)
Definition processOne (acc : Server * M * list Consulted * list Effect)
    (event : NormalizedEvent) : Server * M * list Consulted * list Effect :=
  let '(s, m, calls, log) := acc in
  let callBeforeEvent :=
    match (if Js.isEmpty (eventProviderCallId event) then None
           else Api.getCallByProviderCallId m (eventProviderCallId event)) with
    | Some call => Some call
    | None => Api.getCall m (eventCallId event)
    end in
  let '(m1, completion) := Api.processEvent m event in
  let log1 :=
    match completion with
    | Returned => log
    | Threw => log ++ [ELog LogError "[voice-call] Error processing event"]
    end in
  let calls1 := calls ++ [ProcessEvent event] in
  if isTerminalEvent event then
    let terminalCallId :=
      match callBeforeEvent with
      | Some call => callId call
      | None => eventCallId event
      end in
    (clearSingleTopicState (markResponseDisconnected s terminalCallId)
       terminalCallId, m1, calls1, log1)
  else (s, m1, calls1, log1).

Definition handleRequest (provider : VoiceCallProvider) (s : Server) (m : M)
    (req : IncomingMessage) (webhookPath : string) : Handled :=
  if negb (String.prefix webhookPath (requestPathname req)) then
    respond s m 404 "Not Found" [] []
  else if negb (String.eqb (requestMethod req) "POST") then
    respond s m 405 "Method Not Allowed" [] []
  else
    match requestBody req with
    | PayloadTooLarge => respond s m 413 "Payload Too Large" [] []
    | RequestBodyTimeout => respond s m 408 requestBodyTimeoutText [] []
    | OtherFailure =>
        {| serverAfter := s; managerAfter := m; response := None;
           consulted := []; logged := [] |}
    | BodyText body =>
        let ctx := webhookContext req body in
        let verification := verifyWebhook provider ctx in
        if negb (ok verification) then
          respond s m 401 "Unauthorized" [VerifyWebhook ctx]
            [ELog LogWarn "[voice-call] Webhook verification failed"]
        else
          let result := parseWebhookEvent provider ctx in
          let '(s1, m1, calls, log) :=
            foldl processOne
              (s, m, [VerifyWebhook ctx; ParseWebhookEvent ctx], [])
              (events result) in
          {| serverAfter := s1; managerAfter := m1;
             response :=
               Some {| responseStatus :=
                         if (statusCode result =? 0)%nat then 200
                         else statusCode result;
                       responseHeaders := providerResponseHeaders result;
                       responseBody :=
                         match providerResponseBody result with
                         | Some b => if Js.isEmpty b then "OK" else b
                         | None => "OK"
                         end |};
             consulted := calls; logged := log |}
    end.

End Handler.

End Webhook.

(** ** The call manager (manager.ts) *)
Module Manager.

(** Modelled from the spec: the two inbound policies of section 4.2
    ([config.ts] is not among the sources). *)
Inductive InboundPolicy : Type := policyOpen | policyAllowlist.

(** Modelled from the spec: the part of the configuration that the manager
    reads (section 4.2, and the configurations built in the tests). *)
Record ManagerConfig : Type := {
  providerName : string;
  fromNumber : string;
  inboundPolicy : InboundPolicy;
  allowFrom : list string;
}.

(** How a call of the ended-callback ends. *)
Inductive CallbackOutcome : Type := CallbackReturns | CallbackThrows.

(** Modelled from the spec: the state of the call manager; [manager.ts] is
    not among the sources.  The store of call records by internal
    identifier and the index from provider call identifier to internal
    identifier (section 3), the ended-callback registered at construction
    (section 6), and what the manager has done to the outside: the
    records that the ended-callback was called with, the hang-ups and the
    texts that it asked the adapter for, and the errors that it logged. *)
Record CallManager : Type := {
  config : ManagerConfig;
  onCallEnded : option (CallRecord → CallbackOutcome);
  activeCalls : gmap string CallRecord;
  providerCallIdMap : gmap string string;
  nextCallId : nat;
  endedNotifications : list CallRecord;
  hangupCalls : list string;
  playTtsCalls : list (string * string);
  errorLog : list string;
}.

(** Modelled from the spec: a manager as constructed, without calls. *)
Definition newManager (config : ManagerConfig)
    (onCallEnded : option (CallRecord → CallbackOutcome)) : CallManager :=
  {| config := config; onCallEnded := onCallEnded; activeCalls := ∅;
     providerCallIdMap := ∅; nextCallId := 0; endedNotifications := [];
     hangupCalls := []; playTtsCalls := []; errorLog := [] |}.

(** Modelled from the spec: the internal identifier generated for the
    [n]-th call of a manager (the specification only says that it is
    generated; distinct calls get distinct identifiers). *)
Definition generatedCallId (n : nat) : string := "call-" +:+ pretty n.

Definition isTerminalState (st : CallState) : bool :=
  match st with
  | ended | errorTerminal => true
  | _ => false
  end.

(** Modelled from the spec: [getCall(internalId)] (section 6). *)
Definition getCall (m : CallManager) (callId : string) : option CallRecord :=
  activeCalls m !! callId.

(** Modelled from the spec: [getCallByProviderCallId(providerId)], through
    the secondary index (sections 3 and 6). *)
Definition getCallByProviderCallId (m : CallManager) (providerCallId : string)
    : option CallRecord :=
  providerCallIdMap m !! providerCallId ≫= fun callId => activeCalls m !! callId.

(** Modelled from the spec: "Look up the record by provider call id,
    falling back to internal call id" (section 4.1). *)
Definition findCall (m : CallManager) (event : NormalizedEvent)
    : option CallRecord :=
  match getCallByProviderCallId m (eventProviderCallId event) with
  | Some call => Some call
  | None => getCall m (eventCallId event)
  end.

(** Modelled from the spec: the inbound access policy (section 4.2): on
    [allowlist] the [from] number must be present verbatim in
    [allowFrom], and an absent [from] is rejected. *)
Definition shouldAcceptInbound (config : ManagerConfig) (from : option string)
    : bool :=
  match inboundPolicy config with
  | policyOpen => true
  | policyAllowlist =>
      match from with
      | None => false
      | Some number => bool_decide (number ∈ allowFrom config)
      end
  end.

Definition setCalls (m : CallManager) (calls : gmap string CallRecord)
    (index : gmap string string) : CallManager :=
  {| config := config m; onCallEnded := onCallEnded m; activeCalls := calls;
     providerCallIdMap := index; nextCallId := nextCallId m;
     endedNotifications := endedNotifications m;
     hangupCalls := hangupCalls m; playTtsCalls := playTtsCalls m;
     errorLog := errorLog m |}.

Definition storeCall (m : CallManager) (call : CallRecord) : CallManager :=
  setCalls m (<[callId call := call]> (activeCalls m)) (providerCallIdMap m).

Definition requestHangup (m : CallManager) (providerCallId : string)
    : CallManager :=
  {| config := config m; onCallEnded := onCallEnded m;
     activeCalls := activeCalls m; providerCallIdMap := providerCallIdMap m;
     nextCallId := nextCallId m; endedNotifications := endedNotifications m;
     hangupCalls := hangupCalls m ++ [providerCallId];
     playTtsCalls := playTtsCalls m; errorLog := errorLog m |}.

Definition requestTts (m : CallManager) (providerCallId text : string)
    : CallManager :=
  {| config := config m; onCallEnded := onCallEnded m;
     activeCalls := activeCalls m; providerCallIdMap := providerCallIdMap m;
     nextCallId := nextCallId m; endedNotifications := endedNotifications m;
     hangupCalls := hangupCalls m;
     playTtsCalls := playTtsCalls m ++ [(providerCallId, text)];
     errorLog := errorLog m |}.

Definition updateCall (call : CallRecord) (providerCallId0 : string)
    (state0 : CallState) (transcript0 : list TranscriptEntry)
    (processed : list string) (endReason0 : option string) (fired : bool)
    : CallRecord :=
  {| callId := callId call; providerCallId := providerCallId0;
     provider := provider call; direction := direction call;
     state := state0; from := from call; to := to call;
     startedAt := startedAt call; transcript := transcript0;
     processedEventIds := processed; metadata := metadata call;
     endReason := endReason0; endedCallbackFired := fired |}.

(** Modelled from the spec: the ended-callback contract (section 4.1):
    the flag on the record goes from false to true once, the callback is
    called with the record as it then is, and a throwing callback is
    caught and logged.  [call] is the record after its terminal
    transition; the result is the record to store. *)
Definition fireEndedCallback (m : CallManager) (call : CallRecord)
    : CallManager :=
  if endedCallbackFired call then storeCall m call
  else
    let snapshot :=
      updateCall call (providerCallId call) (state call) (transcript call)
        (processedEventIds call) (endReason call) true in
    let m1 := storeCall m snapshot in
    match onCallEnded m1 with
    | None => m1
    | Some callback =>
        {| config := config m1; onCallEnded := onCallEnded m1;
           activeCalls := activeCalls m1;
           providerCallIdMap := providerCallIdMap m1;
           nextCallId := nextCallId m1;
           endedNotifications := endedNotifications m1 ++ [snapshot];
           hangupCalls := hangupCalls m1; playTtsCalls := playTtsCalls m1;
           errorLog :=
             match callback snapshot with
             | CallbackReturns => errorLog m1
             | CallbackThrows =>
                 errorLog m1 ++ ["[voice-call] onCallEnded callback failed"]
             end |}
    end.

(** Modelled from the spec: provider-ID promotion (section 4.1): the old
    entry of the index is removed, the new one inserted, the record
    updated. *)
Definition promoteProviderCallId (m : CallManager) (call : CallRecord)
    (event : NormalizedEvent) : CallManager * CallRecord :=
  if negb (Js.isEmpty (eventProviderCallId event))
     && negb (String.eqb (eventProviderCallId event) (providerCallId call))
  then
    let call1 :=
      updateCall call (eventProviderCallId event) (state call)
        (transcript call) (processedEventIds call) (endReason call)
        (endedCallbackFired call) in
    (setCalls m (<[callId call := call1]> (activeCalls m))
       (<[eventProviderCallId event := callId call]>
          (delete (providerCallId call) (providerCallIdMap m))),
     call1)
  else (m, call).

(** Modelled from the spec: the application of an event that is not a
    duplicate to the record found for it (section 4.1).  After a terminal
    state an event is only recorded. *)
Definition applyEvent (m : CallManager) (call : CallRecord)
    (event : NormalizedEvent) : CallManager :=
  let '(m1, call1) := promoteProviderCallId m call event in
  let processed := processedEventIds call1 ++ [eventId event] in
  let recorded :=
    updateCall call1 (providerCallId call1) (state call1) (transcript call1)
      processed (endReason call1) (endedCallbackFired call1) in
  if isTerminalState (state call1) then storeCall m1 recorded
  else
    match payload event with
    | CallInitiated => storeCall m1 recorded
    | CallAnswered =>
        let m2 :=
          storeCall m1
            (updateCall call1 (providerCallId call1) answered
               (transcript call1) processed (endReason call1)
               (endedCallbackFired call1)) in
        match list_find (fun kv => kv.1 = "initialMessage") (metadata call1) with
        | Some (_, (_, message)) => requestTts m2 (providerCallId call1) message
        | None => m2
        end
    | CallSpeech text isFinal =>
        storeCall m1
          (updateCall call1 (providerCallId call1) (state call1)
             (transcript call1
              ++ [ {| entryTimestamp := eventTimestamp event; speaker := user;
                      entryText := text; entryIsFinal := isFinal |} ])
             processed (endReason call1) (endedCallbackFired call1))
    | CallEnded reason =>
        fireEndedCallback m1
          (updateCall call1 (providerCallId call1) ended (transcript call1)
             processed (Some reason) (endedCallbackFired call1))
    | CallError _ retryable =>
        if retryable then storeCall m1 recorded
        else
          fireEndedCallback m1
            (updateCall call1 (providerCallId call1) errorTerminal
               (transcript call1) processed (Some "error")
               (endedCallbackFired call1))
    end.

(** Modelled from the spec: the record created for an accepted inbound
    call, with a generated internal identifier. *)
Definition createInboundCall (m : CallManager) (event : NormalizedEvent)
    : CallManager :=
  let call :=
    {| callId := generatedCallId (nextCallId m);
       providerCallId := eventProviderCallId event;
       provider := providerName (config m); direction := inbound;
       state := initiated;
       from := default EmptyString (eventFrom event);
       to := default (fromNumber (config m)) (eventTo event);
       startedAt := eventTimestamp event; transcript := [];
       processedEventIds := [eventId event]; metadata := [];
       endReason := None; endedCallbackFired := false |} in
  {| config := config m; onCallEnded := onCallEnded m;
     activeCalls := <[callId call := call]> (activeCalls m);
     providerCallIdMap :=
       <[eventProviderCallId event := callId call]> (providerCallIdMap m);
     nextCallId := S (nextCallId m);
     endedNotifications := endedNotifications m;
     hangupCalls := hangupCalls m; playTtsCalls := playTtsCalls m;
     errorLog := errorLog m |}.

(** Modelled from the spec: [processEvent] (section 4.1). *)
Definition processEvent (m : CallManager) (event : NormalizedEvent)
    : CallManager :=
  match findCall m event with
  | Some call =>
      if Js.has (processedEventIds call) (eventId event) then m
      else applyEvent m call event
  | None =>
      match payload event, eventDirection event with
      | CallInitiated, Some inbound =>
          if shouldAcceptInbound (config m) (eventFrom event)
          then createInboundCall m event
          else requestHangup m (eventProviderCallId event)
      | _, _ => m
      end
  end.

(** Modelled from the spec: [endCall] (section 4.1); [hangupOk] tells
    whether the adapter's hang-up succeeds. *)
Definition endCall (m : CallManager) (callId0 : string) (hangupOk : bool)
    : CallManager * Webhook.CommandResult :=
  match getCall m callId0 with
  | None =>
      (m, {| Webhook.success := false;
             Webhook.commandError := Some "Call not found" |})
  | Some call =>
      match state call with
      | answered | active =>
          let m1 := requestHangup m (providerCallId call) in
          if hangupOk then
            (fireEndedCallback m1
               (updateCall call (providerCallId call) ended (transcript call)
                  (processedEventIds call) (Some "hangup-bot")
                  (endedCallbackFired call)),
             {| Webhook.success := true; Webhook.commandError := None |})
          else
            (m1, {| Webhook.success := false;
                    Webhook.commandError := Some "Hangup failed" |})
      | _ =>
          (m, {| Webhook.success := false;
                 Webhook.commandError := Some "Call is not active" |})
      end
  end.

(** Modelled from the spec: [initiateCall] (section 4.1);
    [adapterResult] is the provisional identifier that the adapter
    returns, or nothing when the adapter fails. *)
Definition initiateCall (m : CallManager) (to0 : string)
    (message : option string) (adapterResult : option string)
    : CallManager * option string :=
  match adapterResult with
  | None => (m, None)
  | Some providerCallId0 =>
      let call :=
        {| callId := generatedCallId (nextCallId m);
           providerCallId := providerCallId0;
           provider := providerName (config m); direction := outbound;
           state := initiated; from := fromNumber (config m); to := to0;
           startedAt := 0; transcript := [];
           processedEventIds := [];
           metadata :=
             match message with
             | Some text => [("initialMessage", text)]
             | None => []
             end;
           endReason := None; endedCallbackFired := false |} in
      ({| config := config m; onCallEnded := onCallEnded m;
          activeCalls := <[callId call := call]> (activeCalls m);
          providerCallIdMap :=
            <[providerCallId0 := callId call]> (providerCallIdMap m);
          nextCallId := S (nextCallId m);
          endedNotifications := endedNotifications m;
          hangupCalls := hangupCalls m; playTtsCalls := playTtsCalls m;
          errorLog := errorLog m |},
       Some (callId call))
  end.

(** Modelled from the spec: the commands of the manager that create and
    end calls (section 6), with what the adapter answers. *)
Inductive Command : Type :=
  | DoInitiateCall (to0 : string) (message : option string)
      (adapterResult : option string)
  | DoProcessEvent (event : NormalizedEvent)
  | DoEndCall (callId0 : string) (hangupOk : bool).

(** A command always returns to its caller: every failure inside is
    turned into a result or a log entry. *)
Definition perform (m : CallManager) (c : Command) : CallManager * Completion :=
  match c with
  | DoInitiateCall to0 message adapterResult =>
      (fst (initiateCall m to0 message adapterResult), Returned)
  | DoProcessEvent event => (processEvent m event, Returned)
  | DoEndCall callId0 hangupOk => (fst (endCall m callId0 hangupOk), Returned)
  end.

Definition performAll (m : CallManager) (cs : list Command) : CallManager :=
  foldl (fun m c => fst (perform m c)) m cs.

(** The calls of the ended-callback for the call [callId0]. *)
Definition notificationsFor (m : CallManager) (callId0 : string)
    : list CallRecord :=
  filter (fun call => callId call = callId0) (endedNotifications m).

(** The command [c], given to manager [m], is a terminal trigger for
    [call] that takes effect, with end reason [reason]: a [call.ended]
    or non-retryable [call.error] event that is found to be for [call]
    and has not been applied to it, or a bot hang-up of the answered or
    active [call] that the adapter carries out. *)
Definition takesEffect (m : CallManager) (call : CallRecord) (c : Command)
    (reason : string) : Prop :=
  match c with
  | DoEndCall callId0 hangupOk =>
      callId0 = callId call ∧ hangupOk = true
      ∧ (state call = answered ∨ state call = active)
      ∧ reason = "hangup-bot"
  | DoProcessEvent event =>
      findCall m event = Some call
      ∧ (eventId event ∉ processedEventIds call)
      ∧ (payload event = CallEnded reason
         ∨ (∃ err, payload event = CallError err false ∧ reason = "error"))
  | DoInitiateCall _ _ _ => False
  end.

(** [snapshot] shows the call as [call] has it in the end. *)
Definition snapshotOf (snapshot call : CallRecord) : Prop :=
  callId snapshot = callId call
  ∧ state snapshot = state call
  ∧ endReason snapshot = endReason call
  ∧ transcript snapshot = transcript call
  ∧ direction snapshot = direction call
  ∧ from snapshot = from call
  ∧ to snapshot = to call
  ∧ endedCallbackFired snapshot = true.

Definition throwsOn (callback : CallRecord → CallbackOutcome)
    (call : CallRecord) : bool :=
  match callback call with
  | CallbackThrows => true
  | CallbackReturns => false
  end.

(** The store, the flags and the calls of the ended-callback agree. *)
Record consistent (callback : CallRecord → CallbackOutcome)
    (m : CallManager) : Prop := {
  registered : onCallEnded m = Some callback;
  keyed : ∀ cid call, activeCalls m !! cid = Some call → callId call = cid;
  generated :
    ∀ cid, is_Some (activeCalls m !! cid) →
           ∃ n, (n < nextCallId m)%nat ∧ cid = generatedCallId n;
  flagged :
    ∀ cid call, activeCalls m !! cid = Some call →
                endedCallbackFired call = isTerminalState (state call);
  notified :
    ∀ cid call, activeCalls m !! cid = Some call →
      if endedCallbackFired call
      then ∃ snapshot,
             notificationsFor m cid = [snapshot] ∧ snapshotOf snapshot call
      else notificationsFor m cid = [];
  known :
    ∀ snapshot, snapshot ∈ endedNotifications m →
                is_Some (activeCalls m !! callId snapshot);
  caught :
    length (errorLog m)
    = length (filter (fun call => throwsOn callback call = true)
                (endedNotifications m));
}.

#[global] Instance callManagerApi : Api.CallManagerApi CallManager :=
  {| Api.getCall := getCall;
     Api.getCallByProviderCallId := getCallByProviderCallId;
     Api.processEvent := fun m event => (processEvent m event, Returned) |}.

End Manager.

(** ** Further notions used to state properties *)

Definition isProgressCue (q : ResponseCues.Cue) : bool :=
  match ResponseCues.kind q with
  | ResponseCues.progress => true
  | ResponseCues.acknowledgement => false
  end.

(** The progress cues among the spoken ones. *)
Definition progressCount (out : list ResponseCues.Cue) : nat :=
  length (filter (fun q => isProgressCue q = true) out).

(** How many progress cues a controller can still speak: one while its
    timer is set, or while it can still set one; none once it is settled
    or its timer has fired. *)
Definition progressBudget (c : ResponseCues.Controller) : nat :=
  if ResponseCues.settled c then 0
  else match ResponseCues.timers c, ResponseCues.progressTimer c with
       | _ :: _, _ => 1
       | [], None => 1
       | [], Some _ => 0
       end.

(** Characters left unchanged by [toLowerCase]. *)
Definition lowerFixed (c : ascii) : bool := Ascii.eqb (Js.lowerChar c) c.

Definition isEndCall (e : Webhook.Effect) : bool :=
  match e with Webhook.EEndCall _ => true | _ => false end.

(** No generation of the call is current. *)
Definition noGenerationCurrent (s : Webhook.Server) (callId : string) : Prop :=
  ∀ g, Webhook.isVoiceResponseGenerationCurrent s callId g = false.

(** ** Notions used to speak about a batch of events *)
Section Batch.

Context {M : Type} `{Api.CallManagerApi M}.

(** The call that the request handler takes as the one of a terminal
    event, with the manager as it is before the event is processed:
    [callBeforeEvent?.callId ?? event.callId]. *)
Definition terminalCallId (m : M) (event : NormalizedEvent) : string :=
  match
    match (if Js.isEmpty (eventProviderCallId event) then None
           else Api.getCallByProviderCallId m (eventProviderCallId event)) with
    | Some call => Some call
    | None => Api.getCall m (eventCallId event)
    end
  with
  | Some call => callId call
  | None => eventCallId event
  end.

(** The manager after [processEvent] has been called with each event in
    turn, whether or not a call threw. *)
Definition managerAfterEvents (m : M) (events : list NormalizedEvent) : M :=
  foldl (fun m event => (Api.processEvent m event).1) m events.

End Batch.

(** ** webhook.ts: the callbacks given to the media stream handler *)
Module MediaStream.

(** What a callback does besides changing the server: the server's
    effects, and the calls on the Twilio provider. *)
Inductive StreamOutput : Type :=
  | ServerEffect (e : Webhook.Effect)
  | ClearTtsQueue (providerCallId : string)
  | UnregisterCallStream (providerCallId : string).

Section Callbacks.

Context {M : Type} `{Api.CallManagerApi M}.

Record StreamResult : Type := {
  streamServer : Webhook.Server;
  streamManager : M;
  streamOutput : list StreamOutput;
  streamCompletion : Completion;
}.

(** [call.metadata?.mode] *)
Definition callMode (call : CallRecord) : option string :=
  snd <$> (snd <$> list_find (fun kv => kv.1 = "mode") (metadata call)).

(** [onTranscript]: [providerName] is [this.provider.name], [idNow] and
    [now] are what the two calls of [Date.now()] give; the asynchronous
    part runs to the first [await] of [handleInboundResponse]. *)
Definition onTranscript (config : Webhook.VoiceCallConfig)
    (providerName : string) (idNow now : nat)
    (warningResult endResult : Webhook.CommandResult)
    (s : Webhook.Server) (m : M) (providerCallId transcript : string)
    : StreamResult :=
  let log0 :=
    [ServerEffect (Webhook.ELog Webhook.LogInfo
                     ("[voice-call] Transcript for " +:+ providerCallId))] in
  let barge :=
    if String.eqb providerName "twilio" then [ClearTtsQueue providerCallId]
    else [] in
  match Api.getCallByProviderCallId m providerCallId with
  | None =>
      {| streamServer := s; streamManager := m;
         streamOutput :=
           log0 ++ barge
           ++ [ServerEffect
                 (Webhook.ELog Webhook.LogWarn
                    ("[voice-call] No active call found for provider ID: "
                     +:+ providerCallId))];
         streamCompletion := Returned |}
  | Some call =>
      let event :=
        {| eventId := "stream-transcript-" +:+ pretty idNow;
           eventCallId := callId call;
           eventProviderCallId := providerCallId;
           eventTimestamp := now;
           eventDirection := None; eventFrom := None; eventTo := None;
           payload := CallSpeech transcript true |} in
      match Api.processEvent m event with
      | (m1, Threw) =>
          {| streamServer := s; streamManager := m1;
             streamOutput := log0 ++ barge; streamCompletion := Threw |}
      | (m1, Returned) =>
          let shouldRespond :=
            match direction call with
            | inbound => true
            | outbound => bool_decide (callMode call = Some "conversation")
            end in
          if negb shouldRespond then
            {| streamServer := s; streamManager := m1;
               streamOutput := log0 ++ barge; streamCompletion := Returned |}
          else if shouldIgnoreTranscriptForResponse transcript then
            {| streamServer := s; streamManager := m1;
               streamOutput :=
                 log0 ++ barge
                 ++ [ServerEffect
                       (Webhook.ELog Webhook.LogInfo
                          ("[voice-call] Ignoring short/filler transcript for "
                           +:+ callId call))];
               streamCompletion := Returned |}
          else
            let '(s1, out) :=
              Webhook.step config s
                (Webhook.ATranscript (callId call) transcript warningResult
                   endResult
                   (bool_decide (is_Some (Api.getCall m1 (callId call))))) in
            {| streamServer := s1; streamManager := m1;
               streamOutput := log0 ++ barge ++ map ServerEffect out;
               streamCompletion := Returned |}
      end
  end.

(** [onDisconnect] *)
Definition onDisconnect (providerName : string) (s : Webhook.Server) (m : M)
    (providerCallId : string) : Webhook.Server * list StreamOutput :=
  let log0 :=
    [ServerEffect
       (Webhook.ELog Webhook.LogInfo
          ("[voice-call] Media stream disconnected: " +:+ providerCallId))] in
  let s1 :=
    match Api.getCallByProviderCallId m providerCallId with
    | Some call =>
        Webhook.clearSingleTopicState
          (Webhook.markResponseDisconnected s (callId call)) (callId call)
    | None => s
    end in
  (s1,
   log0 ++ if String.eqb providerName "twilio"
           then [UnregisterCallStream providerCallId] else []).

End Callbacks.

End MediaStream.

(* ================================================================== *)
(** * Properties *)

Example shouldIgnore_um : shouldIgnoreTranscriptForResponse "um" = true.
Proof. vm_compute. reflexivity. Qed.

Example extract_code_account :
  extractTopicKeywords "what is the code 483920 for my account" = ["code"; "account"].
Proof. vm_compute. reflexivity. Qed.

(** ** Tokens of a transcript *)
Section Tokens.

Import Words.
Local Arguments String.append !_ _ : simpl nomatch.
Local Abbreviation ws := Js.isWhiteSpace.
Local Abbreviation nonEmpty := (fun w : string => w ≠ EmptyString).

Lemma splitOn_not_nil p s : Js.splitOn p s ≠ [].
Proof.
  destruct s as [|c r]; simpl; [done|].
  destruct (p c); [done|]. by destruct (Js.splitOn p r).
Qed.

Lemma words_nil : Words.words EmptyString = [].
Proof. reflexivity. Qed.

Lemma words_ws c r : ws c = true → Words.words (String c r) = Words.words r.
Proof.
  intros Hc. unfold Words.words. simpl. rewrite Hc.
  rewrite filter_cons. by destruct (decide _).
Qed.

Lemma words_char c r :
  ws c = false →
  Words.words (String c r) = String c (firstPiece r) :: laterWords r.
Proof.
  intros Hc. unfold Words.words, firstPiece, laterWords. simpl. rewrite Hc.
  pose proof (splitOn_not_nil ws r) as Hne.
  destruct (Js.splitOn ws r) as [|w l]; [done|]. simpl.
  rewrite filter_cons. destruct (decide _) as [|Hn]; [done|].
  exfalso. by apply Hn.
Qed.

Lemma firstPiece_ws c r : ws c = true → firstPiece (String c r) = EmptyString.
Proof. intros Hc. unfold firstPiece. simpl. by rewrite Hc. Qed.

Lemma laterWords_ws c r : ws c = true → laterWords (String c r) = Words.words r.
Proof. intros Hc. unfold laterWords, Words.words. simpl. by rewrite Hc. Qed.

Lemma firstPiece_char c r :
  ws c = false → firstPiece (String c r) = String c (firstPiece r).
Proof.
  intros Hc. unfold firstPiece. simpl. rewrite Hc.
  pose proof (splitOn_not_nil ws r). by destruct (Js.splitOn ws r).
Qed.

Lemma laterWords_char c r :
  ws c = false → laterWords (String c r) = laterWords r.
Proof.
  intros Hc. unfold laterWords. simpl. rewrite Hc.
  pose proof (splitOn_not_nil ws r). by destruct (Js.splitOn ws r).
Qed.

Lemma append_empty_r (x : string) : (x ++ EmptyString)%string = x.
Proof. induction x as [|c x IH]; simpl; [done|]. by rewrite IH. Qed.

Lemma concat_cons sep x l :
  String.concat sep (x :: l)
  = (x ++ match l with [] => EmptyString | _ => sep ++ String.concat sep l end)%string.
Proof. destruct l; simpl; [|done]. by rewrite append_empty_r. Qed.

Lemma concat_space_cons x l :
  String.concat " " (x :: l) = (x ++ sepJoin l)%string.
Proof. rewrite concat_cons. by destruct l. Qed.

Lemma dropEnd_empty_words s :
  Js.isEmpty (Js.dropEnd ws s) = true ↔ Words.words s = [].
Proof.
  induction s as [|c r IH]; [done|].
  simpl. destruct (ws c) eqn:Hc; simpl.
  - rewrite words_ws by done. rewrite <- IH.
    by destruct (Js.isEmpty (Js.dropEnd ws r)).
  - rewrite words_char by done. done.
Qed.

Lemma words_dropStart s : Words.words (Js.dropStart ws s) = Words.words s.
Proof.
  induction s as [|c r IH]; [done|]. simpl.
  destruct (ws c) eqn:Hc; [|done]. by rewrite words_ws.
Qed.

Lemma dropStart_head p s :
  Js.dropStart p s = EmptyString
  ∨ ∃ c r, Js.dropStart p s = String c r ∧ p c = false.
Proof.
  induction s as [|c r IH]; [by left|]. simpl.
  destruct (p c) eqn:Hc; [done|]. right. eauto.
Qed.

Lemma collapse_dropEnd s :
  Js.collapseFrom false (Js.dropEnd ws s)
    = (firstPiece s ++ sepJoin (laterWords s))%string
  ∧ Js.collapseFrom true (Js.dropEnd ws s) = String.concat " " (Words.words s).
Proof.
  induction s as [|c r [IH1 IH2]]; [done|].
  simpl Js.dropEnd. destruct (ws c) eqn:Hc; simpl andb.
  - rewrite firstPiece_ws, laterWords_ws, words_ws by done.
    destruct (Js.isEmpty (Js.dropEnd ws r)) eqn:He.
    + apply dropEnd_empty_words in He. rewrite He. done.
    + assert (Words.words r ≠ []) as Hw.
      { intros Hw. apply dropEnd_empty_words in Hw. congruence. }
      simpl. rewrite Hc, IH2. split; [|done].
      by destruct (Words.words r).
  - rewrite firstPiece_char, laterWords_char, words_char by done.
    rewrite concat_space_cons.
    simpl. by rewrite Hc, IH1.
Qed.

(** The compacted transcript is the transcript's words joined by one
    space each. *)
Lemma compact_words s :
  Js.collapseWhiteSpace (Js.trim s) = String.concat " " (Words.words s).
Proof.
  unfold Js.collapseWhiteSpace, Js.trim.
  rewrite <- (words_dropStart s).
  destruct (dropStart_head ws s) as [->|(c & r & -> & Hc)]; [done|].
  rewrite <- (proj2 (collapse_dropEnd (String c r))).
  simpl. rewrite Hc. simpl. by rewrite Hc.
Qed.

Lemma split_spaceFree w : spaceFree w → Js.splitSpace w = [w].
Proof.
  unfold spaceFree, Js.splitSpace.
  induction w as [|c w IH]; [done|]. simpl.
  intros [Hc Hw]%andb_prop. apply negb_true_iff in Hc.
  rewrite Hc, IH by done. done.
Qed.

Lemma split_app_sep w x :
  spaceFree w →
  Js.splitSpace (w ++ String " " x) = w :: Js.splitSpace x.
Proof.
  unfold spaceFree, Js.splitSpace.
  induction w as [|c w IH]; [done|]. simpl.
  intros [Hc Hw]%andb_prop. apply negb_true_iff in Hc.
  rewrite Hc, IH by done. done.
Qed.

Lemma split_concat l :
  l ≠ [] → Forall spaceFree l → Js.splitSpace (String.concat " " l) = l.
Proof.
  induction l as [|w l IH]; [done|]. intros _ Hl.
  apply Forall_cons in Hl as [Hw Hl].
  rewrite concat_space_cons. destruct l as [|w' l].
  - simpl. rewrite append_empty_r. by apply split_spaceFree.
  - unfold sepJoin. rewrite split_app_sep by done. by rewrite IH.
Qed.

Lemma splitOn_whiteFree s : Forall whiteFree (Js.splitOn ws s).
Proof.
  induction s as [|c r IH]; [by repeat constructor|]. simpl.
  destruct (ws c) eqn:Hc; [by constructor|].
  destruct (Js.splitOn ws r) as [|w l]; simpl.
  - repeat constructor. unfold whiteFree. simpl. by rewrite Hc.
  - apply Forall_cons in IH as [Hw Hl]. constructor; [|done].
    unfold whiteFree in *. simpl. by rewrite Hc.
Qed.

Lemma words_whiteFree s : Forall whiteFree (Words.words s).
Proof.
  unfold Words.words. apply Forall_forall. intros w Hw.
  apply list_elem_of_filter in Hw as [_ Hw].
  by apply (proj1 (Forall_forall _ _) (splitOn_whiteFree s)).
Qed.

Lemma words_nonEmpty s : Forall nonEmpty (Words.words s).
Proof.
  unfold Words.words. apply Forall_forall. intros w Hw.
  by apply list_elem_of_filter in Hw as [? _].
Qed.

Lemma whiteFree_spaceFree w : whiteFree w → spaceFree w.
Proof.
  unfold whiteFree, spaceFree.
  induction w as [|c w IH]; [done|]. simpl.
  intros [Hc Hw]%andb_prop. rewrite IH by done.
  rewrite andb_true_r. apply negb_true_iff. apply negb_true_iff in Hc.
  unfold Js.isSpaceChar. destruct (Ascii.eqb_spec c " ") as [->|]; [|done].
  by vm_compute in Hc.
Qed.

(** What [compact.split(" ")] holds, in terms of the transcript's words. *)
Lemma tokens_words s :
  match Words.words s with
  | [] => Js.collapseWhiteSpace (Js.trim s) = EmptyString
  | _ =>
      Js.isEmpty (Js.collapseWhiteSpace (Js.trim s)) = false
      ∧ Js.splitSpace (Js.collapseWhiteSpace (Js.trim s)) = Words.words s
  end.
Proof.
  rewrite compact_words.
  pose proof (words_whiteFree s) as Hwf.
  pose proof (words_nonEmpty s) as Hne.
  destruct (Words.words s) as [|w l] eqn:Hw; [done|].
  split.
  - rewrite concat_space_cons.
    apply Forall_cons in Hne as [Hne _]. by destruct w.
  - apply split_concat; [done|].
    eapply Forall_impl; [exact Hwf|]. apply whiteFree_spaceFree.
Qed.

Lemma words_blank s : Words.blank s ↔ Words.words s = [].
Proof.
  unfold Words.blank.
  induction s as [|c r IH]; [done|]. simpl.
  destruct (ws c) eqn:Hc; simpl.
  - by rewrite words_ws.
  - rewrite words_char by done. done.
Qed.

End Tokens.

(** ** The short-utterance filter *)
Section ShortUtterance.

Local Arguments String.append !_ _ : simpl nomatch.

(** The filter, read off the words of the transcript. *)
Lemma shouldIgnore_words transcript :
  shouldIgnoreTranscriptForResponse transcript =
  match Words.words transcript with
  | [] => true
  | [w] =>
      let token := normalizeTranscriptWord w in
      (negb (Js.isEmpty token) && Js.has TRANSCRIPT_FILLER_WORDS token)
      || (negb (Js.isEmpty token) && (String.length token <=? 2)%nat
          && negb (Js.has TRANSCRIPT_SHORT_WORD_ALLOWLIST token))
      || (Js.isEmpty token && (String.length w <=? 2)%nat)
  | _ => false
  end.
Proof.
  unfold shouldIgnoreTranscriptForResponse.
  pose proof (tokens_words transcript) as Ht.
  pose proof (compact_words transcript) as Hc.
  destruct (Words.words transcript) as [|w [|w' l]].
  - by rewrite Ht.
  - destruct Ht as [-> ->]. rewrite Hc. simpl.
    destruct (negb _ && Js.has TRANSCRIPT_FILLER_WORDS _); [done|].
    destruct (negb _ && _ && negb _); [done|].
    by destruct (Js.isEmpty _ && _).
  - destruct Ht as [-> ->]. done.
Qed.

Lemma has_true l w : Js.has l w = true ↔ w ∈ l.
Proof. unfold Js.has. apply bool_decide_eq_true. Qed.

Lemma has_false l w : Js.has l w = false ↔ w ∉ l.
Proof. unfold Js.has. apply bool_decide_eq_false. Qed.

Lemma isEmpty_true s : Js.isEmpty s = true ↔ s = EmptyString.
Proof. by destruct s. Qed.

Lemma isEmpty_length s : Js.isEmpty s = negb (0 <? String.length s)%nat.
Proof. by destruct s. Qed.

End ShortUtterance.



(** C4, as stated, fails: the transcript "..." is a single token whose
    normalized form is empty (length 0, not in the allowlist), and it is not
    filtered. *)
Lemma short_token_rule_counterexample :
  ¬ (∀ transcript w,
        Words.words transcript = [w] →
        (String.length (normalizeTranscriptWord w) <= 2)%nat →
        normalizeTranscriptWord w ∉ TRANSCRIPT_SHORT_WORD_ALLOWLIST →
        shouldIgnoreTranscriptForResponse transcript = true).
Proof.
  intros H. specialize (H "..." "..." eq_refl).
  assert (shouldIgnoreTranscriptForResponse "..." = true) as Hf.
  { apply H; [vm_compute; lia|]. by apply has_false. }
  vm_compute in Hf. discriminate.
Qed.

(** C4, amended: [shouldIgnoreTranscriptForResponse] returns [true] exactly
    for a transcript that is empty or white space only, or a single token
    whose normalized form is a filler word, or has length 1 or 2 and is not
    in the short-acknowledgement allowlist, or is empty while the token
    itself has at most 2 characters.  The examples of the specification
    come out as stated. *)
Theorem short_utterance_filter_characterised :
  (∀ transcript,
     shouldIgnoreTranscriptForResponse transcript = true ↔
     Words.blank transcript
     ∨ ∃ w, Words.words transcript = [w]
          ∧ (normalizeTranscriptWord w ∈ TRANSCRIPT_FILLER_WORDS
             ∨ ((1 <= String.length (normalizeTranscriptWord w) <= 2)%nat
                ∧ normalizeTranscriptWord w ∉ TRANSCRIPT_SHORT_WORD_ALLOWLIST)
             ∨ (normalizeTranscriptWord w = EmptyString
                ∧ (String.length w <= 2)%nat)))
  ∧ shouldIgnoreTranscriptForResponse "" = true
  ∧ shouldIgnoreTranscriptForResponse "  " = true
  ∧ shouldIgnoreTranscriptForResponse "um" = true
  ∧ shouldIgnoreTranscriptForResponse "Uh" = true
  ∧ shouldIgnoreTranscriptForResponse "a" = true
  ∧ shouldIgnoreTranscriptForResponse ".." = true
  ∧ shouldIgnoreTranscriptForResponse "ok" = false
  ∧ shouldIgnoreTranscriptForResponse "yes" = false
  ∧ shouldIgnoreTranscriptForResponse "what is kwanzaa" = false.
Proof.
  split; [|by vm_compute].
  intros transcript. rewrite shouldIgnore_words, words_blank.
  destruct (Words.words transcript) as [|w [|w' l]].
  - split; [by left|done].
  - cbv zeta.
    rewrite !orb_true_iff, !andb_true_iff, !negb_true_iff.
    rewrite has_true, has_false, isEmpty_true, !Nat.leb_le.
    split.
    + intros Hc. right. exists w. split; [done|].
      destruct Hc as [[[_ Hf]|[[Hne Hl] Ha]]|[He Hl]].
      * by left.
      * right; left. split; [|done].
        destruct (normalizeTranscriptWord w); [done|simpl in *; lia].
      * by right; right.
    + intros [Hb|(w0 & [= <-] & Hc)]; [done|].
      destruct Hc as [Hf|[[Hl Ha]|[He Hl]]].
      * left; left. split; [|done].
        destruct (normalizeTranscriptWord w) eqn:E; [|done].
        exfalso.
        assert (Js.has TRANSCRIPT_FILLER_WORDS EmptyString = false) as Hn
          by (vm_compute; reflexivity).
        by apply has_false in Hn.
      * left; right. split; [|done]. split; [|lia].
        destruct (normalizeTranscriptWord w); [simpl in Hl; lia|done].
      * by right.
  - split; [done|]. intros [Hb|(w0 & Hw & _)]; done.
Qed.

(** ** The topic guard *)
Section TopicGuard.

Lemma insertAll_firstOccurrences (l pre seen : list string) :
  (∀ x, x ∈ seen ↔ x ∈ pre) →
  Js.insertAll seen l =
  concat (imap (fun i x =>
                  if bool_decide (x ∈ take (length pre + i) (pre ++ l))
                  then [] else [x]) l).
Proof.
  revert pre seen. induction l as [|x r IH]; intros pre seen Hseen; [done|].
  rewrite imap_cons. simpl concat.
  replace (length pre + 0)%nat with (length pre) by lia.
  rewrite take_app_length. simpl Js.insertAll. unfold Js.has at 1.
  assert (∀ i,
    take (length pre + S i) (pre ++ x :: r)
    = take (length (pre ++ [x]) + i) ((pre ++ [x]) ++ r)) as Htake.
  { intros i. rewrite length_app, <- app_assoc. simpl. f_equal. lia. }
  assert (concat (imap ((fun i y =>
              if bool_decide (y ∈ take (length pre + i) (pre ++ x :: r))
              then [] else [y]) ∘ S) r)
          = concat (imap (fun i y =>
              if bool_decide (y ∈ take (length (pre ++ [x]) + i)
                                        ((pre ++ [x]) ++ r))
              then [] else [y]) r)) as Hrest.
  { f_equal. apply imap_ext. intros i y _. simpl. by rewrite (Htake i). }
  rewrite Hrest.
  destruct (bool_decide_reflect (x ∈ seen)) as [Hin|Hnin].
  - rewrite bool_decide_eq_true_2 by (by apply Hseen). simpl.
    apply IH. intros y. rewrite Hseen, elem_of_app, list_elem_of_singleton.
    split; [by left|]. intros [?| ->]; [done|]. by apply Hseen.
  - rewrite bool_decide_eq_false_2 by (by rewrite <- Hseen). simpl. f_equal.
    apply IH. intros y.
    rewrite elem_of_cons, elem_of_app, list_elem_of_singleton, Hseen.
    tauto.
Qed.

Lemma arrayFromSet_firstOccurrences l :
  Js.arrayFromSet l = Words.firstOccurrences l.
Proof.
  unfold Js.arrayFromSet, Words.firstOccurrences.
  by rewrite (insertAll_firstOccurrences l [] []).
Qed.

Lemma Qle_bool_inject_Z a b :
  Qle_bool (inject_Z a) (inject_Z b) = (a <=? b)%Z.
Proof. unfold Qle_bool. simpl. by rewrite !Z.mul_1_r. Qed.

Lemma lengthLt_maxOne (n : nat) (z : Z) :
  lengthLt n (mathMaxOne (Finite (inject_Z z)))
  = (Z.of_nat n <? Z.max 1 z)%Z.
Proof.
  unfold mathMaxOne.
  change 1%Q with (inject_Z 1). rewrite Qle_bool_inject_Z.
  destruct (Z.leb_spec 1 z); unfold lengthLt; rewrite Qle_bool_inject_Z.
  - rewrite Z.max_r by lia.
    destruct (Z.leb_spec z (Z.of_nat n));
      destruct (Z.ltb_spec (Z.of_nat n) z); simpl; lia || done.
  - rewrite Z.max_l by lia.
    destruct (Z.leb_spec 1 (Z.of_nat n));
      destruct (Z.ltb_spec (Z.of_nat n) 1); simpl; lia || done.
Qed.

(** The threshold that the guard compares the keyword count with. *)
Lemma minKeywords_threshold (n : nat) (q : Q) :
  lengthLt n (mathMaxOne (mathFloor (orOne (Finite q))))
  = (Z.of_nat n <? Z.max 1 (Qfloor q))%Z.
Proof.
  unfold orOne. destruct (Qeq_bool q 0) eqn:Hq; unfold mathFloor.
  - apply Qeq_bool_eq in Hq. rewrite (Qfloor_comp _ _ Hq).
    by rewrite lengthLt_maxOne.
  - apply lengthLt_maxOne.
Qed.

Lemma keep_filters (l : list string) :
  filter (fun word => Js.has SINGLE_TOPIC_STOP_WORDS word = false)
    (filter (fun word => Js.isAllDigits word = false)
       (filter (fun word => (3 <= String.length word)%nat) l))
  = filter keptKeyword l.
Proof.
  induction l as [|w l IH]; [done|].
  rewrite (filter_cons keptKeyword), (filter_cons (fun word => (3 <= _)%nat)).
  destruct (decide (3 <= String.length w)%nat) as [Hlen|Hlen].
  - rewrite (filter_cons (fun word => Js.isAllDigits word = false)).
    assert (Js.isAllDigits w = Js.allChars Js.isDigit w) as Hd.
    { unfold Js.isAllDigits. destruct w; [simpl in Hlen; lia|done]. }
    rewrite Hd.
    destruct (decide (Js.allChars Js.isDigit w = false)) as [Hdig|Hdig].
    + rewrite filter_cons.
      destruct (decide (Js.has SINGLE_TOPIC_STOP_WORDS w = false)) as [Hs|Hs].
      * apply has_false in Hs.
        rewrite decide_True by (by unfold keptKeyword). by rewrite IH.
      * rewrite decide_False; [done|]. rewrite has_false in Hs.
        unfold keptKeyword. tauto.
    + rewrite decide_False; [done|]. unfold keptKeyword. tauto.
  - rewrite decide_False; [done|]. unfold keptKeyword. tauto.
Qed.

Lemma extractTopicKeywords_words transcript :
  extractTopicKeywords transcript
  = Words.firstOccurrences
      (filter keptKeyword (map normalizeTopicKeyword (Words.words transcript))).
Proof.
  unfold extractTopicKeywords.
  pose proof (tokens_words transcript) as Ht.
  destruct (Words.words transcript) as [|w l] eqn:Hw.
  - by rewrite Ht.
  - destruct Ht as [-> ->].
    by rewrite keep_filters, arrayFromSet_firstOccurrences.
Qed.

End TopicGuard.

(** ** Normalization of a word *)
Section Normalization.

Import Words.
Local Arguments String.append !_ _ : simpl nomatch.
Local Abbreviation nonAlnum := (fun c : ascii => negb (Js.isLowerAlnum c)).

Lemma lowerChar_lowerCaseOf c : Js.lowerChar c = lowerCaseOf c.
Proof. destruct c as [[] [] [] [] [] [] [] []]; vm_compute; reflexivity. Qed.

Lemma toLowerCase_lowerCased s : Js.toLowerCase s = lowerCased s.
Proof.
  unfold lowerCased. induction s as [|c r IH]; [done|].
  simpl. by rewrite lowerChar_lowerCaseOf, IH.
Qed.

Lemma alphanumeric_isLowerAlnum c : alphanumeric c ↔ Js.isLowerAlnum c = true.
Proof.
  assert (bool_decide (alphanumeric c) = Js.isLowerAlnum c) as <-
    by (destruct c as [[] [] [] [] [] [] [] []]; vm_compute; reflexivity).
  symmetry. apply bool_decide_eq_true.
Qed.

Lemma nonAlnum_alphanumeric c : nonAlnum c = false → alphanumeric c.
Proof. intros Hc%negb_false_iff. by apply alphanumeric_isLowerAlnum. Qed.

Lemma alphanumeric_nonAlnum c : alphanumeric c → nonAlnum c = false.
Proof. intros Hc. apply negb_false_iff. by apply alphanumeric_isLowerAlnum. Qed.

Lemma digit_isDigit c : digit c ↔ Js.isDigit c = true.
Proof.
  assert (bool_decide (digit c) = Js.isDigit c) as <-
    by (destruct c as [[] [] [] [] [] [] [] []]; vm_compute; reflexivity).
  symmetry. apply bool_decide_eq_true.
Qed.

Lemma allChars_digits w :
  Js.allChars Js.isDigit w = true ↔ Forall digit (list_ascii_of_string w).
Proof.
  induction w as [|c r IH]; simpl.
  - split; [constructor|done].
  - rewrite Forall_cons, andb_true_iff, IH, digit_isDigit. done.
Qed.

Lemma allChars_nonAlnum s :
  Js.allChars nonAlnum s = true ↔ noAlphanumeric s.
Proof.
  unfold noAlphanumeric. induction s as [|c r IH]; simpl.
  - split; [constructor|done].
  - rewrite Forall_cons, andb_true_iff, IH, alphanumeric_isLowerAlnum.
    rewrite negb_true_iff. destruct (Js.isLowerAlnum c); intuition congruence.
Qed.

Lemma dropStart_split p s :
  ∃ pre, s = (pre ++ Js.dropStart p s)%string ∧ Js.allChars p pre = true.
Proof.
  induction s as [|c r (pre & Hr & Hpre)]; [by exists EmptyString|].
  simpl. destruct (p c) eqn:Hc; [|by exists EmptyString].
  exists (String c pre). simpl. rewrite Hc, Hpre. by rewrite <- Hr.
Qed.

Lemma dropEnd_split p s :
  ∃ post, s = (Js.dropEnd p s ++ post)%string ∧ Js.allChars p post = true.
Proof.
  induction s as [|c r (post & Hr & Hpost)]; [by exists EmptyString|].
  simpl. destruct (p c && Js.isEmpty (Js.dropEnd p r)) eqn:Hc.
  - apply andb_prop in Hc as [Hc He].
    exists (String c r). simpl. split; [done|]. rewrite Hc. simpl.
    destruct (Js.dropEnd p r); [|done]. simpl in Hr. by rewrite Hr.
  - exists post. simpl. by rewrite <- Hr.
Qed.

Lemma dropEnd_last p s c :
  last (list_ascii_of_string (Js.dropEnd p s)) = Some c → p c = false.
Proof.
  induction s as [|a r IH]; [done|]. simpl.
  destruct (p a && Js.isEmpty (Js.dropEnd p r)) eqn:Ha; [done|].
  destruct (Js.dropEnd p r) as [|b r'] eqn:Hr.
  - simpl. intros [= <-]. simpl in Ha. by rewrite andb_true_r in Ha.
  - exact IH.
Qed.

Lemma dropStart_app_all p pre x :
  Js.allChars p pre = true →
  Js.dropStart p (pre ++ x) = Js.dropStart p x.
Proof.
  induction pre as [|c r IH]; [done|]. simpl.
  intros [Hc Hr]%andb_prop. rewrite Hc. by apply IH.
Qed.

Lemma dropStart_all p s :
  Js.allChars p s = true → Js.dropStart p s = EmptyString.
Proof.
  induction s as [|c r IH]; [done|]. simpl.
  intros [Hc Hr]%andb_prop. rewrite Hc. by apply IH.
Qed.

Lemma dropEnd_all p s :
  Js.allChars p s = true → Js.dropEnd p s = EmptyString.
Proof.
  induction s as [|c r IH]; [done|]. simpl.
  intros [Hc Hr]%andb_prop. by rewrite IH, Hc.
Qed.

Lemma dropEnd_app_all p x post :
  Js.allChars p post = true →
  Js.dropEnd p (x ++ post) = Js.dropEnd p x.
Proof.
  intros Hpost. induction x as [|c r IH]; simpl.
  - by apply dropEnd_all.
  - by rewrite IH.
Qed.

Lemma dropEnd_kept p k :
  (∀ c, last (list_ascii_of_string k) = Some c → p c = false) →
  Js.dropEnd p k = k.
Proof.
  induction k as [|a r IH]; [done|]. simpl. intros Hlast.
  destruct r as [|b r'].
  - simpl. rewrite (Hlast a) by done. done.
  - rewrite IH by (intros c Hc; by apply Hlast).
    simpl. by rewrite andb_false_r.
Qed.

(** The stripping of the code is the stripping of the specification. *)
Lemma strip_stripped s k : Js.stripNonAlnum s = k ↔ stripped s k.
Proof.
  unfold Js.stripNonAlnum. split.
  - intros <-.
    destruct (dropStart_split nonAlnum s) as (pre & Hs & Hpre).
    destruct (dropEnd_split nonAlnum (Js.dropStart nonAlnum s))
      as (post & Hd & Hpost).
    exists pre, post. split; [by rewrite <- Hd|].
    split; [by apply allChars_nonAlnum|].
    split; [by apply allChars_nonAlnum|]. split.
    + destruct (dropStart_head nonAlnum s) as [->|(c & r & -> & Hc)];
        [done|].
      simpl. rewrite Hc. simpl. intros c' [= <-].
      by apply nonAlnum_alphanumeric.
    + intros c Hc. apply nonAlnum_alphanumeric.
      by apply (dropEnd_last nonAlnum (Js.dropStart nonAlnum s)).
  - intros (pre & post & -> & Hpre & Hpost & Hhead & Hlast).
    apply allChars_nonAlnum in Hpre, Hpost.
    rewrite dropStart_app_all by done.
    destruct k as [|c r].
    + simpl. by rewrite dropStart_all.
    + assert (nonAlnum c = false) as Hc
        by (by apply alphanumeric_nonAlnum, Hhead).
      replace (Js.dropStart nonAlnum (String c r ++ post))
        with (String c r ++ post)%string by (simpl; by rewrite Hc).
      rewrite dropEnd_app_all by done.
      apply dropEnd_kept. intros c' Hc'.
      by apply alphanumeric_nonAlnum, Hlast.
Qed.

End Normalization.

(** C7: the keywords of a transcript are its white-space separated words,
    normalized, those kept that have at least three characters, are not
    digits only and are no stop word, each at its first occurrence only.
    Normalizing a word is lower-casing it (A to Z become a to z) and
    stripping it of its leading and trailing characters outside a-z and
    0-9: "(Hello!)" gives hello, "Re-Order," gives re-order;
    "what is the code 483920 for my account" gives code, account, and so
    does "What is the CODE, 483920, for My Account?".  With fewer keywords
    than max(1, floor(minKeywords)) the guard allows without establishing
    an anchor; otherwise with an empty anchor it allows and establishes;
    otherwise it allows exactly when some keyword is in the anchor, and
    the overlap is the keywords that are in the anchor. *)
Theorem topic_guard_evaluation :
  (∀ word, normalizeTopicKeyword word = Js.stripNonAlnum (Js.toLowerCase word))
  ∧ (∀ word, Js.toLowerCase word = Words.lowerCased word)
  ∧ Js.toLowerCase "ABCDEFGHIJKLMNOPQRSTUVWXYZ" = "abcdefghijklmnopqrstuvwxyz"
  ∧ (∀ word k,
       normalizeTopicKeyword word = k
       ↔ Words.stripped (Words.lowerCased word) k)
  ∧ normalizeTopicKeyword "(Hello!)" = "hello"
  ∧ normalizeTopicKeyword "Re-Order," = "re-order"
  ∧ normalizeTopicKeyword "?!" = EmptyString
  ∧ (∀ word,
       keptKeyword word
       ↔ (3 <= String.length word)%nat
         ∧ ¬ Forall Words.digit (list_ascii_of_string word)
         ∧ word ∉ SINGLE_TOPIC_STOP_WORDS)
  ∧ (∀ transcript,
       extractTopicKeywords transcript
       = Words.firstOccurrences
           (filter keptKeyword
              (map normalizeTopicKeyword (Words.words transcript))))
  ∧ extractTopicKeywords "what is the code 483920 for my account"
    = ["code"; "account"]
  ∧ extractTopicKeywords "What is the CODE, 483920, for My Account?"
    = ["code"; "account"]
  ∧ (∀ transcript anchorKeywords (minKeywords : Q),
       let keywords := extractTopicKeywords transcript in
       let d := evaluateSingleTopicTranscript transcript anchorKeywords
                  (Finite minKeywords) in
       transcriptKeywords d = keywords
       ∧ if decide (Z.of_nat (length keywords) < Z.max 1 (Qfloor minKeywords))%Z
         then allow d = true ∧ establishAnchor d = false
         else if decide (anchorKeywords = [])
         then allow d = true ∧ establishAnchor d = true
         else establishAnchor d = false
              ∧ overlapKeywords d
                = filter (fun k => k ∈ anchorKeywords) keywords
              ∧ (allow d = true ↔ ∃ k, k ∈ keywords ∧ k ∈ anchorKeywords)).
Proof.
  split; [done|]. split; [apply toLowerCase_lowerCased|].
  split; [by vm_compute|].
  split.
  { intros word k. unfold normalizeTopicKeyword.
    rewrite toLowerCase_lowerCased. apply strip_stripped. }
  split; [by vm_compute|]. split; [by vm_compute|]. split; [by vm_compute|].
  split.
  { intros word. unfold keptKeyword. rewrite <- allChars_digits.
    destruct (Js.allChars Js.isDigit word); intuition congruence. }
  split; [apply extractTopicKeywords_words|].
  split; [by vm_compute|]. split; [by vm_compute|].
  intros transcript anchorKeywords minKeywords keywords d. subst d.
  unfold evaluateSingleTopicTranscript. fold keywords.
  rewrite minKeywords_threshold.
  destruct (Z.ltb_spec (Z.of_nat (length keywords))
              (Z.max 1 (Qfloor minKeywords))) as [Hlt|Hge].
  { rewrite decide_True by done. done. }
  rewrite decide_False by lia.
  destruct anchorKeywords as [|a anchor].
  { rewrite decide_True by done. done. }
  rewrite decide_False by done. cbn [length Nat.eqb].
  cbn [transcriptKeywords establishAnchor overlapKeywords allow].
  assert (filter (fun keyword => Js.has (a :: anchor) keyword = true) keywords
          = filter (fun k => k ∈ a :: anchor) keywords) as Hov.
  { apply list_filter_iff. intros k. apply has_true. }
  rewrite Hov. clear Hov. repeat split; try done.
  - intros Hpos. apply Nat.ltb_lt in Hpos.
    destruct (filter _ keywords) as [|k l] eqn:Hf; [simpl in Hpos; lia|].
    assert (k ∈ filter (fun k => k ∈ a :: anchor) keywords) as Hk
      by (rewrite Hf; left).
    apply list_elem_of_filter in Hk as [? ?]. eauto.
  - intros (k & Hk & Hin). apply Nat.ltb_lt.
    assert (k ∈ filter (fun k => k ∈ a :: anchor) keywords) as Hf
      by (by apply list_elem_of_filter).
    destruct (filter _ keywords); [by apply elem_of_nil in Hf|simpl; lia].
Qed.

(** ** The response cue controller *)
Section CueController.

Import ResponseCues.

Lemma run_app c ops1 ops2 :
  run c (ops1 ++ ops2)
  = let '(c1, out1) := run c ops1 in
    let '(c2, out2) := run c1 ops2 in
    (c2, out1 ++ out2).
Proof.
  revert c. induction ops1 as [|o ops1 IH]; intros c; simpl.
  - by destruct (run c ops2).
  - destruct (step c o) as [c1 out1]. rewrite IH.
    destruct (run c1 ops1) as [c2 out2].
    destruct (run c2 ops2) as [c3 out3]. by rewrite app_assoc.
Qed.

Lemma step_settled c o :
  settled c = true →
  settled (fst (step c o)) = true ∧ snd (step c o) = [].
Proof.
  intros Hs. destruct o; simpl.
  - unfold maybeSpeakAcknowledgement. rewrite Hs, !orb_true_r. done.
  - unfold scheduleProgressCue. rewrite Hs, orb_true_r. simpl. done.
  - unfold settle. by destruct (progressTimer c).
  - unfold timerElapses, progressCallback. rewrite Hs.
    by destruct (bool_decide _).
Qed.

Lemma run_settled c ops :
  settled c = true →
  settled (fst (run c ops)) = true ∧ snd (run c ops) = [].
Proof.
  revert c. induction ops as [|o ops IH]; intros c Hs; [done|].
  simpl. destruct (step_settled c o Hs) as [Hs1 Hout1].
  destruct (step c o) as [c1 out1]. simpl in *.
  destruct (IH c1 Hs1) as [Hs2 Hout2].
  destruct (run c1 ops) as [c2 out2]. simpl in *. by subst.
Qed.

Lemma settle_settled c : settled (settle c) = true.
Proof. unfold settle. by destruct (progressTimer c). Qed.

Lemma clearTimeoutImpl_single h : clearTimeoutImpl h [h] = [].
Proof.
  unfold clearTimeoutImpl. rewrite filter_cons. by rewrite decide_False by tauto.
Qed.

Lemma step_timersHeld c o : timersHeld c → timersHeld (fst (step c o)).
Proof.
  intros Hc. destruct o; simpl.
  - unfold maybeSpeakAcknowledgement. by destruct (_ || _).
  - unfold scheduleProgressCue.
    destruct (_ || bool_decide _) eqn:Hg; [done|].
    apply orb_false_iff in Hg as [_ Hg]. apply bool_decide_eq_false in Hg.
    right. exists (nextTimer c). simpl. split; [done|].
    destruct Hc as [->|(h & Hh & _)]; [done|].
    exfalso. apply Hg. rewrite Hh. eauto.
  - left. unfold settle.
    destruct Hc as [Ht|(h & Hh & Ht)].
    + destruct (progressTimer c); simpl; [|done]. by rewrite Ht.
    + rewrite Hh. simpl. rewrite Ht. apply clearTimeoutImpl_single.
  - unfold timerElapses. destruct (bool_decide_reflect (h ∈ timers c)) as [Hin|]; [|done].
    left. simpl. destruct Hc as [Ht|(h' & Hh & Ht)].
    + rewrite Ht in Hin. by apply elem_of_nil in Hin.
    + rewrite Ht in *. apply list_elem_of_singleton in Hin as ->.
      apply clearTimeoutImpl_single.
Qed.

Lemma run_timersHeld c ops : timersHeld c → timersHeld (fst (run c ops)).
Proof.
  revert c. induction ops as [|o ops IH]; intros c Hc; [done|].
  simpl. pose proof (step_timersHeld c o Hc) as H1.
  destruct (step c o) as [c1 out1]. simpl in *.
  pose proof (IH c1 H1) as H2.
  by destruct (run c1 ops) as [c2 out2].
Qed.

Lemma settle_clears c : timersHeld c → timers (settle c) = [].
Proof.
  intros Hc. pose proof (step_timersHeld c OpSettle Hc) as Hs. simpl in Hs.
  destruct Hs as [Hs|(h & Hh & _)]; [done|].
  unfold settle in Hh. by destruct (progressTimer c).
Qed.

Lemma step_plan c o : plan (fst (step c o)) = plan c.
Proof.
  destruct o; simpl.
  - unfold maybeSpeakAcknowledgement. by destruct (_ || _).
  - unfold scheduleProgressCue. by destruct (_ || _).
  - unfold settle. by destruct (progressTimer c).
  - unfold timerElapses. by destruct (bool_decide _).
Qed.

Lemma ackCount_app out1 out2 :
  ackCount (out1 ++ out2) = (ackCount out1 + ackCount out2)%nat.
Proof. unfold ackCount. by rewrite filter_app, length_app. Qed.

Lemma run_ackCount c ops :
  settled c = false →
  ackCount (snd (run c ops))
  = if enabled (plan c) && truthy (acknowledgementText (plan c))
    then acknowledgementCalls ops else 0%nat.
Proof.
  revert c. induction ops as [|o ops IH]; intros c Hs.
  { simpl. by destruct (_ && _). }
  simpl run. pose proof (step_plan c o) as Hp.
  destruct o; simpl in *.
  - unfold maybeSpeakAcknowledgement in *. rewrite Hs, orb_false_r in *.
    destruct (enabled (plan c)) eqn:He;
      destruct (truthy (acknowledgementText (plan c))) eqn:Ha; simpl in *.
    + specialize (IH c Hs). rewrite He, Ha in IH. simpl in IH.
      destruct (run c ops) as [c2 out2]. simpl in *.
      rewrite <- IH. unfold ackCount. by rewrite filter_cons.
    + specialize (IH c Hs). rewrite He, Ha in IH. simpl in IH.
      by destruct (run c ops) as [c2 out2].
    + specialize (IH c Hs). rewrite He in IH. simpl in IH.
      by destruct (run c ops) as [c2 out2].
    + specialize (IH c Hs). rewrite He in IH. simpl in IH.
      by destruct (run c ops) as [c2 out2].
  - assert (settled (scheduleProgressCue c) = false) as Hs'.
    { unfold scheduleProgressCue. by destruct (_ || _). }
    specialize (IH _ Hs'). rewrite Hp in IH.
    by destruct (run (scheduleProgressCue c) ops) as [c2 out2].
  - pose proof (run_settled (settle c) ops (settle_settled c)) as [_ Hout].
    destruct (run (settle c) ops) as [c2 out2]. simpl in *. subst.
    by destruct (_ && _).
  - unfold timerElapses, progressCallback in *. rewrite Hs in *.
    destruct (bool_decide (h ∈ timers c)).
    + simpl in Hp.
      match goal with |- context [run ?c1 ops] => specialize (IH c1 eq_refl) end.
      simpl in IH.
      destruct (run _ ops) as [c2 out2]. simpl in *.
      rewrite ackCount_app, IH.
      destruct (truthy (progressText (plan c))); simpl;
        by destruct (_ && _).
    + specialize (IH c Hs). by destruct (run c ops) as [c2 out2].
Qed.

End CueController.

(** C5, as stated, fails: a controller does not remember that it has
    spoken; two calls of [maybeSpeakAcknowledgement] on an enabled,
    unsettled controller speak the acknowledgement twice. *)
Lemma acknowledgement_once_counterexample :
  ¬ (∀ plan ops,
       (ResponseCues.ackCount
          (snd (ResponseCues.run
                  (ResponseCues.createVoiceCallResponseCueController plan) ops))
        <= 1)%nat).
Proof.
  intros H.
  specialize (H {| ResponseCues.enabled := true;
                   ResponseCues.acknowledgementText := Some "Got it, checking now.";
                   ResponseCues.progressText := Some "Still working on that.";
                   ResponseCues.progressDelayMs := 1500%N |}
                [ResponseCues.OpMaybeSpeakAcknowledgement;
                 ResponseCues.OpMaybeSpeakAcknowledgement]).
  vm_compute in H. lia.
Qed.

(** C5, amended: one call of [maybeSpeakAcknowledgement] speaks the
    acknowledgement text once, awaited, when the plan is enabled, the text
    is neither null nor empty and [settle] has not been called, and does
    nothing otherwise; it never changes the controller.  Over the life of
    an instance the acknowledgement is spoken once for every call made
    before the first [settle]. *)
Theorem acknowledgement_spoken_per_call :
  (∀ c : ResponseCues.Controller,
     if ResponseCues.enabled (ResponseCues.plan c)
        && ResponseCues.truthy (ResponseCues.acknowledgementText (ResponseCues.plan c))
        && negb (ResponseCues.settled c)
     then ∃ t, ResponseCues.acknowledgementText (ResponseCues.plan c) = Some t
             ∧ t ≠ EmptyString
             ∧ ResponseCues.maybeSpeakAcknowledgement c
               = (c, [ {| ResponseCues.kind := ResponseCues.acknowledgement;
                          ResponseCues.text := t;
                          ResponseCues.awaited := true |} ])
     else ResponseCues.maybeSpeakAcknowledgement c = (c, []))
  ∧ (∀ plan ops,
       ResponseCues.ackCount
         (snd (ResponseCues.run
                 (ResponseCues.createVoiceCallResponseCueController plan) ops))
       = if ResponseCues.enabled plan
            && ResponseCues.truthy (ResponseCues.acknowledgementText plan)
         then ResponseCues.acknowledgementCalls ops else 0%nat).
Proof.
  split.
  - intros c. unfold ResponseCues.maybeSpeakAcknowledgement.
    destruct (ResponseCues.enabled (ResponseCues.plan c)); simpl; [|done].
    destruct (ResponseCues.acknowledgementText (ResponseCues.plan c)) as [t|];
      simpl; [|done].
    destruct t as [|a t]; simpl; [done|].
    destruct (ResponseCues.settled c); simpl; [done|]. eauto.
  - intros plan ops.
    by rewrite run_ackCount.
Qed.

(** C8: [settle] is idempotent; it cancels the armed progress timer, so
    that no timer of the instance stays set; once [settle] has been called
    the instance stays settled and no operation, and no elapsing timer,
    speaks any cue; in particular [scheduleProgressCue] followed by [settle]
    never speaks the progress cue.  [scheduleProgressCue] after [settle],
    or while the controller holds a timer, changes nothing. *)
Theorem settle_suppresses_cues (c : ResponseCues.Controller)
    (plan : ResponseCues.VoiceCallResponseCuePlan) (ops later : list ResponseCues.Op) :
  let created := ResponseCues.createVoiceCallResponseCueController plan in
  ResponseCues.settle (ResponseCues.settle c) = ResponseCues.settle c
  ∧ ResponseCues.progressTimer (ResponseCues.settle c) = None
  ∧ ResponseCues.timers
      (ResponseCues.settle (fst (ResponseCues.run created ops))) = []
  ∧ ResponseCues.scheduleProgressCue (ResponseCues.settle c)
    = ResponseCues.settle c
  ∧ (is_Some (ResponseCues.progressTimer c) →
     ResponseCues.scheduleProgressCue c = c)
  ∧ snd (ResponseCues.run (ResponseCues.settle c) later) = []
  ∧ ResponseCues.settled (fst (ResponseCues.run (ResponseCues.settle c) later))
    = true
  ∧ snd (ResponseCues.run created
           (ResponseCues.OpScheduleProgressCue :: ResponseCues.OpSettle :: later))
    = []
  ∧ snd (ResponseCues.run created (ops ++ ResponseCues.OpSettle :: later))
    = snd (ResponseCues.run created ops).
Proof.
  intros created.
  pose proof (run_settled (ResponseCues.settle c) later (settle_settled c))
    as [Hset Hout].
  split; [|split; [|split; [|split; [|split; [|split; [|split; [|split]]]]]]].
  - unfold ResponseCues.settle. by destruct (ResponseCues.progressTimer c).
  - unfold ResponseCues.settle. by destruct (ResponseCues.progressTimer c).
  - apply settle_clears. apply run_timersHeld. by left.
  - unfold ResponseCues.scheduleProgressCue.
    rewrite settle_settled. by rewrite orb_true_r.
  - intros Harmed. unfold ResponseCues.scheduleProgressCue.
    rewrite (bool_decide_eq_true_2 _ Harmed). by rewrite orb_true_r.
  - done.
  - done.
  - simpl ResponseCues.run.
    pose proof (run_settled
      (ResponseCues.settle (ResponseCues.scheduleProgressCue created)) later
      (settle_settled _)) as [_ Hout'].
    destruct (ResponseCues.run
                (ResponseCues.settle (ResponseCues.scheduleProgressCue created))
                later) as [c2 out2].
    simpl in *. by subst.
  - rewrite run_app. destruct (ResponseCues.run created ops) as [c1 out1].
    simpl ResponseCues.run.
    pose proof (run_settled (ResponseCues.settle c1) later (settle_settled _))
      as [_ Hout'].
    destruct (ResponseCues.run (ResponseCues.settle c1) later) as [c2 out2].
    simpl in *. subst. by rewrite app_nil_r.
Qed.

Lemma settle_suppresses_cues_witness :
  let plan := {| ResponseCues.enabled := true;
                 ResponseCues.acknowledgementText := Some "Got it, checking now.";
                 ResponseCues.progressText := Some "Still working on that.";
                 ResponseCues.progressDelayMs := 1500%N |} in
  let armed := ResponseCues.scheduleProgressCue
                 (ResponseCues.createVoiceCallResponseCueController plan) in
  is_Some (ResponseCues.progressTimer armed)
  ∧ ResponseCues.scheduleProgressCue armed = armed.
Proof.
  intros plan armed.
  assert (is_Some (ResponseCues.progressTimer armed)) as Harmed
    by (vm_compute; eauto).
  split; [exact Harmed|].
  exact (proj1 (proj2 (proj2 (proj2 (proj2
    (settle_suppresses_cues armed plan [] [])))) ) Harmed).
Defined.

(** ** The anchor of the single-topic state *)

(** C6, evaluated: an anchor established with sixteen keywords grows to
    seventeen with the next allowed utterance that brings a new keyword:
    [mergeTopicKeywords] tests the limit only after it has pushed. *)
Lemma anchor_exceeds_limit :
  let config :=
    {| Webhook.singleTopic :=
         Some {| Webhook.singleTopicEnabled := true;
                 Webhook.minKeywords := Finite 2;
                 Webhook.warningMessage := None;
                 Webhook.endCallOnDrift := false;
                 Webhook.maxDriftCount := 3 |};
       Webhook.responseCues := None;
       Webhook.coreConfig := true |} in
  let fine := {| Webhook.success := true; Webhook.commandError := None |} in
  let first :=
    Webhook.shouldAutoRespondToTranscript config fine fine Webhook.newServer
      "call-1"
      "alpha bravo charlie delta echo foxtrot golf hotel india juliet kilo lima mike november oscar papa" in
  let second :=
    Webhook.shouldAutoRespondToTranscript config fine fine first.1.1
      "call-1" "alpha quebec" in
  first.2 = true
  ∧ second.2 = true
  ∧ (length ∘ Webhook.anchorKeywords)
      <$> Webhook.singleTopicStates first.1.1 !! "call-1" = Some 16%nat
  ∧ (length ∘ Webhook.anchorKeywords)
      <$> Webhook.singleTopicStates second.1.1 !! "call-1" = Some 17%nat
  ∧ (SINGLE_TOPIC_ANCHOR_KEYWORD_LIMIT < 17)%nat.
Proof. vm_compute. repeat split; lia. Qed.

(** What [mergeTopicKeywords] does guarantee: the anchor is kept as a
    prefix, and the result has at most sixteen keywords or one more than
    the anchor had. *)
Lemma mergeLoop_length merged seen keywords :
  (length (mergeLoop merged seen keywords)
   <= Nat.max SINGLE_TOPIC_ANCHOR_KEYWORD_LIMIT (S (length merged)))%nat
  ∧ ∃ added, mergeLoop merged seen keywords = merged ++ added.
Proof.
  revert merged seen. induction keywords as [|k rest IH]; intros merged seen.
  - simpl. split; [lia|]. exists []. by rewrite app_nil_r.
  - cbn [mergeLoop]. destruct (Js.has seen k).
    + apply IH.
    + destruct (Nat.leb_spec SINGLE_TOPIC_ANCHOR_KEYWORD_LIMIT
                  (length (merged ++ [k]))) as [Hfull|Hroom].
      * rewrite length_app. simpl. split; [lia|]. by exists [k].
      * destruct (IH (merged ++ [k]) (k :: seen)) as [Hlen [added Hadd]].
        rewrite length_app in Hlen, Hroom. simpl in Hlen, Hroom.
        unfold SINGLE_TOPIC_ANCHOR_KEYWORD_LIMIT in *. split; [lia|].
        exists (k :: added). rewrite Hadd. by rewrite <- app_assoc.
Qed.

(** On a disallowed utterance the anchor is left as it is and the drift
    counter goes up by one. *)
Lemma drift_keeps_anchor config warningResult endResult s callId transcript topic :
  Webhook.singleTopic config = Some topic →
  Webhook.singleTopicEnabled topic = true →
  Webhook.endCallOnDrift topic = false →
  let existing :=
    default {| Webhook.anchorKeywords := []; Webhook.driftCount := 0 |}
      (Webhook.singleTopicStates s !! callId) in
  let result :=
    Webhook.shouldAutoRespondToTranscript config warningResult endResult s
      callId transcript in
  result.2 = false →
  Webhook.singleTopicStates result.1.1 !! callId
  = Some {| Webhook.anchorKeywords := Webhook.anchorKeywords existing;
            Webhook.driftCount := S (Webhook.driftCount existing) |}.
Proof.
  intros Htopic Hen Hend existing result. subst result.
  unfold Webhook.shouldAutoRespondToTranscript.
  rewrite Htopic, Hen, Hend. simpl. fold existing.
  destruct (_ || _); simpl; [done|]. intros _.
  rewrite lookup_insert_eq. do 2 f_equal. lia.
Qed.

(** ** Webhook authentication *)
Section Authentication.

Context {M : Type} `{Api.CallManagerApi M}.

(** C9: when the provider's verification of a webhook request answers
    not-ok, the handler responds 401 Unauthorized; the verification is
    the only call made: [parseWebhookEvent] is not consulted, no event is
    given to [processEvent], and the manager and the server's
    per-call state are as before. *)
Theorem unverified_webhook_rejected
    (provider : Webhook.VoiceCallProvider) (s : Webhook.Server) (m : M)
    (req : Webhook.IncomingMessage) (webhookPath body : string) :
  String.prefix webhookPath (Webhook.requestPathname req) = true →
  Webhook.requestMethod req = "POST" →
  Webhook.requestBody req = Webhook.BodyText body →
  Webhook.ok (Webhook.verifyWebhook provider (Webhook.webhookContext req body))
    = false →
  let handled := Webhook.handleRequest provider s m req webhookPath in
  Webhook.response handled
    = Some {| Webhook.responseStatus := 401; Webhook.responseHeaders := [];
              Webhook.responseBody := "Unauthorized" |}
  ∧ Webhook.consulted handled
    = [Webhook.VerifyWebhook (Webhook.webhookContext req body)]
  ∧ Webhook.managerAfter handled = m
  ∧ Webhook.serverAfter handled = s.
Proof.
  intros Hpath Hmethod Hbody Hverify handled. subst handled.
  unfold Webhook.handleRequest.
  rewrite Hpath, Hmethod, Hbody. simpl. by rewrite Hverify.
Qed.

End Authentication.

Lemma unverified_webhook_rejected_witness :
  let provider :=
    {| Webhook.verifyWebhook := fun _ =>
         {| Webhook.ok := false; Webhook.reason := Some "Invalid signature" |};
       Webhook.parseWebhookEvent := fun _ =>
         {| Webhook.events :=
              [ {| eventId := "evt-1"; eventCallId := "call-0";
                   eventProviderCallId := "provider-1"; eventTimestamp := 1;
                   eventDirection := None; eventFrom := None; eventTo := None;
                   payload := CallEnded "completed" |} ];
            Webhook.statusCode := 200;
            Webhook.providerResponseBody := None;
            Webhook.providerResponseHeaders := [] |} |} in
  let req :=
    {| Webhook.requestUrl := "/voice/webhook";
       Webhook.requestHost := "example.com";
       Webhook.requestPathname := "/voice/webhook";
       Webhook.requestSearchParams := [];
       Webhook.requestMethod := "POST";
       Webhook.requestHeaders := [];
       Webhook.requestRemoteAddress := None;
       Webhook.requestBody := Webhook.BodyText "CallUUID=1" |} in
  let m :=
    Manager.newManager
      {| Manager.providerName := "plivo"; Manager.fromNumber := "+15550000000";
         Manager.inboundPolicy := Manager.policyOpen; Manager.allowFrom := [] |}
      None in
  let handled :=
    Webhook.handleRequest provider Webhook.newServer m req "/voice/webhook" in
  Webhook.ok (Webhook.verifyWebhook provider
                (Webhook.webhookContext req "CallUUID=1")) = false
  ∧ Webhook.response handled
    = Some {| Webhook.responseStatus := 401; Webhook.responseHeaders := [];
              Webhook.responseBody := "Unauthorized" |}
  ∧ Webhook.consulted handled
    = [Webhook.VerifyWebhook (Webhook.webhookContext req "CallUUID=1")]
  ∧ Webhook.managerAfter handled = m
  ∧ Webhook.serverAfter handled = Webhook.newServer.
Proof.
  intros provider req m handled. split; [reflexivity|].
  apply (unverified_webhook_rejected provider Webhook.newServer m req
           "/voice/webhook" "CallUUID=1"); reflexivity.
Defined.

(** ** The call manager *)
Section InboundPolicy.

Import Manager.

Lemma findCall_None m event :
  findCall m event = None →
  getCallByProviderCallId m (eventProviderCallId event) = None
  ∧ getCall m (eventCallId event) = None.
Proof.
  unfold findCall.
  by destruct (getCallByProviderCallId m (eventProviderCallId event)).
Qed.

End InboundPolicy.

(** C3: under the allowlist policy, an inbound [call.initiated] event for
    which no record exists yet creates a record exactly when the event's
    [from] number is an entry of [allowFrom], compared verbatim.  When it
    is, the record resolves by the event's provider call id and no hang-up
    is requested.  When it is not (the number is unlisted, or only ends
    with a listed number, or is absent), a hang-up is requested with the
    event's provider call id, the store and the index are unchanged, and
    neither [getCallByProviderCallId] nor [getCall] resolves the call. *)
Theorem allowlist_admits_exact_numbers_only
    (m : Manager.CallManager) (event : NormalizedEvent) :
  Manager.inboundPolicy (Manager.config m) = Manager.policyAllowlist →
  payload event = CallInitiated →
  eventDirection event = Some inbound →
  Manager.findCall m event = None →
  let listed :=
    ∃ number, eventFrom event = Some number
              ∧ number ∈ Manager.allowFrom (Manager.config m) in
  let m' := Manager.processEvent m event in
  (is_Some (Manager.getCallByProviderCallId m' (eventProviderCallId event))
   ↔ listed)
  ∧ (listed →
     ∃ call,
       Manager.getCallByProviderCallId m' (eventProviderCallId event) = Some call
       ∧ Manager.getCall m' (callId call) = Some call
       ∧ providerCallId call = eventProviderCallId event
       ∧ Some (from call) = eventFrom event
       ∧ state call = initiated
       ∧ Manager.hangupCalls m' = Manager.hangupCalls m)
  ∧ (¬ listed →
     Manager.hangupCalls m'
     = Manager.hangupCalls m ++ [eventProviderCallId event]
     ∧ Manager.activeCalls m' = Manager.activeCalls m
     ∧ Manager.providerCallIdMap m' = Manager.providerCallIdMap m
     ∧ Manager.getCallByProviderCallId m' (eventProviderCallId event) = None
     ∧ Manager.getCall m' (eventCallId event) = None).
Proof.
  intros Hpolicy Hpayload Hdir Hfind listed m'.
  destruct (findCall_None m event Hfind) as [Hpid Hcid].
  assert (Manager.shouldAcceptInbound (Manager.config m) (eventFrom event) = true
          ↔ listed) as Haccept.
  { unfold Manager.shouldAcceptInbound, listed. rewrite Hpolicy.
    destruct (eventFrom event) as [number|].
    - rewrite bool_decide_eq_true. split; [eauto|].
      by intros (n & [= <-] & Hin).
    - split; [done|]. by intros (n & Hn & _). }
  assert (m' = if Manager.shouldAcceptInbound (Manager.config m) (eventFrom event)
               then Manager.createInboundCall m event
               else Manager.requestHangup m (eventProviderCallId event)) as Hm'.
  { unfold m', Manager.processEvent. by rewrite Hfind, Hpayload, Hdir. }
  assert (listed →
     ∃ call,
       Manager.getCallByProviderCallId m' (eventProviderCallId event) = Some call
       ∧ Manager.getCall m' (callId call) = Some call
       ∧ providerCallId call = eventProviderCallId event
       ∧ Some (from call) = eventFrom event
       ∧ state call = initiated
       ∧ Manager.hangupCalls m' = Manager.hangupCalls m) as Hyes.
  { intros Hl. pose proof Hl as (number & Hfrom & _).
    apply Haccept in Hl. rewrite Hl in Hm'. rewrite Hm'.
    eexists. unfold Manager.getCallByProviderCallId, Manager.getCall,
      Manager.createInboundCall. simpl.
    rewrite lookup_insert_eq. simpl. rewrite lookup_insert_eq.
    split; [reflexivity|]. simpl. rewrite lookup_insert_eq.
    repeat split; try done. by rewrite Hfrom. }
  assert (¬ listed →
     Manager.hangupCalls m'
     = Manager.hangupCalls m ++ [eventProviderCallId event]
     ∧ Manager.activeCalls m' = Manager.activeCalls m
     ∧ Manager.providerCallIdMap m' = Manager.providerCallIdMap m
     ∧ Manager.getCallByProviderCallId m' (eventProviderCallId event) = None
     ∧ Manager.getCall m' (eventCallId event) = None) as Hno.
  { intros Hnl.
    destruct (Manager.shouldAcceptInbound _ _) eqn:Hacc;
      [exfalso; by apply Hnl, Haccept|].
    rewrite Hm'. repeat split; done. }
  split; [|by split].
  split.
  - intros Hsome.
    destruct (Manager.shouldAcceptInbound _ _) eqn:Hacc; [by apply Haccept|].
    rewrite Hm' in Hsome. unfold Manager.getCallByProviderCallId in *.
    simpl in Hsome. rewrite Hpid in Hsome. by destruct Hsome.
  - intros Hl. destruct (Hyes Hl) as (call & -> & _). eauto.
Qed.

Lemma allowlist_admits_exact_numbers_only_witness :
  let m :=
    Manager.newManager
      {| Manager.providerName := "plivo"; Manager.fromNumber := "+15550000000";
         Manager.inboundPolicy := Manager.policyAllowlist;
         Manager.allowFrom := ["+15550001234"] |}
      None in
  let event :=
    {| eventId := "evt-allowlist-suffix"; eventCallId := "call-suffix";
       eventProviderCallId := "provider-suffix"; eventTimestamp := 1;
       eventDirection := Some inbound; eventFrom := Some "+99915550001234";
       eventTo := Some "+15550000000"; payload := CallInitiated |} in
  let m' := Manager.processEvent m event in
  Manager.hangupCalls m' = ["provider-suffix"]
  ∧ Manager.getCallByProviderCallId m' "provider-suffix" = None
  ∧ Manager.getCall m' "call-suffix" = None.
Proof.
  intros m event m'.
  destruct (allowlist_admits_exact_numbers_only m event
              eq_refl eq_refl eq_refl eq_refl) as (_ & _ & Hno).
  destruct Hno as (Hh & _ & _ & Hp & Hc).
  - intros (number & [= <-] & Hin). vm_compute in Hin.
    apply list_elem_of_singleton in Hin. discriminate.
  - done.
Defined.

Section EndedCallback.

Import Manager.

Variable callback : CallRecord → CallbackOutcome.

Lemma generatedCallId_inj n1 n2 :
  generatedCallId n1 = generatedCallId n2 → n1 = n2.
Proof.
  unfold generatedCallId. intros Heq.
  apply (inj (String.app "call-")) in Heq. by apply (inj pretty) in Heq.
Qed.

Lemma newManager_consistent cfg : consistent callback (newManager cfg (Some callback)).
Proof.
  split; simpl; try done.
  - intros cid [call Hc]. by rewrite lookup_empty in Hc.
  - intros snapshot Hin. by apply elem_of_nil in Hin.
Qed.

(** Replacing the record of a call by one that shows the same call. *)
Lemma replace_consistent m cid old new index :
  consistent callback m →
  activeCalls m !! cid = Some old →
  callId new = cid →
  endedCallbackFired new = endedCallbackFired old →
  isTerminalState (state new) = isTerminalState (state old) →
  (endedCallbackFired old = true →
   state new = state old ∧ endReason new = endReason old
   ∧ transcript new = transcript old ∧ direction new = direction old
   ∧ from new = from old ∧ to new = to old) →
  consistent callback (setCalls m (<[cid := new]> (activeCalls m)) index).
Proof.
  intros Hm Hold Hid Hflag Hterm Hsame.
  destruct Hm as [Hreg Hkey Hgen Hfl Hnot Hkn Hcaught].
  split; simpl; try done.
  - intros cid' call. rewrite lookup_insert.
    case_decide as Hc; [by intros [= <-]; subst|]. apply Hkey.
  - intros cid' Hsome. apply Hgen.
    rewrite lookup_insert in Hsome. case_decide; [subst; eauto|done].
  - intros cid' call. rewrite lookup_insert.
    case_decide as Hc; [|apply Hfl].
    intros [= <-]. rewrite Hflag, Hterm. by apply (Hfl cid).
  - intros cid' call. rewrite lookup_insert.
    case_decide as Hc; [|apply Hnot]. intros [= <-]. subst cid'.
    pose proof (Hnot _ _ Hold) as Hn. rewrite Hflag.
    unfold notificationsFor in *. simpl.
    destruct (endedCallbackFired old) eqn:Hf; [|done].
    destruct Hn as (snapshot & Hlist & Hsnap). exists snapshot.
    split; [done|]. destruct (Hsame eq_refl) as (?&?&?&?&?&?).
    pose proof (Hkey _ _ Hold) as Hoid.
    unfold snapshotOf in *. destruct Hsnap as (?&?&?&?&?&?&?&?).
    repeat split; congruence.
  - intros snapshot Hin. rewrite lookup_insert.
    case_decide; [eauto|by apply Hkn].
Qed.

(** The terminal transition of a call that has not ended yet. *)
Lemma fire_consistent m cid old call :
  consistent callback m →
  activeCalls m !! cid = Some old →
  endedCallbackFired old = false →
  callId call = cid →
  endedCallbackFired call = false →
  isTerminalState (state call) = true →
  consistent callback (fireEndedCallback m call).
Proof.
  intros Hm Hold Holdflag Hid Hflag Hterm.
  destruct Hm as [Hreg Hkey Hgen Hfl Hnot Hkn Hcaught].
  unfold fireEndedCallback. rewrite Hflag. simpl. rewrite Hreg.
  split; simpl; try done.
  - intros cid' call'. rewrite Hid, lookup_insert.
    case_decide as Hc; [by intros [= <-]; subst|]. apply Hkey.
  - intros cid' Hsome. apply Hgen.
    rewrite Hid, lookup_insert in Hsome. case_decide; [subst; eauto|done].
  - intros cid' call'. rewrite Hid, lookup_insert.
    case_decide as Hc; [|apply Hfl]. by intros [= <-].
  - intros cid' call'. rewrite Hid, lookup_insert.
    unfold notificationsFor. simpl. rewrite filter_app, filter_cons, filter_nil.
    simpl. case_decide as Hc.
    + intros [= <-]. subst cid'. simpl.
      pose proof (Hnot _ _ Hold) as Hn. rewrite Holdflag in Hn.
      unfold notificationsFor in Hn. rewrite Hn, Hid.
      rewrite decide_True by done. simpl.
      eexists. split; [done|]. by unfold snapshotOf.
    + intros Hc'. rewrite decide_False by congruence. rewrite app_nil_r.
      by apply (Hnot cid').
  - intros snapshot. rewrite elem_of_app, list_elem_of_singleton.
    rewrite Hid, lookup_insert. case_decide; [eauto|].
    intros [Hin| ->]; [by apply Hkn|]. simpl in *. congruence.
  - rewrite filter_app, filter_cons, filter_nil, !length_app.
    destruct (callback _) eqn:Hcb.
    + rewrite decide_False by (unfold throwsOn; by rewrite Hcb). simpl. lia.
    + rewrite decide_True by (unfold throwsOn; by rewrite Hcb).
      rewrite length_app. simpl. lia.
Qed.

(** A new record under a generated identifier. *)
Lemma fresh_consistent m call index :
  consistent callback m →
  callId call = generatedCallId (nextCallId m) →
  endedCallbackFired call = false →
  isTerminalState (state call) = false →
  consistent callback
    {| config := config m; onCallEnded := onCallEnded m;
       activeCalls := <[callId call := call]> (activeCalls m);
       providerCallIdMap := index; nextCallId := S (nextCallId m);
       endedNotifications := endedNotifications m;
       hangupCalls := hangupCalls m; playTtsCalls := playTtsCalls m;
       errorLog := errorLog m |}.
Proof.
  intros Hm Hid Hflag Hterm.
  destruct Hm as [Hreg Hkey Hgen Hfl Hnot Hkn Hcaught].
  assert (activeCalls m !! callId call = None) as Hfresh.
  { destruct (activeCalls m !! callId call) eqn:Hl; [|done].
    destruct (Hgen (callId call)) as (n & Hn & Heq); [eauto|].
    rewrite Hid in Heq. apply generatedCallId_inj in Heq. lia. }
  split; simpl; try done.
  - intros cid' call'. rewrite lookup_insert.
    case_decide as Hc; [by intros [= <-]|]. apply Hkey.
  - intros cid' Hsome. rewrite lookup_insert in Hsome.
    case_decide as Hc.
    + exists (nextCallId m). split; [lia|]. congruence.
    + destruct (Hgen cid' Hsome) as (n & Hn & ->). exists n. split; [lia|done].
  - intros cid' call'. rewrite lookup_insert.
    case_decide as Hc; [|apply Hfl]. intros [= <-]. congruence.
  - intros cid' call'. rewrite lookup_insert.
    case_decide as Hc; [|apply Hnot]. intros [= <-]. rewrite Hflag.
    unfold notificationsFor. simpl.
    destruct (filter (fun c => callId c = cid') (endedNotifications m))
      as [|snapshot l] eqn:Hf; [done|].
    assert (snapshot ∈ filter (fun c => callId c = cid') (endedNotifications m))
      as Hin by (rewrite Hf; left).
    apply list_elem_of_filter in Hin as [Hsid Hin].
    apply Hkn in Hin as [? Hin]. congruence.
  - intros snapshot Hin. rewrite lookup_insert.
    case_decide; [eauto|by apply Hkn].
Qed.

Lemma requestHangup_consistent m pid :
  consistent callback m → consistent callback (requestHangup m pid).
Proof. intros []. by split. Qed.

Lemma requestTts_consistent m pid text :
  consistent callback m → consistent callback (requestTts m pid text).
Proof. intros []. by split. Qed.

Lemma storeCall_setCalls m call :
  storeCall m call
  = setCalls m (<[callId call := call]> (activeCalls m)) (providerCallIdMap m).
Proof. done. Qed.

Lemma findCall_stored m event call :
  consistent callback m →
  findCall m event = Some call →
  activeCalls m !! callId call = Some call.
Proof.
  intros Hm. unfold findCall, getCallByProviderCallId, getCall.
  destruct (providerCallIdMap m !! eventProviderCallId event) as [cid|]; simpl.
  - destruct (activeCalls m !! cid) as [call'|] eqn:Hc.
    + intros [= <-]. by rewrite (keyed _ _ Hm _ _ Hc).
    + intros Hc'. by rewrite (keyed _ _ Hm _ _ Hc').
  - intros Hc'. by rewrite (keyed _ _ Hm _ _ Hc').
Qed.

Lemma promote_consistent m call event :
  consistent callback m →
  activeCalls m !! callId call = Some call →
  let '(m1, call1) := promoteProviderCallId m call event in
  consistent callback m1
  ∧ activeCalls m1 !! callId call = Some call1
  ∧ callId call1 = callId call ∧ state call1 = state call
  ∧ endReason call1 = endReason call ∧ transcript call1 = transcript call
  ∧ direction call1 = direction call ∧ from call1 = from call
  ∧ to call1 = to call
  ∧ endedCallbackFired call1 = endedCallbackFired call.
Proof.
  intros Hm Hcall. unfold promoteProviderCallId.
  destruct (_ && _); [|split; [exact Hm|by repeat split]].
  split; [|simpl; rewrite lookup_insert_eq; by repeat split].
  by apply (replace_consistent m (callId call) call).
Qed.

Lemma applyEvent_consistent m call event :
  consistent callback m →
  activeCalls m !! callId call = Some call →
  consistent callback (applyEvent m call event).
Proof.
  intros Hm Hcall. unfold applyEvent.
  pose proof (promote_consistent m call event Hm Hcall) as Hp.
  destruct (promoteProviderCallId m call event) as [m1 call1].
  destruct Hp as (Hm1 & Hcall1 & Hid & Hst & Hr & Htr & Hd & Hf & Ht & Hfl).
  pose proof (flagged _ _ Hm1 _ _ Hcall1) as Hflag1.
  assert (∀ (processed : list string),
    consistent callback
      (storeCall m1
         (updateCall call1 (providerCallId call1) (state call1)
            (transcript call1) processed (endReason call1)
            (endedCallbackFired call1)))) as Hrecorded.
  { intros processed. rewrite storeCall_setCalls. simpl. rewrite Hid.
    by apply (replace_consistent m1 (callId call) call1). }
  destruct (isTerminalState (state call1)) eqn:Hterm; [apply Hrecorded|].
  assert (∀ st transcript0 processed,
    isTerminalState st = false →
    consistent callback
      (storeCall m1
         (updateCall call1 (providerCallId call1) st transcript0 processed
            (endReason call1) (endedCallbackFired call1)))) as Hlive.
  { intros st transcript0 processed Hst'. rewrite storeCall_setCalls. simpl.
    rewrite Hid.
    apply (replace_consistent m1 (callId call) call1); try done.
    - simpl. by rewrite Hst', Hterm.
    - intros Hfired. congruence. }
  assert (∀ st processed reason,
    isTerminalState st = true →
    consistent callback
      (fireEndedCallback m1
         (updateCall call1 (providerCallId call1) st (transcript call1)
            processed reason (endedCallbackFired call1)))) as Hfire.
  { intros st processed reason Hst'.
    apply (fire_consistent _ (callId call) call1); try done; simpl; congruence. }
  destruct (payload event) as [| |text isFinal|reason|err retryable].
  - apply Hrecorded.
  - destruct (list_find _ _) as [[? [? message]]|].
    + apply requestTts_consistent. by apply Hlive.
    + by apply Hlive.
  - apply Hlive. done.
  - by apply Hfire.
  - destruct retryable; [apply Hrecorded|by apply Hfire].
Qed.

Lemma processEvent_consistent m event :
  consistent callback m → consistent callback (processEvent m event).
Proof.
  intros Hm. unfold processEvent.
  destruct (findCall m event) as [call|] eqn:Hfind.
  - destruct (Js.has _ _); [done|].
    apply applyEvent_consistent; [done|]. by eapply findCall_stored.
  - destruct (payload event); try done.
    destruct (eventDirection event) as [[]|]; try done.
    destruct (shouldAcceptInbound _ _).
    + by apply (fresh_consistent m).
    + by apply requestHangup_consistent.
Qed.

Lemma endCall_consistent m cid hangupOk :
  consistent callback m → consistent callback (endCall m cid hangupOk).1.
Proof.
  intros Hm. unfold endCall, getCall.
  destruct (activeCalls m !! cid) as [call|] eqn:Hcall; [|done].
  pose proof (keyed _ _ Hm _ _ Hcall) as Hid.
  pose proof (flagged _ _ Hm _ _ Hcall) as Hflag.
  pose proof (requestHangup_consistent m (providerCallId call) Hm) as Hh.
  destruct (state call) eqn:Hst; try done;
    destruct hangupOk; try done; simpl;
    apply (fire_consistent _ cid call); try done; simpl;
    by rewrite Hflag.
Qed.

Lemma initiateCall_consistent m to0 message adapterResult :
  consistent callback m →
  consistent callback (initiateCall m to0 message adapterResult).1.
Proof.
  intros Hm. unfold initiateCall. destruct adapterResult; [|done].
  by apply (fresh_consistent m).
Qed.

Lemma perform_consistent m c :
  consistent callback m → consistent callback (perform m c).1.
Proof.
  intros Hm. destruct c; simpl.
  - by apply initiateCall_consistent.
  - by apply processEvent_consistent.
  - by apply endCall_consistent.
Qed.

Lemma performAll_consistent m cs :
  consistent callback m → consistent callback (performAll m cs).
Proof.
  revert m. induction cs as [|c cs IH]; intros m Hm; [done|].
  simpl. apply IH. by apply perform_consistent.
Qed.

(** A terminal transition stores the ended record and calls the
    callback with it. *)
Lemma fire_stored m call :
  onCallEnded m = Some callback →
  endedCallbackFired call = false →
  let snapshot :=
    updateCall call (providerCallId call) (state call) (transcript call)
      (processedEventIds call) (endReason call) true in
  getCall (fireEndedCallback m call) (callId call) = Some snapshot
  ∧ endedNotifications (fireEndedCallback m call)
    = endedNotifications m ++ [snapshot].
Proof.
  intros Hreg Hflag snapshot. unfold fireEndedCallback, getCall.
  rewrite Hflag. simpl. rewrite Hreg. simpl. by rewrite lookup_insert_eq.
Qed.

Lemma consistent_count m cid call :
  consistent callback m →
  getCall m cid = Some call →
  if isTerminalState (state call)
  then ∃ snapshot,
         notificationsFor m cid = [snapshot] ∧ snapshotOf snapshot call
  else notificationsFor m cid = [].
Proof.
  intros Hm Hcall. rewrite <- (flagged _ _ Hm _ _ Hcall).
  by apply (notified _ _ Hm).
Qed.

(** A terminal event that is not a duplicate ends the call it is for. *)
Lemma terminal_event_ends m cid call event st reason :
  consistent callback m →
  getCall m cid = Some call →
  isTerminalState (state call) = false →
  findCall m event = Some call →
  eventId event ∉ processedEventIds call →
  (payload event = CallEnded reason ∧ st = ended
   ∨ ∃ err, payload event = CallError err false
            ∧ st = errorTerminal ∧ reason = "error") →
  ∃ call', getCall (processEvent m event) cid = Some call'
           ∧ state call' = st ∧ endReason call' = Some reason.
Proof.
  intros Hm Hcall Hlive Hfind Hnew Hpayload.
  pose proof (keyed _ _ Hm _ _ Hcall) as Hid.
  unfold processEvent. rewrite Hfind.
  apply has_false in Hnew. rewrite Hnew. unfold applyEvent.
  pose proof (promote_consistent m call event Hm) as Hp.
  rewrite Hid in Hp. specialize (Hp Hcall).
  destruct (promoteProviderCallId m call event) as [m1 call1].
  destruct Hp as (Hm1 & Hcall1 & Hid1 & Hst & _ & _ & _ & _ & _ & Hfl).
  rewrite Hst, Hlive.
  assert (endedCallbackFired call1 = false) as Hflag.
  { rewrite Hfl, (flagged _ _ Hm _ _ Hcall). done. }
  assert (∀ processed,
    ∃ call', getCall
               (fireEndedCallback m1
                  (updateCall call1 (providerCallId call1) st
                     (transcript call1) processed (Some reason)
                     (endedCallbackFired call1))) cid = Some call'
             ∧ state call' = st ∧ endReason call' = Some reason) as Hfire.
  { intros processed.
    edestruct (fire_stored m1
      (updateCall call1 (providerCallId call1) st (transcript call1)
         processed (Some reason) (endedCallbackFired call1)))
      as [Hget _]; [apply (registered _ _ Hm1)|done|].
    simpl in Hget. rewrite Hid1 in Hget. eauto. }
  destruct Hpayload as [[-> ->]|(err & -> & -> & ->)]; apply Hfire.
Qed.

(** A bot hang-up that the adapter carries out ends an answered call. *)
Lemma endCall_ends m cid call :
  consistent callback m →
  getCall m cid = Some call →
  state call = answered ∨ state call = active →
  ∃ call', getCall (endCall m cid true).1 cid = Some call'
           ∧ state call' = ended ∧ endReason call' = Some "hangup-bot"
           ∧ Webhook.success (endCall m cid true).2 = true.
Proof.
  intros Hm Hcall Hst.
  pose proof (keyed _ _ Hm _ _ Hcall) as Hid.
  pose proof (flagged _ _ Hm _ _ Hcall) as Hflag.
  unfold endCall. rewrite Hcall.
  edestruct (fire_stored (requestHangup m (providerCallId call))
    (updateCall call (providerCallId call) ended (transcript call)
       (processedEventIds call) (Some "hangup-bot")
       (endedCallbackFired call))) as [Hget _];
    [apply (registered _ _ Hm)|by destruct Hst as [Hs|Hs]; rewrite Hflag, Hs|].
  simpl in Hget. rewrite Hid in Hget.
  destruct Hst as [Hs|Hs]; rewrite Hs; simpl; eauto.
Qed.

Lemma fire_other m call cid :
  cid ≠ callId call →
  activeCalls (fireEndedCallback m call) !! cid = activeCalls m !! cid.
Proof.
  intros Hne. unfold fireEndedCallback.
  destruct (endedCallbackFired call); simpl.
  - by rewrite lookup_insert_ne.
  - destruct (onCallEnded m); simpl; by rewrite lookup_insert_ne.
Qed.

Lemma storeCall_other m call cid :
  cid ≠ callId call →
  activeCalls (storeCall m call) !! cid = activeCalls m !! cid.
Proof. intros Hne. simpl. by rewrite lookup_insert_ne. Qed.

Lemma promote_other m call event cid :
  cid ≠ callId call →
  activeCalls (promoteProviderCallId m call event).1 !! cid
  = activeCalls m !! cid
  ∧ callId (promoteProviderCallId m call event).2 = callId call.
Proof.
  intros Hne. unfold promoteProviderCallId.
  destruct (_ && _); simpl; [|done]. by rewrite lookup_insert_ne.
Qed.

Lemma applyEvent_other m call event cid :
  cid ≠ callId call →
  activeCalls (applyEvent m call event) !! cid = activeCalls m !! cid.
Proof.
  intros Hne. unfold applyEvent.
  destruct (promote_other m call event cid Hne) as [Hm1 Hid1].
  destruct (promoteProviderCallId m call event) as [m1 call1]. simpl in *.
  rewrite <- Hm1. rewrite <- Hid1 in Hne.
  destruct (isTerminalState (state call1)); [by apply storeCall_other|].
  destruct (payload event) as [| | | |err []];
    try (by apply storeCall_other); try (by apply fire_other).
  destruct (list_find _ _) as [[? [? ?]]|]; by apply storeCall_other.
Qed.

Lemma applyEvent_terminal m call event :
  isTerminalState (state call) = true →
  ∃ call', activeCalls (applyEvent m call event) !! callId call = Some call'
           ∧ state call' = state call ∧ endReason call' = endReason call.
Proof.
  intros Hterm. unfold applyEvent, promoteProviderCallId.
  destruct (_ && _); simpl; rewrite Hterm; simpl;
    rewrite lookup_insert_eq; eauto.
Qed.

(** Once a call has ended, its state and end reason stay. *)
Lemma perform_terminal_stable m c cid call :
  consistent callback m →
  getCall m cid = Some call →
  isTerminalState (state call) = true →
  ∃ call', getCall (perform m c).1 cid = Some call'
           ∧ state call' = state call ∧ endReason call' = endReason call.
Proof.
  intros Hm Hcall Hterm. unfold getCall in *.
  pose proof (keyed _ _ Hm _ _ Hcall) as Hid.
  assert (cid ≠ generatedCallId (nextCallId m)) as Hfresh.
  { intros ->. destruct (generated _ _ Hm _ (mk_is_Some _ _ Hcall))
      as (n & Hn & Heq). apply generatedCallId_inj in Heq. lia. }
  destruct c as [to0 message adapterResult|event|cid0 hangupOk]; simpl.
  - unfold initiateCall. destruct adapterResult; simpl; [|eauto].
    rewrite lookup_insert_ne by done. eauto.
  - unfold processEvent.
    destruct (findCall m event) as [call0|] eqn:Hfind.
    + destruct (Js.has _ _); [eauto|].
      pose proof (findCall_stored m event call0 Hm Hfind) as Hstored.
      destruct (decide (cid = callId call0)) as [->|Hne].
      * assert (call0 = call) as -> by congruence.
        by apply applyEvent_terminal.
      * rewrite applyEvent_other by done. eauto.
    + destruct (payload event); eauto.
      destruct (eventDirection event) as [[]|]; eauto.
      destruct (shouldAcceptInbound _ _); simpl; [|eauto].
      rewrite lookup_insert_ne by done. eauto.
  - unfold endCall, getCall.
    destruct (activeCalls m !! cid0) as [call0|] eqn:Hcall0; [|eauto].
    destruct (decide (cid = cid0)) as [->|Hne].
    + assert (call0 = call) as -> by congruence.
      destruct (state call) eqn:Hs; try done; simpl;
        exists call; by rewrite Hs.
    + pose proof (keyed _ _ Hm _ _ Hcall0) as Hid0.
      destruct (state call0); eauto; destruct hangupOk; simpl; eauto;
        rewrite fire_other by (simpl; congruence); eauto.
Qed.

Lemma performAll_terminal_stable m cs cid call :
  consistent callback m →
  getCall m cid = Some call →
  isTerminalState (state call) = true →
  ∃ call', getCall (performAll m cs) cid = Some call'
           ∧ state call' = state call ∧ endReason call' = endReason call.
Proof.
  revert m call. induction cs as [|c cs IH]; intros m call Hm Hcall Hterm;
    [simpl; eauto|].
  destruct (perform_terminal_stable m c cid call Hm Hcall Hterm)
    as (call1 & Hcall1 & Hst & Hr).
  destruct (IH (perform m c).1 call1) as (call2 & Hcall2 & Hst2 & Hr2);
    [by apply perform_consistent|done|congruence|].
  exists call2. simpl. split; [done|]. split; congruence.
Qed.

Lemma takesEffect_ends m cid call c reason :
  consistent callback m →
  getCall m cid = Some call →
  isTerminalState (state call) = false →
  takesEffect m call c reason →
  ∃ call', getCall (perform m c).1 cid = Some call'
           ∧ isTerminalState (state call') = true
           ∧ endReason call' = Some reason.
Proof.
  intros Hm Hcall Hlive Heff.
  pose proof (keyed _ _ Hm _ _ Hcall) as Hid.
  destruct c as [| event | cid0 hangupOk]; simpl in *; [done| |].
  - destruct Heff as (Hfind & Hnew & [Hp|(err & Hp & ->)]).
    + destruct (terminal_event_ends m cid call event ended reason)
        as (call' & ? & Hst & ?); eauto.
      exists call'. by rewrite Hst.
    + destruct (terminal_event_ends m cid call event errorTerminal "error")
        as (call' & ? & Hst & ?); eauto 10.
      exists call'. by rewrite Hst.
  - destruct Heff as (-> & -> & Hst & ->). rewrite Hid.
    destruct (endCall_ends m cid call Hm Hcall Hst) as (call' & ? & Hs & ? & _).
    exists call'. by rewrite Hs.
Qed.

End EndedCallback.

(** C1: at every moment, whatever commands the manager has been given and
    in whatever order, the ended-callback registered at construction has
    been called exactly once for every call that has ended and not at all
    for any other call, and the record it was called with shows the call
    as it ended.  A terminal trigger that takes effect on a live call (a
    [call.ended] event, a non-retryable [call.error] event, or a bot
    hang-up) makes this one call of the callback, with the trigger's end
    reason, and whatever follows adds none.  No command throws, whether the
    callback throws or not; each throw of the callback is logged. *)
Theorem ended_callback_exactly_once
    (config : Manager.ManagerConfig)
    (callback : CallRecord → Manager.CallbackOutcome)
    (commands : list Manager.Command) :
  let m :=
    Manager.performAll (Manager.newManager config (Some callback)) commands in
  (∀ cid call,
     Manager.getCall m cid = Some call →
     if Manager.isTerminalState (state call)
     then ∃ snapshot,
            Manager.notificationsFor m cid = [snapshot]
            ∧ Manager.snapshotOf snapshot call
     else Manager.notificationsFor m cid = [])
  ∧ (∀ cid call trigger reason later,
       Manager.getCall m cid = Some call →
       Manager.isTerminalState (state call) = false →
       Manager.takesEffect m call trigger reason →
       let m' := Manager.performAll m (trigger :: later) in
       ∃ snapshot call',
         Manager.notificationsFor m' cid = [snapshot]
         ∧ Manager.getCall m' cid = Some call'
         ∧ Manager.snapshotOf snapshot call'
         ∧ Manager.isTerminalState (state snapshot) = true
         ∧ endReason snapshot = Some reason)
  ∧ (∀ c, (Manager.perform m c).2 = Returned)
  ∧ length (Manager.errorLog m)
    = length (filter (fun call => Manager.throwsOn callback call = true)
                (Manager.endedNotifications m)).
Proof.
  intros m.
  assert (Manager.consistent callback m) as Hm.
  { apply performAll_consistent, newManager_consistent. }
  split; [|split; [|split]].
  - intros cid call Hcall. by apply (consistent_count callback).
  - intros cid call trigger reason later Hcall Hlive Heff m'.
    destruct (takesEffect_ends callback m cid call trigger reason
                Hm Hcall Hlive Heff) as (call1 & Hcall1 & Hterm1 & Hreason1).
    pose proof (perform_consistent callback m trigger Hm) as Hm1.
    destruct (performAll_terminal_stable callback _ later cid call1
                Hm1 Hcall1 Hterm1) as (call2 & Hcall2 & Hst2 & Hr2).
    assert (Manager.consistent callback m') as Hm'.
    { by apply (performAll_consistent callback (Manager.perform m trigger).1). }
    pose proof (consistent_count callback m' cid call2 Hm' Hcall2) as Hcount.
    rewrite Hst2, Hterm1 in Hcount.
    destruct Hcount as (snapshot & Hlist & Hsnap).
    exists snapshot, call2.
    split; [done|]. split; [done|]. split; [done|].
    destruct Hsnap as (_ & Hs & Hr & _).
    split; [by rewrite Hs, Hst2|by rewrite Hr, Hr2].
  - intros c. by destruct c.
  - apply (Manager.caught _ _ Hm).
Qed.

Lemma ended_callback_exactly_once_witness :
  let config :=
    {| Manager.providerName := "plivo"; Manager.fromNumber := "+15550000000";
       Manager.inboundPolicy := Manager.policyOpen; Manager.allowFrom := [] |} in
  let callback := fun _ : CallRecord => Manager.CallbackThrows in
  let answeredEvent :=
    {| eventId := "evt-ans-dup"; eventCallId := "call-0";
       eventProviderCallId := "request-uuid"; eventTimestamp := 1;
       eventDirection := None; eventFrom := None; eventTo := None;
       payload := CallAnswered |} in
  let endedEvent :=
    {| eventId := "evt-end-dup"; eventCallId := "call-0";
       eventProviderCallId := "request-uuid"; eventTimestamp := 2;
       eventDirection := None; eventFrom := None; eventTo := None;
       payload := CallEnded "hangup-bot" |} in
  let m :=
    Manager.performAll (Manager.newManager config (Some callback))
      [Manager.DoInitiateCall "+15550000001" None (Some "request-uuid");
       Manager.DoProcessEvent answeredEvent] in
  let m' :=
    Manager.performAll m
      [Manager.DoEndCall "call-0" true; Manager.DoProcessEvent endedEvent] in
  ∃ snapshot,
    Manager.notificationsFor m' "call-0" = [snapshot]
    ∧ endReason snapshot = Some "hangup-bot".
Proof.
  intros config callback answeredEvent endedEvent m m'.
  destruct (ended_callback_exactly_once config callback
              [Manager.DoInitiateCall "+15550000001" None (Some "request-uuid");
               Manager.DoProcessEvent answeredEvent]) as (_ & Heff & _).
  destruct (Heff "call-0"
              {| callId := "call-0"; providerCallId := "request-uuid";
                 provider := "plivo"; direction := outbound; state := answered;
                 from := "+15550000000"; to := "+15550000001"; startedAt := 0;
                 transcript := []; processedEventIds := ["evt-ans-dup"];
                 metadata := []; endReason := None;
                 endedCallbackFired := false |}
              (Manager.DoEndCall "call-0" true) "hangup-bot"
              [Manager.DoProcessEvent endedEvent])
    as (snapshot & call' & Hlist & _ & _ & _ & Hreason).
  - vm_compute. reflexivity.
  - reflexivity.
  - simpl. repeat split; try reflexivity. by left.
  - exists snapshot. split; [exact Hlist|exact Hreason].
Defined.

(** ** Generations of auto-responses *)
Section Generations.

Import Webhook.

Lemma cuesAdvanced_coherent s s' :
  coherent s → cuesAdvanced s s' → coherent s'.
Proof.
  intros [Hu Ht Hq Hb Hf] (Hp & Htasks & Hn & Hc).
  split.
  - intros cid i' Hi' Hs'. pose proof (Hc cid) as C. rewrite Hi' in C.
    destruct (cueControllers s !! cid) as [i|] eqn:Hi; [|done].
    destruct C as (Hcall & Hgen & Hset). rewrite Hp, Hcall, Hgen.
    apply (Hu cid i); auto.
  - intros tid t. rewrite Htasks. intros Htk.
    destruct (Ht _ _ Htk) as (i & Hi & Hcall & Hgen).
    pose proof (Hc (taskCues t)) as C. rewrite Hi in C.
    destruct (cueControllers s' !! taskCues t) as [i'|]; [|done].
    exists i'. destruct C as (C1 & C2 & _). split; [done|]. split; congruence.
  - intros cid cid' i1 i2 H1 H2 Hcall Hgen.
    pose proof (Hc cid) as C1. pose proof (Hc cid') as C2.
    rewrite H1 in C1. rewrite H2 in C2.
    destruct (cueControllers s !! cid) as [j1|] eqn:E1; [|done].
    destruct (cueControllers s !! cid') as [j2|] eqn:E2; [|done].
    destruct C1 as (?&?&_), C2 as (?&?&_).
    apply (Hq cid cid' _ _ E1 E2); congruence.
  - intros cid i' Hi'. pose proof (Hc cid) as C. rewrite Hi' in C.
    destruct (cueControllers s !! cid) as [i|] eqn:E; [|done].
    destruct C as (C1 & C2 & _). rewrite Hp, C1, C2. by eapply Hb.
  - intros cid [i' Hi']. rewrite Hn. apply Hf.
    pose proof (Hc cid) as C. rewrite Hi' in C.
    destruct (cueControllers s !! cid); [eauto|done].
Qed.

Lemma settleController_advanced s cid : cuesAdvanced s (settleController s cid).
Proof.
  repeat split; try done. intros cid'. simpl. rewrite lookup_alter.
  case_decide as Hc.
  - subst. destruct (cueControllers s !! cid') as [i|]; simpl; [|done].
    repeat split; try done. by rewrite settle_settled.
  - destruct (cueControllers s !! cid') as [i|]; repeat split; auto.
Qed.

Lemma settleController_coherent s cid :
  coherent s → coherent (settleController s cid).
Proof.
  intros Hs. eapply cuesAdvanced_coherent; [done|].
  apply settleController_advanced.
Qed.

Lemma withCues_advanced s cid f :
  (∀ c, ResponseCues.settled (f c).1 = ResponseCues.settled c) →
  cuesAdvanced s (withCues s cid f).1.
Proof.
  intros Hf. unfold withCues.
  destruct (cueControllers s !! cid) as [i|] eqn:Hi.
  - specialize (Hf (controller i)). destruct (f (controller i)) as [c out].
    repeat split; try done. intros cid'. simpl. rewrite lookup_insert.
    case_decide as Hc.
    + subst. rewrite Hi. simpl in *. repeat split; try done. congruence.
    + destruct (cueControllers s !! cid'); repeat split; auto.
  - repeat split; try done. intros cid'. simpl.
    destruct (cueControllers s !! cid'); repeat split; auto.
Qed.

Lemma withCues_speak s cid f callId text rec g :
  ESpeak callId text rec (Some g) ∈ (withCues s cid f).2 →
  ∃ i, cueControllers s !! cid = Some i
       ∧ cueCallId i = callId ∧ cueGeneration i = g
       ∧ (f (controller i)).2 ≠ [].
Proof.
  unfold withCues. destruct (cueControllers s !! cid) as [i|]; simpl;
    [|by intros ?%elem_of_nil].
  destruct (f (controller i)) as [c out] eqn:Hf. simpl.
  intros Hin. apply list_elem_of_fmap in Hin as (cue & Heq & Hcue).
  injection Heq as -> _ _ ->. exists i. repeat split; try done.
  rewrite Hf. simpl. intros ->. by apply elem_of_nil in Hcue.
Qed.

Lemma unsettled_current s cid i :
  coherent s →
  cueControllers s !! cid = Some i →
  ResponseCues.settled (controller i) = false →
  isVoiceResponseGenerationCurrent s (cueCallId i) (cueGeneration i) = true.
Proof.
  intros Hs Hi Hset.
  destruct (unsettledRegistered _ Hs _ _ Hi Hset) as (st & Hst & _ & Hg & Hd).
  unfold isVoiceResponseGenerationCurrent. rewrite Hst, Hd, Hg. simpl.
  apply Nat.eqb_refl.
Qed.

Lemma setSingleTopicStates_coherent s m :
  coherent s → coherent (setSingleTopicStates s m).
Proof. intros []. by split. Qed.

Lemma acknowledgement_unsettled c :
  (ResponseCues.maybeSpeakAcknowledgement c).2 ≠ [] →
  ResponseCues.settled c = false.
Proof.
  unfold ResponseCues.maybeSpeakAcknowledgement.
  destruct (ResponseCues.settled c); [|done].
  by rewrite orb_true_r.
Qed.

Lemma timerElapses_unsettled h c :
  (ResponseCues.timerElapses h c).2 ≠ [] →
  ResponseCues.settled c = false.
Proof.
  unfold ResponseCues.timerElapses, ResponseCues.progressCallback.
  destruct (bool_decide _); [|done].
  by destruct (ResponseCues.settled c).
Qed.

Lemma isCurrent_spec s callId g :
  isVoiceResponseGenerationCurrent s callId g = true
  ↔ ∃ st, pendingResponses s !! callId = Some st
          ∧ generation st = g ∧ disconnected st = false.
Proof.
  unfold isVoiceResponseGenerationCurrent.
  destruct (pendingResponses s !! callId) as [st|].
  - rewrite andb_true_iff, negb_true_iff, Nat.eqb_eq. split.
    + intros [? ?]. eauto.
    + by intros (st' & [= <-] & ? & ?).
  - split; [done|]. by intros (st' & ? & _).
Qed.

Lemma cuesAdvanced_refl s : cuesAdvanced s s.
Proof.
  repeat split; try done. intros cid.
  destruct (cueControllers s !! cid); repeat split; auto.
Qed.

(** After the registered closure of a call has been called, every
    controller of the call is settled. *)
Lemma settleRegistered s c :
  coherent s →
  let s1 :=
    match pendingResponses s !! c with
    | Some st =>
        match settleCues st with
        | Some cid => settleController s cid
        | None => s
        end
    | None => s
    end in
  coherent s1 ∧ cuesAdvanced s s1
  ∧ ∀ cid i, cueControllers s1 !! cid = Some i → cueCallId i = c →
             ResponseCues.settled (controller i) = true.
Proof.
  intros Hs s1.
  assert (cuesAdvanced s s1) as Hadv.
  { subst s1. destruct (pendingResponses s !! c) as [st|].
    - destruct (settleCues st); [apply settleController_advanced|].
      apply cuesAdvanced_refl.
    - apply cuesAdvanced_refl. }
  assert (coherent s1) as Hs1 by (by eapply cuesAdvanced_coherent).
  split; [done|]. split; [done|].
  intros cid i Hi Hc.
  destruct (ResponseCues.settled (controller i)) eqn:Hset; [done|].
  destruct (unsettledRegistered _ Hs1 _ _ Hi Hset) as (st & Hst & Hreg & _).
  destruct Hadv as (Hp & _). rewrite Hp, Hc in Hst.
  subst s1. rewrite Hst, Hreg in Hi. simpl in Hi.
  rewrite lookup_alter in Hi. rewrite decide_True in Hi by done.
  destruct (cueControllers s !! cid) as [i0|]; simpl in Hi; [|done].
  injection Hi as <-. simpl in Hset. by rewrite settle_settled in Hset.
Qed.

(** A new pending state for a call whose controllers are all settled. *)
Lemma repend_coherent s c st' :
  coherent s →
  (∀ cid i, cueControllers s !! cid = Some i → cueCallId i = c →
            ResponseCues.settled (controller i) = true) →
  (∀ st, pendingResponses s !! c = Some st →
         (generation st <= generation st')%nat) →
  coherent (setPendingResponses s (<[c := st']> (pendingResponses s))).
Proof.
  intros [Hu Ht Hq Hb Hf] Hall Hmono. split; simpl; try done.
  - intros cid i Hi Hset.
    destruct (decide (cueCallId i = c)) as [Hc|Hc].
    + rewrite (Hall _ _ Hi Hc) in Hset. done.
    + rewrite lookup_insert_ne by done. by apply Hu.
  - intros cid i Hi. destruct (Hb _ _ Hi) as (st & Hst & Hle).
    destruct (decide (cueCallId i = c)) as [Hc|Hc].
    + rewrite Hc, lookup_insert_eq. eexists. split; [done|].
      rewrite Hc in Hst. specialize (Hmono _ Hst). lia.
    + rewrite lookup_insert_ne by done. eauto.
Qed.

Lemma begin_spec s c :
  coherent s →
  let r := beginVoiceResponseGeneration s c in
  coherent r.1
  ∧ pendingResponses r.1 !! c
    = Some {| generation := r.2; disconnected := false; settleCues := None |}
  ∧ (∀ cid i, cueControllers r.1 !! cid = Some i → cueCallId i = c →
              ResponseCues.settled (controller i) = true
              ∧ (cueGeneration i < r.2)%nat)
  ∧ (∀ st, pendingResponses s !! c = Some st → (generation st < r.2)%nat).
Proof.
  intros Hs r. subst r. unfold beginVoiceResponseGeneration.
  destruct (settleRegistered s c Hs) as (Hs1 & Hadv & Hall).
  set (s1 := match pendingResponses s !! c with
             | Some st => match settleCues st with
                          | Some cid => settleController s cid
                          | None => s
                          end
             | None => s
             end) in *.
  simpl. destruct Hadv as (Hp & _).
  split; [|split; [|split]].
  - apply repend_coherent; [done|done|].
    intros st. rewrite Hp. intros ->. simpl. lia.
  - by rewrite lookup_insert_eq.
  - intros cid i Hi Hc. split; [by eapply Hall|].
    destruct (cuesBounded _ Hs1 _ _ Hi) as (st & Hst & Hle).
    rewrite Hc, Hp in Hst. rewrite Hst. lia.
  - intros st ->. lia.
Qed.

Lemma mark_coherent s c :
  coherent s → coherent (markResponseDisconnected s c).
Proof.
  intros Hs. unfold markResponseDisconnected.
  destruct (settleRegistered s c Hs) as (Hs1 & Hadv & Hall).
  destruct (pendingResponses s !! c) as [st|] eqn:Hst; [|done].
  simpl in *. destruct Hadv as (Hp & _).
  apply repend_coherent; [done|done|].
  intros st0. rewrite Hp, Hst. intros [= <-]. simpl. lia.
Qed.

(** A controller made and registered for the generation just begun, and
    the call of [handleInboundResponse] that holds it. *)
Lemma spawn_coherent s c g topics ctrl :
  coherent s →
  pendingResponses s !! c
  = Some {| generation := g; disconnected := false; settleCues := None |} →
  (∀ cid i, cueControllers s !! cid = Some i → cueCallId i = c →
            ResponseCues.settled (controller i) = true
            ∧ (cueGeneration i < g)%nat) →
  coherent
    {| pendingResponses :=
         <[c := {| generation := g; disconnected := false;
                   settleCues := Some (nextId s) |}]> (pendingResponses s);
       singleTopicStates := topics;
       cueControllers :=
         <[nextId s := {| controller := ctrl; cueCallId := c;
                          cueGeneration := g |}]> (cueControllers s);
       responseTasks :=
         <[S (nextId s) := {| taskCallId := c; taskGeneration := g;
                              taskCues := nextId s; taskAt := AwaitImport |}]>
           (responseTasks s);
       nextId := S (S (nextId s)) |}.
Proof.
  intros [Hu Ht Hq Hb Hf] Hst Hall.
  assert (cueControllers s !! nextId s = None) as Hnew.
  { destruct (cueControllers s !! nextId s) eqn:E; [|done].
    pose proof (Hf (nextId s) (mk_is_Some _ _ E)). lia. }
  split; simpl.
  - intros cid i. rewrite lookup_insert. case_decide as Hc.
    + intros [= <-] _. simpl. subst. rewrite lookup_insert_eq. eauto.
    + intros Hi Hset. destruct (decide (cueCallId i = c)) as [Hci|Hci].
      * destruct (Hall _ _ Hi Hci) as [Hsettled _]. congruence.
      * rewrite lookup_insert_ne by done. by apply Hu.
  - intros tid t. rewrite lookup_insert. case_decide as Hc.
    + intros [= <-]. simpl. rewrite lookup_insert_eq. eauto.
    + intros Htk. destruct (Ht _ _ Htk) as (i & Hi & ? & ?).
      exists i. rewrite lookup_insert_ne; [done|]. intros Heq.
      rewrite <- Heq in Hi. congruence.
  - intros cid cid' i i'. rewrite !lookup_insert.
    case_decide as Hc; case_decide as Hc'.
    + congruence.
    + intros [= <-] Hi' Hcall Hgen. simpl in *.
      destruct (Hall _ _ Hi' (eq_sym Hcall)) as [_ Hlt]. lia.
    + intros Hi [= <-] Hcall Hgen. simpl in *.
      destruct (Hall _ _ Hi Hcall) as [_ Hlt]. lia.
    + apply Hq.
  - intros cid i. rewrite lookup_insert. case_decide as Hc.
    + intros [= <-]. simpl. rewrite lookup_insert_eq. eauto.
    + intros Hi. destruct (decide (cueCallId i = c)) as [Hci|Hci].
      * rewrite Hci, lookup_insert_eq. eexists. split; [done|]. simpl.
        destruct (Hall _ _ Hi Hci) as [_ Hlt]. lia.
      * rewrite lookup_insert_ne by done. by eapply Hb.
  - intros cid. rewrite lookup_insert. case_decide as Hc; [lia|].
    intros Hsome. specialize (Hf _ Hsome). lia.
Qed.

Lemma handleInboundResponse_coherent config callKnown s c userMessage :
  coherent s →
  coherent (handleInboundResponse config callKnown s c userMessage).1.
Proof.
  intros Hs. unfold handleInboundResponse.
  destruct callKnown; cbn [negb]; [|done].
  destruct (coreConfig config); cbn [negb]; [|done].
  pose proof (begin_spec s c Hs) as Hb.
  destruct (beginVoiceResponseGeneration s c) as [s1 g].
  cbn [fst snd] in Hb. destruct Hb as (Hs1 & Hpend & Hall & _).
  unfold registerCueController. cbn [pendingResponses]. rewrite Hpend.
  cbn [disconnected generation orb]. rewrite Nat.eqb_refl. simpl.
  by apply spawn_coherent.
Qed.

Lemma setTaskAt_coherent s tid t at' :
  coherent s → responseTasks s !! tid = Some t →
  coherent (setTaskAt s tid t at').
Proof.
  intros [Hu Ht Hq Hb Hf] Htk. split; simpl; try done.
  intros tid' t'. rewrite lookup_insert. case_decide as Hc; [|apply Ht].
  intros [= <-]. simpl. by apply (Ht tid).
Qed.

Lemma dropTask_coherent s tid :
  coherent s → coherent (setResponseTasks s (delete tid (responseTasks s))).
Proof.
  intros [Hu Ht Hq Hb Hf]. split; simpl; try done.
  intros tid' t'. rewrite lookup_delete. case_decide; [done|]. apply Ht.
Qed.

(** Un-registering the controller of a generation once that controller is
    settled. *)
Lemma clear_coherent s c g :
  coherent s →
  (∀ cid i, cueControllers s !! cid = Some i → cueCallId i = c →
            cueGeneration i = g →
            ResponseCues.settled (controller i) = true) →
  coherent (clearCueController s c g).
Proof.
  intros Hs Hsettled. unfold clearCueController.
  destruct (pendingResponses s !! c) as [st|] eqn:Hst; [|done].
  destruct (Nat.eqb_spec (generation st) g) as [Hg|Hg]; simpl; [|done].
  destruct Hs as [Hu Ht Hq Hb Hf]. split; simpl; try done.
  - intros cid i Hi Hset.
    destruct (Hu _ _ Hi Hset) as (st0 & Hst0 & Hreg & Hgen & Hd).
    destruct (decide (cueCallId i = c)) as [Hc|Hc].
    + rewrite Hc, Hst in Hst0. injection Hst0 as <-.
      rewrite (Hsettled _ _ Hi Hc) in Hset by congruence. done.
    + rewrite lookup_insert_ne by done. eauto.
  - intros cid i Hi. destruct (Hb _ _ Hi) as (st0 & Hst0 & Hle).
    destruct (decide (cueCallId i = c)) as [Hc|Hc].
    + rewrite Hc, lookup_insert_eq. eexists. split; [done|]. simpl.
      rewrite Hc, Hst in Hst0. by injection Hst0 as <-.
    + rewrite lookup_insert_ne by done. eauto.
Qed.

Lemma clear_settle_commute s c g cid :
  settleController (clearCueController s c g) cid
  = clearCueController (settleController s cid) c g.
Proof.
  unfold clearCueController. simpl.
  destruct (pendingResponses s !! c) as [st|]; [|done].
  by destruct (negb _).
Qed.

Lemma finallyBlock_coherent s tid t :
  coherent s → responseTasks s !! tid = Some t →
  coherent (finallyBlock s tid t).
Proof.
  intros Hs Htk. unfold finallyBlock. apply dropTask_coherent.
  rewrite clear_settle_commute.
  pose proof (settleController_coherent s (taskCues t) Hs) as Hs1.
  apply clear_coherent; [done|].
  intros cid i Hi Hc Hg.
  destruct (taskHoldsCues _ Hs _ _ Htk) as (it & Hit & Hcall & Hgen).
  assert (cueControllers (settleController s (taskCues t)) !! taskCues t
          = Some (withController it (ResponseCues.settle (controller it))))
    as Hit'.
  { simpl. rewrite lookup_alter, decide_True by done. by rewrite Hit. }
  assert (cid = taskCues t) as ->.
  { apply (cuesUnique _ Hs1 _ _ _ _ Hi Hit'); simpl; congruence. }
  rewrite Hit' in Hi. injection Hi as <-. simpl. apply settle_settled.
Qed.

Lemma withCues_coherent s cid f :
  (∀ c, ResponseCues.settled (f c).1 = ResponseCues.settled c) →
  coherent s → coherent (withCues s cid f).1.
Proof.
  intros Hf Hs. eapply cuesAdvanced_coherent; [done|].
  by apply withCues_advanced.
Qed.

Lemma withCues_tasks s cid f :
  responseTasks (withCues s cid f).1 = responseTasks s.
Proof.
  unfold withCues. destruct (cueControllers s !! cid); [|done].
  by destruct (f _).
Qed.

Lemma acknowledgement_settled c :
  ResponseCues.settled (ResponseCues.maybeSpeakAcknowledgement c).1
  = ResponseCues.settled c.
Proof.
  unfold ResponseCues.maybeSpeakAcknowledgement. by destruct (_ || _).
Qed.

Lemma schedule_settled c :
  ResponseCues.settled (ResponseCues.scheduleProgressCue c)
  = ResponseCues.settled c.
Proof. unfold ResponseCues.scheduleProgressCue. by destruct (_ || _). Qed.

Lemma timerElapses_settled h c :
  ResponseCues.settled (ResponseCues.timerElapses h c).1
  = ResponseCues.settled c.
Proof. unfold ResponseCues.timerElapses. by destruct (bool_decide _). Qed.

Lemma resume_coherent s tid r :
  coherent s → coherent (resumeInboundResponse s tid r).1.
Proof.
  intros Hs. unfold resumeInboundResponse.
  destruct (responseTasks s !! tid) as [t|] eqn:Htk; [|done].
  pose proof (finallyBlock_coherent s tid t Hs Htk) as Hfin.
  destruct (taskAt t), r as [[]|[]|[result|]|[speakResult|]]; try done.
  - destruct (negb _); [done|].
    pose proof (withCues_coherent s (taskCues t)
                  ResponseCues.maybeSpeakAcknowledgement
                  acknowledgement_settled Hs) as Hw.
    pose proof (withCues_tasks s (taskCues t)
                  ResponseCues.maybeSpeakAcknowledgement) as Hwt.
    destruct (withCues s (taskCues t) _) as [s1 out]. simpl in *.
    apply setTaskAt_coherent; [done|]. by rewrite Hwt.
  - destruct (negb _); [done|].
    pose proof (withCues_coherent s (taskCues t)
                  (fun c => (ResponseCues.scheduleProgressCue c, []))
                  schedule_settled Hs) as Hw.
    pose proof (withCues_tasks s (taskCues t)
                  (fun c => (ResponseCues.scheduleProgressCue c, []))) as Hwt.
    destruct (withCues s (taskCues t) _) as [s1 out]. simpl in *.
    apply setTaskAt_coherent; [done|]. by rewrite Hwt.
  - destruct (negb _); [done|].
    destruct (ResponseCues.truthy (responseError result)); [done|].
    destruct (ResponseCues.truthy (responseText result)); [|done].
    by apply setTaskAt_coherent.
  - by destruct (negb _).
Qed.

Lemma shouldAutoRespond_coherent config w e s c transcript :
  coherent s →
  coherent (shouldAutoRespondToTranscript config w e s c transcript).1.1.
Proof.
  intros Hs. unfold shouldAutoRespondToTranscript.
  destruct (singleTopic config) as [topic|]; [|done].
  destruct (negb _); [done|].
  destruct (_ || _); [by apply setSingleTopicStates_coherent|].
  destruct (_ && _); simpl.
  - apply setSingleTopicStates_coherent, mark_coherent.
    by apply setSingleTopicStates_coherent.
  - by apply setSingleTopicStates_coherent.
Qed.

Lemma step_coherent config s a :
  coherent s → coherent (step config s a).1.
Proof.
  intros Hs.
  destruct a as [c transcript w e known|c msg known|tid r|cid h|c]; simpl.
  - pose proof (shouldAutoRespond_coherent config w e s c transcript Hs) as H1.
    destruct (shouldAutoRespondToTranscript _ _ _ _ _ _) as [[s1 out1] ok1].
    simpl in H1. destruct ok1; simpl; [|done].
    pose proof (handleInboundResponse_coherent config known s1 c transcript H1)
      as H2.
    by destruct (handleInboundResponse _ _ _ _ _) as [s2 out2].
  - by apply handleInboundResponse_coherent.
  - by apply resume_coherent.
  - apply withCues_coherent; [|done]. apply timerElapses_settled.
  - apply setSingleTopicStates_coherent. by apply mark_coherent.
Qed.

Lemma newServer_coherent : coherent newServer.
Proof. split; simpl; intros *; rewrite ?lookup_empty; done. Qed.

Lemma exec_app config s acts1 acts2 :
  exec config s (acts1 ++ acts2) = exec config (exec config s acts1) acts2.
Proof. unfold exec. by rewrite foldl_app. Qed.

Lemma exec_coherent config s acts :
  coherent s → coherent (exec config s acts).
Proof.
  revert s. induction acts as [|a acts IH]; intros s Hs; [done|].
  simpl. apply IH. by apply step_coherent.
Qed.

Local Ltac not_among H :=
  simpl in H;
  repeat (apply elem_of_cons in H as [H|H]; [discriminate H|]);
  by apply elem_of_nil in H.

Lemma shouldAutoRespond_speaks_for_none config w e s c transcript
    callId text rec g :
  ESpeak callId text rec (Some g)
    ∉ (shouldAutoRespondToTranscript config w e s c transcript).1.2.
Proof.
  unfold shouldAutoRespondToTranscript. intros H.
  destruct (singleTopic config) as [topic|]; [|not_among H].
  destruct (negb (singleTopicEnabled topic)); [not_among H|].
  destruct (_ || _).
  - destruct (_ && _); not_among H.
  - destruct (0 <? _)%nat, (negb (success w)), (_ && _), (negb (success e));
      not_among H.
Qed.

Lemma handleInboundResponse_silent config known s c userMessage
    callId text rec g :
  ESpeak callId text rec g
    ∉ (handleInboundResponse config known s c userMessage).2.
Proof.
  unfold handleInboundResponse. intros H.
  destruct known; cbn [negb] in H; [|not_among H].
  destruct (coreConfig config); cbn [negb] in H; [|not_among H].
  destruct (beginVoiceResponseGeneration s c) as [s1 g1]. not_among H.
Qed.

(** Whatever the server speaks on behalf of a generation, it speaks
    while that generation is current. *)
Lemma step_speak_current config s a callId text rec g :
  coherent s →
  ESpeak callId text rec (Some g) ∈ (step config s a).2 →
  isVoiceResponseGenerationCurrent s callId g = true.
Proof.
  intros Hs.
  destruct a as [c transcript w e known|c msg known|tid r|cid h|c]; simpl.
  - pose proof (shouldAutoRespond_speaks_for_none config w e s c transcript
                  callId text rec g) as Hnone.
    destruct (shouldAutoRespondToTranscript _ _ _ _ _ _) as [[s1 out1] ok1].
    simpl in Hnone. destruct ok1; simpl; [|done].
    pose proof (handleInboundResponse_silent config known s1 c transcript
                  callId text rec (Some g)) as Hsilent.
    destruct (handleInboundResponse _ _ _ _ _) as [s2 out2]. simpl in *.
    rewrite elem_of_app. by intros [?|?].
  - intros Hin. by apply handleInboundResponse_silent in Hin.
  - unfold resumeInboundResponse.
    destruct (responseTasks s !! tid) as [t|] eqn:Htk;
      [|by intros ?%elem_of_nil].
    destruct (taskAt t), r as [[]|[]|[result|]|[speakResult|]];
      try (intros H; not_among H).
    + destruct (negb _); [intros H; not_among H|].
      pose proof (withCues_speak s (taskCues t)
                    ResponseCues.maybeSpeakAcknowledgement callId text rec g)
        as Hw.
      destruct (withCues s (taskCues t) _) as [s1 out]. simpl in *.
      intros Hin. destruct (Hw Hin) as (i & Hi & <- & <- & Hout).
      apply (unsettled_current s (taskCues t)); [done|done|].
      by apply acknowledgement_unsettled.
    + destruct (negb _); [intros H; not_among H|].
      pose proof (withCues_speak s (taskCues t)
                    (fun c => (ResponseCues.scheduleProgressCue c, []))
                    callId text rec g) as Hw.
      destruct (withCues s (taskCues t) _) as [s1 out]. simpl in *.
      intros Hin. by destruct (Hw Hin) as (i & _ & _ & _ & Hout).
    + destruct (isVoiceResponseGenerationCurrent s (taskCallId t)
                  (taskGeneration t)) eqn:Hcur; simpl;
        [|intros H; not_among H].
      destruct (ResponseCues.truthy (responseError result));
        [intros H; not_among H|].
      destruct (ResponseCues.truthy (responseText result));
        [|intros H; not_among H].
      intros H. apply list_elem_of_singleton in H.
      by injection H as -> _ _ ->.
    + destruct (negb _); intros H; not_among H.
  - intros Hin.
    destruct (withCues_speak _ _ _ _ _ _ _ Hin) as (i & Hi & <- & <- & Hout).
    apply (unsettled_current s cid); [done|done|].
    by eapply timerElapses_unsettled.
  - by intros ?%elem_of_nil.
Qed.

Lemma generationsGrow_refl s : generationsGrow s s.
Proof. intros c st Hst. eauto. Qed.

Lemma generationsGrow_trans s1 s2 s3 :
  generationsGrow s1 s2 → generationsGrow s2 s3 → generationsGrow s1 s3.
Proof.
  intros H12 H23 c st Hst. destruct (H12 _ _ Hst) as (st2 & Hst2 & Hle2).
  destruct (H23 _ _ Hst2) as (st3 & Hst3 & Hle3). exists st3. split; [done|lia].
Qed.

Lemma generationsGrow_same s s' :
  pendingResponses s' = pendingResponses s → generationsGrow s s'.
Proof. intros Heq c st Hst. rewrite Heq. eauto. Qed.

Lemma generationsGrow_insert s s' c st' :
  pendingResponses s' = <[c := st']> (pendingResponses s) →
  (∀ st, pendingResponses s !! c = Some st →
         (generation st <= generation st')%nat) →
  generationsGrow s s'.
Proof.
  intros Heq Hmono c0 st Hst. rewrite Heq.
  destruct (decide (c = c0)) as [->|Hne].
  - rewrite lookup_insert_eq. eauto.
  - rewrite lookup_insert_ne by done. eauto.
Qed.

Lemma begin_grows s c : generationsGrow s (beginVoiceResponseGeneration s c).1.
Proof.
  unfold beginVoiceResponseGeneration.
  set (s1 := match pendingResponses s !! c with
             | Some st => match settleCues st with
                          | Some cid => settleController s cid
                          | None => s
                          end
             | None => s
             end).
  assert (pendingResponses s1 = pendingResponses s) as Hp.
  { subst s1. destruct (pendingResponses s !! c) as [st|]; [|done].
    by destruct (settleCues st). }
  cbn [fst].
  eapply generationsGrow_trans; [apply (generationsGrow_same s s1 Hp)|].
  eapply generationsGrow_insert; [simpl; reflexivity|].
  intros st0. rewrite Hp. intros ->. simpl. lia.
Qed.

Lemma begin_pending s c :
  pendingResponses (beginVoiceResponseGeneration s c).1 !! c
  = Some {| generation :=
              match pendingResponses s !! c with
              | Some st => generation st
              | None => 0
              end + 1;
            disconnected := false; settleCues := None |}.
Proof.
  unfold beginVoiceResponseGeneration. simpl. by rewrite lookup_insert_eq.
Qed.

Lemma mark_grows s c : generationsGrow s (markResponseDisconnected s c).
Proof.
  unfold markResponseDisconnected.
  destruct (pendingResponses s !! c) as [st|] eqn:Hst;
    [|apply generationsGrow_refl].
  set (s1 := match settleCues st with
             | Some cid => settleController s cid
             | None => s
             end).
  assert (pendingResponses s1 = pendingResponses s) as Hp.
  { subst s1. by destruct (settleCues st). }
  eapply generationsGrow_trans; [apply (generationsGrow_same s s1 Hp)|].
  eapply generationsGrow_insert; [simpl; reflexivity|].
  intros st0. rewrite Hp, Hst. intros [= <-]. simpl. lia.
Qed.

Lemma register_grows s c g cid :
  generationsGrow s (registerCueController s c g cid).
Proof.
  unfold registerCueController.
  destruct (pendingResponses s !! c) as [st|] eqn:Hst;
    [|by apply generationsGrow_same].
  destruct (_ || _); [by apply generationsGrow_same|].
  eapply generationsGrow_insert; [simpl; reflexivity|].
  intros st0. rewrite Hst. by intros [= <-].
Qed.

Lemma clear_grows s c g : generationsGrow s (clearCueController s c g).
Proof.
  unfold clearCueController.
  destruct (pendingResponses s !! c) as [st|] eqn:Hst;
    [|apply generationsGrow_refl].
  destruct (negb _); [apply generationsGrow_refl|].
  eapply generationsGrow_insert; [simpl; reflexivity|].
  intros st0. rewrite Hst. by intros [= <-].
Qed.

Lemma finallyBlock_grows s tid t : generationsGrow s (finallyBlock s tid t).
Proof.
  unfold finallyBlock.
  eapply generationsGrow_trans; [apply clear_grows|].
  by apply generationsGrow_same.
Qed.

Lemma withCues_pending s cid f :
  pendingResponses (withCues s cid f).1 = pendingResponses s.
Proof.
  unfold withCues. destruct (cueControllers s !! cid); [|done].
  by destruct (f _).
Qed.

Lemma handleInboundResponse_grows config known s c userMessage :
  generationsGrow s (handleInboundResponse config known s c userMessage).1.
Proof.
  unfold handleInboundResponse.
  destruct known; cbn [negb]; [|apply generationsGrow_refl].
  destruct (coreConfig config); cbn [negb]; [|apply generationsGrow_refl].
  pose proof (begin_grows s c) as Hb.
  destruct (beginVoiceResponseGeneration s c) as [s1 g]. simpl in Hb.
  eapply generationsGrow_trans; [exact Hb|].
  match goal with
  | |- context [registerCueController ?s2 c g ?cid] =>
      pose proof (register_grows s2 c g cid) as Hr;
      eapply generationsGrow_trans;
        [apply (generationsGrow_same s1 s2); reflexivity|];
      eapply generationsGrow_trans; [exact Hr|]
  end.
  by apply generationsGrow_same.
Qed.

Lemma resume_grows s tid r :
  generationsGrow s (resumeInboundResponse s tid r).1.
Proof.
  unfold resumeInboundResponse.
  destruct (responseTasks s !! tid) as [t|]; [|apply generationsGrow_refl].
  pose proof (finallyBlock_grows s tid t) as Hfin.
  destruct (taskAt t), r as [[]|[]|[result|]|[speakResult|]];
    try done; try apply generationsGrow_refl.
  - destruct (negb _); [done|].
    pose proof (withCues_pending s (taskCues t)
                  ResponseCues.maybeSpeakAcknowledgement) as Hw.
    destruct (withCues s (taskCues t) _) as [s1 out].
    by apply generationsGrow_same.
  - destruct (negb _); [done|].
    pose proof (withCues_pending s (taskCues t)
                  (fun c => (ResponseCues.scheduleProgressCue c, []))) as Hw.
    destruct (withCues s (taskCues t) _) as [s1 out].
    by apply generationsGrow_same.
  - destruct (negb _); [done|].
    destruct (ResponseCues.truthy (responseError result)); [done|].
    destruct (ResponseCues.truthy (responseText result)); [|done].
    by apply generationsGrow_same.
  - by destruct (negb _).
Qed.

Lemma shouldAutoRespond_grows config w e s c transcript :
  generationsGrow s
    (shouldAutoRespondToTranscript config w e s c transcript).1.1.
Proof.
  unfold shouldAutoRespondToTranscript.
  destruct (singleTopic config) as [topic|]; [|apply generationsGrow_refl].
  destruct (negb _); [apply generationsGrow_refl|].
  destruct (_ || _); [by apply generationsGrow_same|].
  destruct (_ && _); simpl; [|by apply generationsGrow_same].
  match goal with
  | |- context [markResponseDisconnected ?s1 c] =>
      eapply generationsGrow_trans;
        [apply (generationsGrow_same s s1); reflexivity|];
      eapply generationsGrow_trans; [apply (mark_grows s1 c)|]
  end.
  by apply generationsGrow_same.
Qed.

Lemma step_grows config s a : generationsGrow s (step config s a).1.
Proof.
  destruct a as [c transcript w e known|c msg known|tid r|cid h|c]; simpl.
  - pose proof (shouldAutoRespond_grows config w e s c transcript) as H1.
    destruct (shouldAutoRespondToTranscript _ _ _ _ _ _) as [[s1 out1] ok1].
    simpl in H1. destruct ok1; simpl; [|done].
    pose proof (handleInboundResponse_grows config known s1 c transcript) as H2.
    destruct (handleInboundResponse _ _ _ _ _) as [s2 out2]. simpl in *.
    by eapply generationsGrow_trans.
  - apply handleInboundResponse_grows.
  - apply resume_grows.
  - apply generationsGrow_same, withCues_pending.
  - eapply generationsGrow_trans; [apply mark_grows|].
    by apply generationsGrow_same.
Qed.

Lemma exec_grows config s acts : generationsGrow s (exec config s acts).
Proof.
  revert s. induction acts as [|a acts IH]; intros s;
    [apply generationsGrow_refl|].
  simpl. eapply generationsGrow_trans; [apply step_grows|apply IH].
Qed.

Lemma superseded_grows s s' c g :
  generationsGrow s s' → superseded s c g → superseded s' c g.
Proof.
  intros Hg (st & Hst & Hlt). destruct (Hg _ _ Hst) as (st' & Hst' & Hle).
  exists st'. split; [done|lia].
Qed.

Lemma superseded_not_current s c g :
  superseded s c g → isVoiceResponseGenerationCurrent s c g = false.
Proof.
  intros (st & Hst & Hlt). unfold isVoiceResponseGenerationCurrent.
  rewrite Hst. destruct (Nat.eqb_spec (generation st) g); [lia|].
  by rewrite andb_false_r.
Qed.

(** Resuming a call of [handleInboundResponse] whose generation is no
    longer current, with a fulfilled promise: nothing is spoken and no
    error is logged. *)
Lemma stale_resume_silent s tid t r :
  responseTasks s !! tid = Some t →
  isVoiceResponseGenerationCurrent s (taskCallId t) (taskGeneration t) = false →
  isFulfilled r = true →
  Forall (fun e => isSpeak e = false ∧ isErrorLog e = false)
    (resumeInboundResponse s tid r).2
  ∧ (taskAt t = AwaitResponse →
     (resumeInboundResponse s tid r).2
     = match r with
       | ResponseSettled _ =>
           [ELog LogInfo
              ("[voice-call] Dropping stale voice response for "
               +:+ taskCallId t)]
       | _ => []
       end).
Proof.
  intros Htk Hstale Hful. unfold resumeInboundResponse. rewrite Htk, Hstale.
  destruct (taskAt t), r as [[]|[]|[result|]|[speakResult|]];
    try discriminate Hful; simpl; split; try done;
    try (by repeat constructor).
  all: destruct (negb (success speakResult)); by repeat constructor.
Qed.

End Generations.

(** C2: a generation is current exactly when it is the latest recorded
    generation of its call and the call is not marked disconnected.
    Whatever the server does, in any order (transcripts, promises of
    [handleInboundResponse] settling, progress timers elapsing,
    disconnections), every acknowledgement cue, progress cue and final
    answer is spoken at a moment at which its generation is current.
    Beginning a new generation and marking the call disconnected both
    supersede the current generation, and a superseded generation is
    never spoken for again.  When the promise of a stale call of
    [handleInboundResponse] is fulfilled, nothing is spoken and no error is
    logged; a stale result is dropped with an informational log line. *)
Theorem stale_generation_never_spoken (config : Webhook.VoiceCallConfig) :
  (∀ s callId g,
     Webhook.isVoiceResponseGenerationCurrent s callId g = true
     ↔ ∃ st, Webhook.pendingResponses s !! callId = Some st
             ∧ Webhook.generation st = g ∧ Webhook.disconnected st = false)
  ∧ (∀ acts a callId text rec g,
       let s := Webhook.exec config Webhook.newServer acts in
       Webhook.ESpeak callId text rec (Some g) ∈ (Webhook.step config s a).2 →
       Webhook.isVoiceResponseGenerationCurrent s callId g = true)
  ∧ (∀ s callId g,
       Webhook.isVoiceResponseGenerationCurrent s callId g = true →
       Webhook.superseded
         (Webhook.beginVoiceResponseGeneration s callId).1 callId g
       ∧ Webhook.superseded
           (Webhook.markResponseDisconnected s callId) callId g)
  ∧ (∀ acts later a callId text rec g,
       Webhook.superseded (Webhook.exec config Webhook.newServer acts) callId g →
       Webhook.ESpeak callId text rec (Some g)
         ∉ (Webhook.step config
              (Webhook.exec config Webhook.newServer (acts ++ later)) a).2)
  ∧ (∀ s tid t r,
       Webhook.responseTasks s !! tid = Some t →
       Webhook.isVoiceResponseGenerationCurrent s
         (Webhook.taskCallId t) (Webhook.taskGeneration t) = false →
       Webhook.isFulfilled r = true →
       Forall (fun e => Webhook.isSpeak e = false
                        ∧ Webhook.isErrorLog e = false)
         (Webhook.resumeInboundResponse s tid r).2
       ∧ (Webhook.taskAt t = Webhook.AwaitResponse →
          (Webhook.resumeInboundResponse s tid r).2
          = match r with
            | Webhook.ResponseSettled _ =>
                [Webhook.ELog Webhook.LogInfo
                   ("[voice-call] Dropping stale voice response for "
                    +:+ Webhook.taskCallId t)]
            | _ => []
            end)).
Proof.
  split; [apply isCurrent_spec|].
  split.
  { intros acts a callId text rec g s. apply step_speak_current.
    apply exec_coherent, newServer_coherent. }
  split.
  { intros s callId g (st & Hst & Hg & _)%isCurrent_spec. split.
    - exists {| Webhook.generation := (Webhook.generation st + 1)%nat;
                Webhook.disconnected := false; Webhook.settleCues := None |}.
      rewrite begin_pending, Hst. split; [done|]. simpl. lia.
    - destruct (mark_grows s callId callId st Hst) as (st' & Hst' & Hle).
      exists st'. split; [done|].
      unfold Webhook.markResponseDisconnected in Hst'. rewrite Hst in Hst'.
      simpl in Hst'. rewrite lookup_insert_eq in Hst'.
      injection Hst' as <-. simpl. lia. }
  split.
  { intros acts later a callId text rec g Hsup Hin.
    rewrite exec_app in Hin.
    apply step_speak_current in Hin;
      [|apply exec_coherent, exec_coherent, newServer_coherent].
    rewrite superseded_not_current in Hin; [done|].
    eapply superseded_grows; [apply exec_grows|done]. }
  intros s tid t r. apply stale_resume_silent.
Qed.

Lemma stale_generation_never_spoken_witness :
  let config :=
    {| Webhook.singleTopic := None;
       Webhook.responseCues :=
         Some {| ResponseCues.configEnabled := Some true;
                 ResponseCues.configAcknowledgement := None;
                 ResponseCues.configProgress := None;
                 ResponseCues.configProgressDelayMs := None |};
       Webhook.coreConfig := true |} in
  let fine := {| Webhook.success := true; Webhook.commandError := None |} in
  let s :=
    Webhook.exec config Webhook.newServer
      [Webhook.ATranscript "call-1" "what is kwanzaa" fine fine true;
       Webhook.AResume 1 (Webhook.ImportSettled true);
       Webhook.AResume 1 (Webhook.AcknowledgementSettled true);
       Webhook.ADisconnected "call-1"] in
  let answer :=
    Webhook.ResponseSettled
      (Some {| Webhook.responseError := None;
               Webhook.responseText := Some "Kwanzaa is a holiday." |}) in
  Webhook.isVoiceResponseGenerationCurrent s "call-1" 1 = false
  ∧ (Webhook.resumeInboundResponse s 1 answer).2
    = [Webhook.ELog Webhook.LogInfo
         "[voice-call] Dropping stale voice response for call-1"].
Proof.
  intros config fine s answer.
  split; [vm_compute; reflexivity|].
  destruct (stale_generation_never_spoken config) as (_ & _ & _ & _ & Hstale).
  destruct (Hstale s 1%nat
              {| Webhook.taskCallId := "call-1"; Webhook.taskGeneration := 1;
                 Webhook.taskCues := 0; Webhook.taskAt := Webhook.AwaitResponse |}
              answer) as [_ Hdrop].
  - vm_compute. reflexivity.
  - vm_compute. reflexivity.
  - reflexivity.
  - exact (Hdrop eq_refl).
Defined.

(* ================================================================== *)
(** * Further properties *)

(** ** Words, case and white space *)
Section WordsAndCase.

Import Words.
Local Arguments String.append !_ _ : simpl nomatch.

Lemma words_decompose s :
  words s
  = (if Js.isEmpty (firstPiece s) then [] else [firstPiece s]) ++ laterWords s.
Proof.
  unfold words, firstPiece, laterWords.
  pose proof (splitOn_not_nil Js.isWhiteSpace s) as Hne.
  destruct (Js.splitOn Js.isWhiteSpace s) as [|w l]; [done|]. simpl.
  rewrite filter_cons. by destruct w.
Qed.

Lemma blank_pieces b :
  blank b → firstPiece b = EmptyString ∧ laterWords b = [].
Proof.
  intros Hb. destruct b as [|c r]; [done|].
  unfold blank in Hb. simpl in Hb. apply andb_prop in Hb as [Hc Hr].
  rewrite firstPiece_ws, laterWords_ws by done.
  split; [done|]. by apply words_blank.
Qed.

Lemma pieces_app_blank s b :
  blank b →
  firstPiece (s ++ b) = firstPiece s ∧ laterWords (s ++ b) = laterWords s.
Proof.
  intros Hb. induction s as [|c r [IH1 IH2]].
  - simpl. by apply blank_pieces.
  - simpl. destruct (Js.isWhiteSpace c) eqn:Hc.
    + rewrite !firstPiece_ws, !laterWords_ws by done. split; [done|].
      by rewrite !words_decompose, IH1, IH2.
    + rewrite !firstPiece_char, !laterWords_char by done.
      by rewrite IH1, IH2.
Qed.

Lemma words_app_blank_r s b : blank b → words (s ++ b) = words s.
Proof.
  intros Hb. destruct (pieces_app_blank s b Hb) as [H1 H2].
  by rewrite !words_decompose, H1, H2.
Qed.

Lemma words_app_blank_l a s : blank a → words (a ++ s) = words s.
Proof.
  induction a as [|c r IH]; [done|]. unfold blank. simpl.
  intros [Hc Hr]%andb_prop. rewrite words_ws by done. by apply IH.
Qed.

Lemma lowerChar_white c : Js.isWhiteSpace (Js.lowerChar c) = Js.isWhiteSpace c.
Proof. destruct c as [[] [] [] [] [] [] [] []]; reflexivity. Qed.

Lemma lowerChar_idem c : Js.lowerChar (Js.lowerChar c) = Js.lowerChar c.
Proof. destruct c as [[] [] [] [] [] [] [] []]; reflexivity. Qed.

Lemma toLowerCase_idem s : Js.toLowerCase (Js.toLowerCase s) = Js.toLowerCase s.
Proof.
  induction s as [|c r IH]; [done|]. simpl. by rewrite lowerChar_idem, IH.
Qed.

Lemma toLowerCase_length s : String.length (Js.toLowerCase s) = String.length s.
Proof. induction s as [|c r IH]; [done|]. simpl. by rewrite IH. Qed.

Lemma splitOn_toLowerCase s :
  Js.splitOn Js.isWhiteSpace (Js.toLowerCase s)
  = map Js.toLowerCase (Js.splitOn Js.isWhiteSpace s).
Proof.
  induction s as [|c r IH]; [done|]. simpl.
  rewrite lowerChar_white, IH.
  destruct (Js.isWhiteSpace c); [done|].
  by destruct (Js.splitOn Js.isWhiteSpace r).
Qed.

Lemma words_toLowerCase s :
  words (Js.toLowerCase s) = map Js.toLowerCase (words s).
Proof.
  unfold words. rewrite splitOn_toLowerCase.
  induction (Js.splitOn Js.isWhiteSpace s) as [|w l IH]; [done|].
  simpl. rewrite !filter_cons, IH. by destruct w.
Qed.

Lemma normalize_toLowerCase w :
  normalizeTranscriptWord (Js.toLowerCase w) = normalizeTranscriptWord w.
Proof. unfold normalizeTranscriptWord. by rewrite toLowerCase_idem. Qed.

Lemma shouldIgnore_toLowerCase s :
  shouldIgnoreTranscriptForResponse (Js.toLowerCase s)
  = shouldIgnoreTranscriptForResponse s.
Proof.
  rewrite !shouldIgnore_words, words_toLowerCase.
  destruct (words s) as [|w [|w' l]]; [done| |done]. simpl.
  by rewrite normalize_toLowerCase, toLowerCase_length.
Qed.

Lemma extract_toLowerCase s :
  extractTopicKeywords (Js.toLowerCase s) = extractTopicKeywords s.
Proof.
  rewrite !extractTopicKeywords_words, words_toLowerCase, map_map.
  do 2 f_equal. apply map_ext. intros w. apply normalize_toLowerCase.
Qed.

Lemma shouldIgnore_same_words s1 s2 :
  words s1 = words s2 →
  shouldIgnoreTranscriptForResponse s1 = shouldIgnoreTranscriptForResponse s2.
Proof. intros Hw. by rewrite !shouldIgnore_words, Hw. Qed.

Lemma extract_same_words s1 s2 :
  words s1 = words s2 → extractTopicKeywords s1 = extractTopicKeywords s2.
Proof. intros Hw. by rewrite !extractTopicKeywords_words, Hw. Qed.

End WordsAndCase.

(** X1: [transcript.trim().replace(/\s+/g, " ")] is the transcript's words
    joined by one space each; it is empty exactly for a blank transcript,
    and otherwise [split(" ")] gives back exactly the words, none of them
    empty and none containing white space. *)
Theorem compact_transcript_tokens (transcript : string) :
  let compact := Js.collapseWhiteSpace (Js.trim transcript) in
  compact = String.concat " " (Words.words transcript)
  ∧ (Js.isEmpty compact = true ↔ Words.blank transcript)
  ∧ match Words.words transcript with
    | [] => True
    | tokens => Js.splitSpace compact = tokens
    end
  ∧ Forall (fun w => w ≠ EmptyString ∧ Words.whiteFree w)
      (Words.words transcript).
Proof.
  intros compact. subst compact.
  pose proof (tokens_words transcript) as Ht.
  split; [apply compact_words|]. split; [|split].
  - rewrite words_blank.
    destruct (Words.words transcript) as [|w l]; [by rewrite Ht|].
    destruct Ht as [-> _]. done.
  - destruct (Words.words transcript) as [|w l]; [done|]. by destruct Ht.
  - apply Forall_and. split; [apply words_nonEmpty|apply words_whiteFree].
Qed.

(** X2: the short-utterance filter and the keyword extraction do not
    depend on the case of the letters, nor on white space before or after
    the transcript. *)
Theorem transcript_case_and_padding_ignored (before after s1 s2 : string) :
  Words.blank before →
  Words.blank after →
  Js.toLowerCase s1 = Js.toLowerCase s2 →
  shouldIgnoreTranscriptForResponse (before ++ s1 ++ after)
  = shouldIgnoreTranscriptForResponse s2
  ∧ extractTopicKeywords (before ++ s1 ++ after) = extractTopicKeywords s2.
Proof.
  intros Hb Ha Hcase.
  assert (Words.words (before ++ s1 ++ after) = Words.words s1) as Hw.
  { rewrite words_app_blank_l by done. by apply words_app_blank_r. }
  rewrite (shouldIgnore_same_words _ _ Hw), (extract_same_words _ _ Hw).
  rewrite <- (shouldIgnore_toLowerCase s1), <- (extract_toLowerCase s1), Hcase.
  by rewrite shouldIgnore_toLowerCase, extract_toLowerCase.
Qed.

Lemma transcript_case_and_padding_ignored_witness :
  shouldIgnoreTranscriptForResponse ("  " ++ "UM" ++ " ")
  = shouldIgnoreTranscriptForResponse "um"
  ∧ extractTopicKeywords ("  " ++ "UM" ++ " ") = extractTopicKeywords "um".
Proof.
  apply (transcript_case_and_padding_ignored "  " " " "UM" "um"); reflexivity.
Defined.

(** ** Keywords *)
Section Keywords.

Import Words.
Local Arguments String.append !_ _ : simpl nomatch.

Lemma insertAll_spec seen l :
  NoDup (Js.insertAll seen l)
  ∧ ∀ x, x ∈ Js.insertAll seen l ↔ x ∈ l ∧ x ∉ seen.
Proof.
  revert seen. induction l as [|y r IH]; intros seen; simpl.
  - split; [constructor|]. intros x. split; [by intros ?%elem_of_nil|].
    by intros [?%elem_of_nil _].
  - unfold Js.has. destruct (bool_decide_reflect (y ∈ seen)) as [Hy|Hy].
    + destruct (IH seen) as [Hnd Hel]. split; [done|]. intros x.
      rewrite Hel, elem_of_cons. split; [tauto|].
      intros [[->|Hx] Hn]; [done|tauto].
    + destruct (IH (y :: seen)) as [Hnd Hel]. split.
      * constructor; [|done]. rewrite Hel, elem_of_cons. tauto.
      * intros x. rewrite !elem_of_cons, Hel, elem_of_cons.
        split.
        -- intros [->|[Hx Hn]]; [tauto|]. tauto.
        -- intros [[->|Hx] Hn]; [tauto|].
           destruct (decide (x = y)) as [->|Hne]; tauto.
Qed.

Lemma insertAll_sublist seen l : Js.insertAll seen l `sublist_of` l.
Proof.
  revert seen. induction l as [|y r IH]; intros seen; simpl; [done|].
  destruct (Js.has seen y); [apply sublist_cons|apply sublist_skip]; apply IH.
Qed.

Lemma insertAll_proper seen seen' l :
  (∀ x, x ∈ seen ↔ x ∈ seen') → Js.insertAll seen l = Js.insertAll seen' l.
Proof.
  revert seen seen'. induction l as [|y r IH]; intros seen seen' Hs; [done|].
  simpl. unfold Js.has.
  rewrite (bool_decide_ext (y ∈ seen) (y ∈ seen')) by apply Hs.
  destruct (bool_decide (y ∈ seen')); [by apply IH|].
  f_equal. apply IH. intros x. rewrite !elem_of_cons, Hs. done.
Qed.

Lemma insertAll_filter extra seen l :
  Js.insertAll (extra ++ seen) l
  = filter (fun k => k ∉ extra) (Js.insertAll seen l).
Proof.
  revert seen. induction l as [|y r IH]; intros seen; [done|].
  simpl. unfold Js.has.
  destruct (bool_decide_reflect (y ∈ seen)) as [Hy|Hy].
  - rewrite bool_decide_true by (apply elem_of_app; tauto). apply IH.
  - rewrite filter_cons. destruct (decide (y ∉ extra)) as [Hn|Hn].
    + rewrite bool_decide_false by (rewrite elem_of_app; tauto).
      f_equal. rewrite <- IH. apply insertAll_proper. intros x.
      rewrite !elem_of_cons, !elem_of_app, elem_of_cons. tauto.
    + assert (y ∈ extra) as Hin by (destruct (decide (y ∈ extra)); tauto).
      rewrite bool_decide_true by (apply elem_of_app; tauto).
      rewrite <- IH. apply insertAll_proper. intros x.
      rewrite !elem_of_app, elem_of_cons. split; [tauto|].
      intros [?|[->|?]]; tauto.
Qed.

Lemma insertAll_NoDup seen l :
  NoDup l → (∀ x, x ∈ l → x ∉ seen) → Js.insertAll seen l = l.
Proof.
  revert seen. induction l as [|y r IH]; intros seen Hnd Hs; [done|].
  apply NoDup_cons in Hnd as [Hy Hnd]. simpl. unfold Js.has.
  rewrite bool_decide_false by (apply Hs; by left).
  f_equal. apply IH; [done|]. intros x Hx [->|Hin]%elem_of_cons; [done|].
  apply (Hs x); [by right|done].
Qed.

Lemma firstOccurrences_spec l :
  NoDup (firstOccurrences l)
  ∧ (∀ x, x ∈ firstOccurrences l ↔ x ∈ l)
  ∧ firstOccurrences l `sublist_of` l.
Proof.
  rewrite <- arrayFromSet_firstOccurrences. unfold Js.arrayFromSet.
  destruct (insertAll_spec [] l) as [Hnd Hel].
  split; [done|]. split; [|apply insertAll_sublist].
  intros x. rewrite Hel. split; [tauto|]. intros Hx. split; [done|].
  by intros ?%elem_of_nil.
Qed.

Lemma firstOccurrences_NoDup l : NoDup l → firstOccurrences l = l.
Proof.
  intros Hnd. rewrite <- arrayFromSet_firstOccurrences.
  apply insertAll_NoDup; [done|]. intros x _. by intros ?%elem_of_nil.
Qed.

Lemma allChars_dropStart q p s :
  Js.allChars q s = true → Js.allChars q (Js.dropStart p s) = true.
Proof.
  induction s as [|c r IH]; [done|]. simpl. intros [Hc Hr]%andb_prop.
  destruct (p c); [by apply IH|]. simpl. by rewrite Hc, Hr.
Qed.

Lemma allChars_dropEnd q p s :
  Js.allChars q s = true → Js.allChars q (Js.dropEnd p s) = true.
Proof.
  induction s as [|c r IH]; [done|]. simpl. intros [Hc Hr]%andb_prop.
  destruct (p c && Js.isEmpty (Js.dropEnd p r)); [done|].
  simpl. by rewrite Hc, IH.
Qed.

Lemma allChars_strip q s :
  Js.allChars q s = true → Js.allChars q (Js.stripNonAlnum s) = true.
Proof. intros Hs. by apply allChars_dropEnd, allChars_dropStart. Qed.

Lemma toLowerCase_lowerFixed s :
  Js.allChars lowerFixed (Js.toLowerCase s) = true.
Proof.
  induction s as [|c r IH]; [done|]. simpl. rewrite IH, andb_true_r.
  unfold lowerFixed. rewrite lowerChar_idem. apply Ascii.eqb_refl.
Qed.

Lemma lowerFixed_toLowerCase s :
  Js.allChars lowerFixed s = true → Js.toLowerCase s = s.
Proof.
  induction s as [|c r IH]; [done|]. simpl. intros [Hc Hr]%andb_prop.
  apply Ascii.eqb_eq in Hc. by rewrite Hc, IH.
Qed.

Lemma toLowerCase_whiteFree s : whiteFree s → whiteFree (Js.toLowerCase s).
Proof.
  unfold whiteFree. induction s as [|c r IH]; [done|]. simpl.
  intros [Hc Hr]%andb_prop. by rewrite lowerChar_white, Hc, IH.
Qed.

Lemma dropEnd_idem p s : Js.dropEnd p (Js.dropEnd p s) = Js.dropEnd p s.
Proof.
  induction s as [|c r IH]; [done|]. simpl.
  destruct (p c && Js.isEmpty (Js.dropEnd p r)) eqn:Hc; [done|].
  simpl. by rewrite IH, Hc.
Qed.

Lemma dropStart_kept p c r : p c = false → Js.dropStart p (String c r) = String c r.
Proof. intros Hc. simpl. by rewrite Hc. Qed.

Lemma dropBoth_idem p s :
  Js.dropEnd p (Js.dropStart p (Js.dropEnd p (Js.dropStart p s)))
  = Js.dropEnd p (Js.dropStart p s).
Proof.
  destruct (dropStart_head p s) as [->|(c & r & -> & Hc)]; [done|].
  assert (∃ r', Js.dropEnd p (String c r) = String c r') as [r' Hr].
  { simpl. rewrite Hc. simpl. eauto. }
  rewrite Hr, dropStart_kept by done.
  rewrite <- Hr. apply dropEnd_idem.
Qed.

Lemma stripNonAlnum_idem s :
  Js.stripNonAlnum (Js.stripNonAlnum s) = Js.stripNonAlnum s.
Proof. apply dropBoth_idem. Qed.

Lemma trim_idem s : Js.trim (Js.trim s) = Js.trim s.
Proof. apply dropBoth_idem. Qed.

Lemma normalizeTopicKeyword_idem w :
  normalizeTopicKeyword (normalizeTopicKeyword w) = normalizeTopicKeyword w.
Proof.
  unfold normalizeTopicKeyword.
  rewrite (lowerFixed_toLowerCase (Js.stripNonAlnum _)).
  - apply stripNonAlnum_idem.
  - apply allChars_strip, toLowerCase_lowerFixed.
Qed.

Lemma normalizeTopicKeyword_whiteFree w :
  whiteFree w → whiteFree (normalizeTopicKeyword w).
Proof.
  intros Hw. unfold normalizeTopicKeyword, whiteFree.
  apply allChars_strip. by apply toLowerCase_whiteFree.
Qed.

Lemma extract_elem transcript k :
  k ∈ extractTopicKeywords transcript
  ↔ keptKeyword k ∧ ∃ w, w ∈ words transcript ∧ normalizeTopicKeyword w = k.
Proof.
  rewrite extractTopicKeywords_words.
  destruct (firstOccurrences_spec
              (filter keptKeyword (map normalizeTopicKeyword (words transcript))))
    as (_ & Hel & _).
  rewrite Hel, list_elem_of_filter, list_elem_of_fmap.
  split; intros [Hk (w & H1 & H2)]; (split; [done|]); exists w; done.
Qed.

Lemma extract_NoDup transcript : NoDup (extractTopicKeywords transcript).
Proof. rewrite extractTopicKeywords_words. apply firstOccurrences_spec. Qed.

Lemma whiteFree_nonEmpty_pieces w s :
  whiteFree w →
  firstPiece (w ++ s) = (w ++ firstPiece s)%string
  ∧ laterWords (w ++ s) = laterWords s.
Proof.
  unfold whiteFree. induction w as [|c r IH]; [done|]. simpl.
  intros [Hc Hr]%andb_prop. apply negb_true_iff in Hc.
  rewrite firstPiece_char, laterWords_char by done.
  destruct (IH Hr) as [-> ->]. done.
Qed.

Lemma words_concat l :
  Forall (fun w => w ≠ EmptyString ∧ whiteFree w) l →
  words (String.concat " " l) = l.
Proof.
  induction l as [|w l IH]; [done|]. intros [[Hne Hw] Hl]%Forall_cons.
  rewrite concat_cons, words_decompose.
  destruct (whiteFree_nonEmpty_pieces w
              (match l with [] => EmptyString | _ => (" " ++ String.concat " " l)%string end)
              Hw) as [-> ->].
  destruct l as [|w' l'].
  - rewrite append_empty_r. by destruct w.
  - change (" " ++ String.concat " " (w' :: l'))%string
      with (String " " (String.concat " " (w' :: l'))).
    rewrite firstPiece_ws, laterWords_ws by done.
    rewrite append_empty_r, IH by done. by destruct w.
Qed.

Lemma kept_nonEmpty k : keptKeyword k → k ≠ EmptyString.
Proof. intros [Hlen _] ->. simpl in Hlen. lia. Qed.

Lemma filter_all {A} (P : A → Prop) `{∀ x, Decision (P x)} (l : list A) :
  Forall P l → filter P l = l.
Proof.
  induction l as [|x l IH]; [done|]. intros [Hx Hl]%Forall_cons.
  rewrite filter_cons, decide_True by done. by rewrite IH.
Qed.

Lemma mergeLoop_take merged seen keywords :
  mergeLoop merged seen keywords
  = merged
    ++ take (Nat.max 1 (SINGLE_TOPIC_ANCHOR_KEYWORD_LIMIT - length merged))
         (Js.insertAll seen keywords).
Proof.
  unfold SINGLE_TOPIC_ANCHOR_KEYWORD_LIMIT.
  revert merged seen. induction keywords as [|k rest IH]; intros merged seen.
  - simpl. by rewrite take_nil, app_nil_r.
  - cbn [mergeLoop Js.insertAll]. destruct (Js.has seen k); [apply IH|].
    unfold SINGLE_TOPIC_ANCHOR_KEYWORD_LIMIT.
    rewrite length_app. cbn [length].
    destruct (Nat.leb_spec 16 (length merged + 1)) as [Hfull|Hroom].
    + replace (Nat.max 1 (16 - length merged)) with 1%nat by lia. done.
    + rewrite IH, length_app. cbn [length].
      replace (Nat.max 1 (16 - length merged))
        with (S (Nat.max 1 (16 - (length merged + 1)))) by lia.
      cbn [take]. by rewrite <- app_assoc.
Qed.

End Keywords.

(** X3: the keywords of a transcript are pairwise distinct; a text is a
    keyword exactly when it is the normal form of a word of the transcript,
    has at least three characters, is not made of digits only and is not a
    stop word; every keyword contains no white space and is its own normal
    form; and the keywords appear in the order of the words they come
    from. *)
Theorem topic_keywords_normal_form (transcript : string) :
  NoDup (extractTopicKeywords transcript)
  ∧ (∀ k, k ∈ extractTopicKeywords transcript
          ↔ keptKeyword k
            ∧ ∃ w, w ∈ Words.words transcript ∧ normalizeTopicKeyword w = k)
  ∧ Forall (fun k => normalizeTopicKeyword k = k ∧ Words.whiteFree k)
      (extractTopicKeywords transcript)
  ∧ extractTopicKeywords transcript
    `sublist_of` map normalizeTopicKeyword (Words.words transcript).
Proof.
  split; [apply extract_NoDup|]. split; [apply extract_elem|]. split.
  - apply Forall_forall. intros k (_ & w & Hw & <-)%extract_elem.
    split; [apply normalizeTopicKeyword_idem|].
    apply normalizeTopicKeyword_whiteFree.
    by apply (proj1 (Forall_forall _ _) (words_whiteFree transcript)).
  - rewrite extractTopicKeywords_words.
    etrans; [apply firstOccurrences_spec|]. apply sublist_filter.
Qed.

(** X4: the keywords of a transcript, joined by spaces and read as a
    transcript again, give the same keywords. *)
Theorem topic_keywords_round_trip (transcript : string) :
  extractTopicKeywords (String.concat " " (extractTopicKeywords transcript))
  = extractTopicKeywords transcript.
Proof.
  set (K := extractTopicKeywords transcript).
  assert (Forall (fun k => keptKeyword k ∧ normalizeTopicKeyword k = k
                           ∧ Words.whiteFree k) K) as HK.
  { apply Forall_forall. intros k Hk.
    pose proof (proj1 (extract_elem transcript k) Hk) as (Hkept & w & Hw & <-).
    split; [done|]. split; [apply normalizeTopicKeyword_idem|].
    apply normalizeTopicKeyword_whiteFree.
    by apply (proj1 (Forall_forall _ _) (words_whiteFree transcript)). }
  rewrite extractTopicKeywords_words, words_concat.
  - assert (map normalizeTopicKeyword K = K) as ->.
    { clear -HK. induction K as [|k K IH]; [done|].
      apply Forall_cons in HK as [(_ & Hk & _) HK]. simpl.
      by rewrite Hk, IH. }
    rewrite filter_all by (eapply Forall_impl; [exact HK|]; by intros k [? _]).
    apply firstOccurrences_NoDup, extract_NoDup.
  - eapply Forall_impl; [exact HK|]. intros k (Hk & _ & Hw).
    split; [by apply kept_nonEmpty|done].
Qed.

(** X5: the threshold [Math.max(1, Math.floor(minKeywords || 1))]: NaN,
    zero, negative infinity and every finite value below 2 act as 1, a
    finite value acts as its floor, and with positive infinity every
    utterance is allowed and none establishes an anchor. *)
Theorem min_keywords_threshold_normal_form
    (transcript : string) (anchorKeywords : list string) (minKeywords : number) :
  evaluateSingleTopicTranscript transcript anchorKeywords minKeywords
  = match minKeywords with
    | PosInfinity =>
        {| allow := true; establishAnchor := false;
           transcriptKeywords := extractTopicKeywords transcript;
           overlapKeywords := [] |}
    | Finite q =>
        evaluateSingleTopicTranscript transcript anchorKeywords
          (Finite (inject_Z (Z.max 1 (Qfloor q))))
    | NaN | NegInfinity =>
        evaluateSingleTopicTranscript transcript anchorKeywords (Finite 1)
    end.
Proof.
  destruct minKeywords as [| | |q]; try reflexivity.
  unfold evaluateSingleTopicTranscript.
  rewrite !minKeywords_threshold, Qfloor_Z.
  by rewrite (Z.max_r 1 (Z.max 1 _)) by lia.
Qed.

(** X6: what a decision of the topic guard implies, for every threshold:
    overlap keywords are keywords of the utterance that are in the anchor;
    an utterance establishes an anchor only when there is none and it has
    a keyword, and is then allowed; an utterance is refused only when
    there is an anchor, the utterance has keywords and none of them is in
    the anchor; an utterance without keywords is allowed and establishes
    nothing. *)
Theorem topic_decision_consequences
    (transcript : string) (anchorKeywords : list string) (minKeywords : number) :
  let d := evaluateSingleTopicTranscript transcript anchorKeywords minKeywords in
  transcriptKeywords d = extractTopicKeywords transcript
  ∧ (∀ k, k ∈ overlapKeywords d →
          k ∈ extractTopicKeywords transcript ∧ k ∈ anchorKeywords)
  ∧ (establishAnchor d = true →
     allow d = true ∧ anchorKeywords = []
     ∧ extractTopicKeywords transcript ≠ [])
  ∧ (allow d = false →
     anchorKeywords ≠ [] ∧ extractTopicKeywords transcript ≠ []
     ∧ ∀ k, k ∈ extractTopicKeywords transcript → k ∉ anchorKeywords)
  ∧ (extractTopicKeywords transcript = [] →
     allow d = true ∧ establishAnchor d = false).
Proof.
  intros d. subst d. unfold evaluateSingleTopicTranscript.
  set (K := extractTopicKeywords transcript).
  set (th := mathMaxOne (mathFloor (orOne minKeywords))).
  assert (lengthLt (length K) th = false → K ≠ []) as Hpos.
  { intros Hlt ->. subst th.
    destruct minKeywords as [| | |q]; try done.
    rewrite minKeywords_threshold in Hlt. simpl in Hlt.
    apply Z.ltb_ge in Hlt. lia. }
  destruct (lengthLt (length K) th) eqn:Hlt; simpl.
  { split; [done|]. split; [by intros k ?%elem_of_nil|]. by repeat split. }
  specialize (Hpos eq_refl).
  destruct anchorKeywords as [|a anchor]; simpl.
  { split; [done|]. split; [by intros k ?%elem_of_nil|].
    split; [done|]. split; [done|]. done. }
  split; [done|]. split; [|split; [done|split]].
  - intros k [Hk1 Hk2]%list_elem_of_filter. split; [done|].
    unfold Js.has in Hk1. by apply bool_decide_eq_true in Hk1.
  - intros Hno. split; [done|]. split; [done|]. intros k Hk Hin.
    apply Nat.ltb_ge in Hno.
    assert (k ∈ filter (fun keyword => Js.has (a :: anchor) keyword = true) K)
      as Hf.
    { apply list_elem_of_filter. split; [|done]. unfold Js.has.
      by apply bool_decide_eq_true. }
    destruct (filter (fun keyword => Js.has (a :: anchor) keyword = true) K);
      [by apply elem_of_nil in Hf|simpl in Hno; lia].
  - intros HK. by rewrite HK in Hpos.
Qed.

(** X7: merging appends to the anchor the utterance's keywords that the
    anchor does not hold, each once and in the order of their first
    occurrence, and stops after the one that brings the anchor to the
    limit of 16, or after the first one when the anchor has already 15 or
    more; a duplicate-free anchor stays duplicate free. *)
Theorem merge_appends_new_keywords (anchorKeywords transcriptKeywords : list string) :
  mergeTopicKeywords anchorKeywords transcriptKeywords
  = anchorKeywords
    ++ take (Nat.max 1 (SINGLE_TOPIC_ANCHOR_KEYWORD_LIMIT - length anchorKeywords))
         (filter (fun k => k ∉ anchorKeywords)
            (Words.firstOccurrences transcriptKeywords))
  ∧ (NoDup anchorKeywords →
     NoDup (mergeTopicKeywords anchorKeywords transcriptKeywords)).
Proof.
  assert (mergeTopicKeywords anchorKeywords transcriptKeywords
          = anchorKeywords
            ++ take (Nat.max 1 (SINGLE_TOPIC_ANCHOR_KEYWORD_LIMIT
                                - length anchorKeywords))
                 (filter (fun k => k ∉ anchorKeywords)
                    (Words.firstOccurrences transcriptKeywords))) as Heq.
  { unfold mergeTopicKeywords. rewrite mergeLoop_take.
    rewrite <- arrayFromSet_firstOccurrences. unfold Js.arrayFromSet.
    rewrite <- insertAll_filter. by rewrite app_nil_r. }
  split; [done|]. intros Hnd. rewrite Heq.
  destruct (firstOccurrences_spec transcriptKeywords) as (Hf & _ & _).
  apply NoDup_app. split; [done|]. split.
  - intros k Hk Hin. apply elem_of_take in Hin as (i & Hin & _).
    apply list_elem_of_lookup_2 in Hin.
    apply list_elem_of_filter in Hin as [Hn _]. by apply Hn.
  - apply (sublist_NoDup _ (Words.firstOccurrences transcriptKeywords));
      [done|].
    etrans; [apply sublist_take|]. apply sublist_filter.
Qed.

(** ** The topic guard and the state of a call *)
Section TopicState.

Import Webhook.

Lemma evaluate_keywords transcript anchor threshold :
  transcriptKeywords (evaluateSingleTopicTranscript transcript anchor threshold)
  = extractTopicKeywords transcript.
Proof.
  unfold evaluateSingleTopicTranscript.
  destruct (lengthLt _ _); [done|]. by destruct (_ =? _)%nat.
Qed.

Lemma evaluate_establish_allow transcript anchor threshold :
  establishAnchor (evaluateSingleTopicTranscript transcript anchor threshold)
  = true →
  allow (evaluateSingleTopicTranscript transcript anchor threshold) = true.
Proof.
  unfold evaluateSingleTopicTranscript.
  destruct (lengthLt _ _); [done|]. by destruct (_ =? _)%nat.
Qed.

Lemma evaluate_refused transcript anchor threshold :
  allow (evaluateSingleTopicTranscript transcript anchor threshold) = false →
  anchor ≠ []
  ∧ ∀ k, k ∈ extractTopicKeywords transcript → k ∉ anchor.
Proof.
  unfold evaluateSingleTopicTranscript.
  destruct (lengthLt _ _); [done|].
  destruct anchor as [|a anchor]; [done|]. simpl.
  intros Hno%Nat.ltb_ge. split; [done|]. intros k Hk Hin.
  assert (k ∈ filter (fun keyword => Js.has (a :: anchor) keyword = true)
                (extractTopicKeywords transcript)) as Hf.
  { apply list_elem_of_filter. split; [|done]. unfold Js.has.
    by apply bool_decide_eq_true. }
  destruct (filter (fun keyword => Js.has (a :: anchor) keyword = true)
              (extractTopicKeywords transcript));
    [by apply elem_of_nil in Hf|simpl in Hno; lia].
Qed.

Lemma mark_dead s callId :
  noGenerationCurrent (markResponseDisconnected s callId) callId.
Proof.
  intros g. unfold isVoiceResponseGenerationCurrent, markResponseDisconnected.
  destruct (pendingResponses s !! callId) as [st|] eqn:Hst.
  - simpl. by rewrite lookup_insert_eq.
  - by rewrite Hst.
Qed.

Lemma clearTopic_dead s callId c :
  noGenerationCurrent s c → noGenerationCurrent (clearSingleTopicState s callId) c.
Proof. intros Hs g. apply (Hs g). Qed.

Lemma refused_result config warningResult endResult s callId transcript topic :
  singleTopic config = Some topic →
  singleTopicEnabled topic = true →
  let existing :=
    default {| anchorKeywords := []; driftCount := 0 |}
      (singleTopicStates s !! callId) in
  allow (evaluateSingleTopicTranscript transcript (anchorKeywords existing)
           (minKeywords topic)) = false →
  let s1 :=
    setSingleTopicStates s
      (<[callId := {| anchorKeywords := anchorKeywords existing;
                      driftCount := (driftCount existing + 1)%nat |}]>
         (singleTopicStates s)) in
  ∃ out,
    shouldAutoRespondToTranscript config warningResult endResult s callId
      transcript
    = (if endCallOnDrift topic
          && (maxDriftCount topic <=? driftCount existing + 1)%nat
       then clearSingleTopicState (markResponseDisconnected s1 callId) callId
       else s1, out, false)
    ∧ filter (fun e => isSpeak e = true) out
      = (let warningMessage :=
           match warningMessage topic with
           | Some m => Js.trim m
           | None => EmptyString
           end in
         if (0 <? String.length warningMessage)%nat
         then [ESpeak callId warningMessage false None] else [])
    ∧ filter (fun e => isEndCall e = true) out
      = (if endCallOnDrift topic
            && (maxDriftCount topic <=? driftCount existing + 1)%nat
         then [EEndCall callId] else []).
Proof.
  intros Htopic Hen existing Hallow s1.
  unfold shouldAutoRespondToTranscript. rewrite Htopic, Hen.
  cbn [negb]. fold existing.
  destruct (establishAnchor _) eqn:Hest.
  { apply evaluate_establish_allow in Hest. by rewrite Hest in Hallow. }
  rewrite Hallow. cbn [orb]. fold s1.
  destruct (endCallOnDrift topic
            && (maxDriftCount topic <=? driftCount existing + 1)%nat);
    eexists; (split; [reflexivity|]);
    destruct (0 <? String.length _)%nat;
    destruct (success warningResult), (success endResult); done.
Qed.

End TopicState.

(** X8: with the topic guard enabled, an utterance that may be answered
    leaves the call with drift count 0 and with the old anchor extended by
    the utterance's keywords, whether or not the utterance had enough
    keywords to establish an anchor; with no anchor before, the anchor is
    the first 16 keywords of the utterance.  Nothing is spoken, no call is
    ended, and no other call's topic state and no pending response
    changes. *)
Theorem allowed_utterance_extends_anchor
    (config : Webhook.VoiceCallConfig)
    (warningResult endResult : Webhook.CommandResult)
    (s : Webhook.Server) (callId transcript : string)
    (topic : Webhook.SingleTopicConfig) :
  Webhook.singleTopic config = Some topic →
  Webhook.singleTopicEnabled topic = true →
  let existing :=
    default {| Webhook.anchorKeywords := []; Webhook.driftCount := 0 |}
      (Webhook.singleTopicStates s !! callId) in
  let result :=
    Webhook.shouldAutoRespondToTranscript config warningResult endResult s
      callId transcript in
  result.2 = true →
  Webhook.singleTopicStates result.1.1 !! callId
  = Some {| Webhook.anchorKeywords :=
              mergeTopicKeywords (Webhook.anchorKeywords existing)
                (extractTopicKeywords transcript);
            Webhook.driftCount := 0 |}
  ∧ (Webhook.anchorKeywords existing = [] →
     Webhook.singleTopicStates result.1.1 !! callId
     = Some {| Webhook.anchorKeywords :=
                 take SINGLE_TOPIC_ANCHOR_KEYWORD_LIMIT
                   (extractTopicKeywords transcript);
               Webhook.driftCount := 0 |})
  ∧ (∀ other, other ≠ callId →
       Webhook.singleTopicStates result.1.1 !! other
       = Webhook.singleTopicStates s !! other)
  ∧ Webhook.pendingResponses result.1.1 = Webhook.pendingResponses s
  ∧ Forall (fun e => Webhook.isSpeak e = false ∧ isEndCall e = false)
      result.1.2.
Proof.
  intros Htopic Hen existing result Hres. subst result.
  unfold Webhook.shouldAutoRespondToTranscript in *.
  rewrite Htopic, Hen in *. cbn [negb] in *. fold existing in Hres |- *.
  destruct (establishAnchor _ || allow _) eqn:Hok.
  - cbn [fst snd]. rewrite evaluate_keywords.
    assert (Webhook.singleTopicStates
              (Webhook.setSingleTopicStates s
                 (<[callId := {| Webhook.anchorKeywords :=
                                   mergeTopicKeywords
                                     (Webhook.anchorKeywords existing)
                                     (extractTopicKeywords transcript);
                                 Webhook.driftCount := 0 |}]>
                    (Webhook.singleTopicStates s))) !! callId
            = Some {| Webhook.anchorKeywords :=
                        mergeTopicKeywords (Webhook.anchorKeywords existing)
                          (extractTopicKeywords transcript);
                      Webhook.driftCount := 0 |}) as Hstate.
    { simpl. by rewrite lookup_insert_eq. }
    split; [exact Hstate|]. split; [|split; [|split]].
    + intros Hnone. rewrite Hstate, Hnone. do 2 f_equal.
      unfold mergeTopicKeywords. rewrite mergeLoop_take.
      rewrite insertAll_NoDup; [done|apply extract_NoDup|].
      intros x _. by intros ?%elem_of_nil.
    + intros other Hne. simpl. by rewrite lookup_insert_ne.
    + done.
    + clear Hres Hstate.
      match goal with |- context [if ?b then _ else _] => destruct b end;
        by repeat constructor.
  - exfalso. revert Hres.
    by destruct (Webhook.endCallOnDrift topic && _).
Qed.

Lemma allowed_utterance_extends_anchor_witness :
  let config :=
    {| Webhook.singleTopic :=
         Some {| Webhook.singleTopicEnabled := true;
                 Webhook.minKeywords := Finite 3;
                 Webhook.warningMessage := None;
                 Webhook.endCallOnDrift := true;
                 Webhook.maxDriftCount := 2 |};
       Webhook.responseCues := None; Webhook.coreConfig := true |} in
  let result :=
    Webhook.shouldAutoRespondToTranscript config
      {| Webhook.success := true; Webhook.commandError := None |}
      {| Webhook.success := true; Webhook.commandError := None |}
      Webhook.newServer "c1" "my invoice" in
  Webhook.singleTopicStates result.1.1 !! "c1"
  = Some {| Webhook.anchorKeywords := ["invoice"]; Webhook.driftCount := 0 |}.
Proof.
  intros config result.
  pose proof (allowed_utterance_extends_anchor config
                {| Webhook.success := true; Webhook.commandError := None |}
                {| Webhook.success := true; Webhook.commandError := None |}
                Webhook.newServer "c1" "my invoice"
                {| Webhook.singleTopicEnabled := true;
                   Webhook.minKeywords := Finite 3;
                   Webhook.warningMessage := None;
                   Webhook.endCallOnDrift := true;
                   Webhook.maxDriftCount := 2 |}
                eq_refl eq_refl eq_refl) as [H _].
  exact H.
Defined.

(** X9: with the topic guard enabled, an utterance is refused only for a
    call that has an anchor none of whose keywords the utterance has.  The
    only thing spoken is the trimmed warning message, when it is not
    empty, and it is not recorded in the transcript.  When the call is to
    be ended on drift and the drift count reaches its maximum, the call is
    ended once, its topic state is removed and no generation of the call
    is current any more; otherwise the anchor is kept, the drift count
    goes up by one, no call is ended and no pending response changes. *)
Theorem refused_utterance_counts_drift
    (config : Webhook.VoiceCallConfig)
    (warningResult endResult : Webhook.CommandResult)
    (s : Webhook.Server) (callId transcript : string)
    (topic : Webhook.SingleTopicConfig) :
  Webhook.singleTopic config = Some topic →
  Webhook.singleTopicEnabled topic = true →
  let existing :=
    default {| Webhook.anchorKeywords := []; Webhook.driftCount := 0 |}
      (Webhook.singleTopicStates s !! callId) in
  let result :=
    Webhook.shouldAutoRespondToTranscript config warningResult endResult s
      callId transcript in
  let warning :=
    match Webhook.warningMessage topic with
    | Some m => Js.trim m
    | None => EmptyString
    end in
  result.2 = false →
  Webhook.anchorKeywords existing ≠ []
  ∧ (∀ k, k ∈ extractTopicKeywords transcript →
          k ∉ Webhook.anchorKeywords existing)
  ∧ filter (fun e => Webhook.isSpeak e = true) result.1.2
    = (if (0 <? String.length warning)%nat
       then [Webhook.ESpeak callId warning false None] else [])
  ∧ if Webhook.endCallOnDrift topic
       && (Webhook.maxDriftCount topic <=? Webhook.driftCount existing + 1)%nat
    then
      Webhook.singleTopicStates result.1.1 !! callId = None
      ∧ noGenerationCurrent result.1.1 callId
      ∧ filter (fun e => isEndCall e = true) result.1.2
        = [Webhook.EEndCall callId]
    else
      Webhook.singleTopicStates result.1.1 !! callId
      = Some {| Webhook.anchorKeywords := Webhook.anchorKeywords existing;
                Webhook.driftCount := (Webhook.driftCount existing + 1)%nat |}
      ∧ Webhook.pendingResponses result.1.1 = Webhook.pendingResponses s
      ∧ filter (fun e => isEndCall e = true) result.1.2 = [].
Proof.
  intros Htopic Hen existing result warning Hres.
  assert (allow (evaluateSingleTopicTranscript transcript
                   (Webhook.anchorKeywords existing)
                   (Webhook.minKeywords topic)) = false) as Hallow.
  { subst result. unfold Webhook.shouldAutoRespondToTranscript in Hres.
    rewrite Htopic, Hen in Hres. cbn [negb] in Hres. fold existing in Hres.
    destruct (allow _); [|done]. by rewrite orb_true_r in Hres. }
  destruct (evaluate_refused _ _ _ Hallow) as [Hanchor Hnone].
  destruct (refused_result config warningResult endResult s callId transcript
              topic Htopic Hen Hallow) as (out & Heq & Hspeak & Hend).
  subst result. rewrite Heq. cbn [fst snd].
  split; [done|]. split; [done|]. split; [exact Hspeak|].
  rewrite Hend.
  destruct (Webhook.endCallOnDrift topic && _).
  - split; [|split; [|done]].
    + simpl. apply lookup_delete_eq.
    + apply clearTopic_dead, mark_dead.
  - split; [|done]. simpl. by rewrite lookup_insert_eq.
Qed.

Lemma refused_utterance_counts_drift_witness :
  let config :=
    {| Webhook.singleTopic :=
         Some {| Webhook.singleTopicEnabled := true;
                 Webhook.minKeywords := Finite 1;
                 Webhook.warningMessage := Some " Please stay on topic. ";
                 Webhook.endCallOnDrift := true;
                 Webhook.maxDriftCount := 1 |};
       Webhook.responseCues := None; Webhook.coreConfig := true |} in
  let s :=
    Webhook.setSingleTopicStates Webhook.newServer
      {[ "c1" := {| Webhook.anchorKeywords := ["invoice"];
                    Webhook.driftCount := 0 |} ]} in
  let result :=
    Webhook.shouldAutoRespondToTranscript config
      {| Webhook.success := true; Webhook.commandError := None |}
      {| Webhook.success := true; Webhook.commandError := None |}
      s "c1" "tell me about the weather" in
  filter (fun e => Webhook.isSpeak e = true) result.1.2
  = [Webhook.ESpeak "c1" "Please stay on topic." false None].
Proof.
  intros config s result.
  pose proof (refused_utterance_counts_drift config
                {| Webhook.success := true; Webhook.commandError := None |}
                {| Webhook.success := true; Webhook.commandError := None |}
                s "c1" "tell me about the weather"
                {| Webhook.singleTopicEnabled := true;
                   Webhook.minKeywords := Finite 1;
                   Webhook.warningMessage := Some " Please stay on topic. ";
                   Webhook.endCallOnDrift := true;
                   Webhook.maxDriftCount := 1 |}
                eq_refl eq_refl eq_refl) as (_ & _ & H & _).
  exact H.
Defined.

Lemma refused_step (config : Webhook.VoiceCallConfig)
    (warningResult endResult : Webhook.CommandResult) (callKnown : bool)
    (s : Webhook.Server) (callId transcript : string)
    (topic : Webhook.SingleTopicConfig) (anchor : list string) (drift : nat) :
  Webhook.singleTopic config = Some topic →
  Webhook.singleTopicEnabled topic = true →
  Webhook.singleTopicStates s !! callId
  = Some {| Webhook.anchorKeywords := anchor; Webhook.driftCount := drift |} →
  allow (evaluateSingleTopicTranscript transcript anchor
           (Webhook.minKeywords topic)) = false →
  let s1 :=
    Webhook.setSingleTopicStates s
      (<[callId := {| Webhook.anchorKeywords := anchor;
                      Webhook.driftCount := (drift + 1)%nat |}]>
         (Webhook.singleTopicStates s)) in
  ∃ out,
    Webhook.step config s
      (Webhook.ATranscript callId transcript warningResult endResult callKnown)
    = (if Webhook.endCallOnDrift topic
          && (Webhook.maxDriftCount topic <=? drift + 1)%nat
       then Webhook.clearSingleTopicState
              (Webhook.markResponseDisconnected s1 callId) callId
       else s1, out)
    ∧ filter (fun e => isEndCall e = true) out
      = (if Webhook.endCallOnDrift topic
            && (Webhook.maxDriftCount topic <=? drift + 1)%nat
         then [Webhook.EEndCall callId] else []).
Proof.
  intros Htopic Hen Hstate Hallow s1.
  pose proof (refused_result config warningResult endResult s callId transcript
                topic Htopic Hen) as Hres.
  rewrite Hstate in Hres. cbn [default Webhook.anchorKeywords
                                 Webhook.driftCount] in Hres.
  destruct (Hres Hallow) as (out & Heq & _ & Hend).
  exists out. split; [|exact Hend].
  cbn [Webhook.step]. rewrite Heq. done.
Qed.

(** X10: a call that is to be ended on drift is ended at the utterance
    that brings its drift count to the maximum and not before: after any
    run of refused utterances that keeps the count below the maximum, the
    anchor is the same, the count has gone up by the length of the run, no
    pending response has changed, and one more refused utterance ends the
    call exactly when it brings the count to the maximum. *)
Theorem call_ended_at_max_drift
    (config : Webhook.VoiceCallConfig)
    (warningResult endResult : Webhook.CommandResult) (callKnown : bool)
    (s : Webhook.Server) (callId : string)
    (topic : Webhook.SingleTopicConfig) (anchor : list string) (drift : nat)
    (refused : list string) (transcript : string) :
  Webhook.singleTopic config = Some topic →
  Webhook.singleTopicEnabled topic = true →
  Webhook.endCallOnDrift topic = true →
  Webhook.singleTopicStates s !! callId
  = Some {| Webhook.anchorKeywords := anchor; Webhook.driftCount := drift |} →
  Forall (fun u => allow (evaluateSingleTopicTranscript u anchor
                            (Webhook.minKeywords topic)) = false)
    (refused ++ [transcript]) →
  (drift + length refused < Webhook.maxDriftCount topic)%nat →
  let utterance u :=
    Webhook.ATranscript callId u warningResult endResult callKnown in
  let s1 := Webhook.exec config s (map utterance refused) in
  Webhook.singleTopicStates s1 !! callId
  = Some {| Webhook.anchorKeywords := anchor;
            Webhook.driftCount := (drift + length refused)%nat |}
  ∧ Webhook.pendingResponses s1 = Webhook.pendingResponses s
  ∧ filter (fun e => isEndCall e = true)
      (Webhook.step config s1 (utterance transcript)).2
    = if (Webhook.maxDriftCount topic =? drift + length refused + 1)%nat
      then [Webhook.EEndCall callId] else [].
Proof.
  intros Htopic Hen Hend Hstate Hall Hlt utterance.
  revert s drift Hstate Hlt.
  induction refused as [|u refused IH]; intros s drift Hstate Hlt s1.
  - subst s1. cbn [map Webhook.exec foldl length].
    rewrite Nat.add_0_r. split; [done|]. split; [done|].
    apply Forall_cons in Hall as [Hallow _]. unfold utterance.
    destruct (refused_step config warningResult endResult callKnown s callId
                transcript topic anchor drift Htopic Hen Hstate Hallow)
      as (out & -> & Hout).
    cbn [snd length] in *. rewrite Hout, Hend. cbn [andb].
    destruct (Nat.leb_spec (Webhook.maxDriftCount topic) (drift + 1));
      destruct (Nat.eqb_spec (Webhook.maxDriftCount topic) (drift + 1));
      done || lia.
  - cbn [app] in Hall. apply Forall_cons in Hall as [Hallow Hall].
    cbn [length] in Hlt.
    destruct (refused_step config warningResult endResult callKnown s callId
                u topic anchor drift Htopic Hen Hstate Hallow)
      as (out & Hstep & _).
    rewrite Hend in Hstep. cbn [andb] in Hstep.
    destruct (Nat.leb_spec (Webhook.maxDriftCount topic) (drift + 1));
      [lia|].
    subst s1. cbn [map]. unfold Webhook.exec. cbn [foldl].
    change (utterance u)
      with (Webhook.ATranscript callId u warningResult endResult callKnown).
    rewrite Hstep. cbn [fst].
    fold (Webhook.exec config
            (Webhook.setSingleTopicStates s
               (<[callId := {| Webhook.anchorKeywords := anchor;
                               Webhook.driftCount := (drift + 1)%nat |}]>
                  (Webhook.singleTopicStates s)))
            (map utterance refused)).
    specialize (IH Hall
                  (Webhook.setSingleTopicStates s
                     (<[callId := {| Webhook.anchorKeywords := anchor;
                                     Webhook.driftCount := (drift + 1)%nat |}]>
                        (Webhook.singleTopicStates s)))
                  (drift + 1)%nat).
    cbv zeta in IH. destruct IH as (H1 & H2 & H3).
    + simpl. by rewrite lookup_insert_eq.
    + lia.
    + cbn [length].
      replace (drift + S (length refused))%nat
        with (drift + 1 + length refused)%nat by lia.
      split; [exact H1|]. split; [exact H2|]. exact H3.
Qed.

Lemma call_ended_at_max_drift_witness :
  let topic :=
    {| Webhook.singleTopicEnabled := true;
       Webhook.minKeywords := Finite 1;
       Webhook.warningMessage := None;
       Webhook.endCallOnDrift := true;
       Webhook.maxDriftCount := 2 |} in
  let config :=
    {| Webhook.singleTopic := Some topic;
       Webhook.responseCues := None; Webhook.coreConfig := true |} in
  let ok := {| Webhook.success := true; Webhook.commandError := None |} in
  let s :=
    Webhook.setSingleTopicStates Webhook.newServer
      {[ "c1" := {| Webhook.anchorKeywords := ["invoice"];
                    Webhook.driftCount := 0 |} ]} in
  let s1 :=
    Webhook.exec config s
      [Webhook.ATranscript "c1" "weather today" ok ok true] in
  filter (fun e => isEndCall e = true)
    (Webhook.step config s1
       (Webhook.ATranscript "c1" "football results" ok ok true)).2
  = [Webhook.EEndCall "c1"].
Proof.
  intros topic config ok s s1.
  assert (Forall (fun u => allow (evaluateSingleTopicTranscript u ["invoice"]
                                    (Webhook.minKeywords topic)) = false)
            (["weather today"] ++ ["football results"])) as Hall.
  { repeat constructor. }
  assert (0 + length ["weather today"] < Webhook.maxDriftCount topic)%nat
    as Hlt.
  { simpl. lia. }
  pose proof (call_ended_at_max_drift config ok ok true s "c1" topic
                ["invoice"] 0 ["weather today"] "football results"
                eq_refl eq_refl eq_refl eq_refl Hall Hlt) as (_ & _ & H).
  exact H.
Defined.

(** ** The cue plan and the progress cue *)
Section ProgressCue.

Import ResponseCues.

Lemma progressCount_app out1 out2 :
  progressCount (out1 ++ out2) = (progressCount out1 + progressCount out2)%nat.
Proof. unfold progressCount. by rewrite filter_app, length_app. Qed.

(** What holds of every progress cue of controller [c]. *)
Local Abbreviation progressOf c :=
  (fun q : Cue =>
     isProgressCue q = true →
     enabled (plan c) = true ∧ progressText (plan c) = Some (text q)
     ∧ text q ≠ EmptyString ∧ awaited q = false).

Lemma truthy_Some t : truthy t = true → ∃ x, t = Some x ∧ x ≠ EmptyString.
Proof. destruct t as [[|c r]|]; [done| |done]. intros _. by eexists. Qed.

Lemma step_progress c o :
  timersHeld c →
  (timers c ≠ [] → enabled (plan c) = true) →
  (progressCount (step c o).2 + progressBudget (step c o).1
   <= progressBudget c)%nat
  ∧ (timers (step c o).1 ≠ [] →
     enabled (plan c) = true ∧ (timers c ≠ [] ∨ o = OpScheduleProgressCue))
  ∧ Forall (progressOf c) (step c o).2
  ∧ ((0 < progressCount (step c o).2)%nat →
     timers c ≠ [] ∧ ∃ h, o = OpTimerElapses h).
Proof.
  intros Hheld Hen. destruct o; cbn [step].
  - unfold maybeSpeakAcknowledgement. destruct (_ || _); cbn [fst snd].
    + split; [simpl; lia|]. split; [tauto|]. split; [constructor|].
      unfold progressCount. simpl. lia.
    + split; [unfold progressCount; simpl; lia|]. split; [tauto|].
      split; [by repeat constructor|]. unfold progressCount. simpl. lia.
  - cbn [fst snd]. unfold scheduleProgressCue.
    destruct (_ || bool_decide _) eqn:Hg.
    + split; [simpl; lia|]. split; [tauto|]. split; [constructor|].
      unfold progressCount. simpl. lia.
    + apply orb_false_iff in Hg as [Hg Hp].
      apply orb_false_iff in Hg as [Hg Hs].
      apply orb_false_iff in Hg as [He _].
      apply negb_false_iff in He.
      split.
      { apply bool_decide_eq_false in Hp.
        destruct (progressTimer c) as [h|] eqn:Hh; [by destruct Hp|].
        destruct Hheld as [Hnil|(h & ? & _)]; [|congruence].
        unfold progressBudget. simpl. rewrite Hs, Hnil, Hh. lia. }
      split; [by intros _; split; [|right]|]. split; [constructor|].
      unfold progressCount. simpl. lia.
  - cbn [fst snd]. split.
    { unfold progressBudget. rewrite settle_settled. simpl. lia. }
    split.
    { rewrite settle_clears by done. done. }
    split; [constructor|]. unfold progressCount. simpl. lia.
  - unfold timerElapses.
    destruct (bool_decide_reflect (h ∈ timers c)) as [Hin|Hin]; cbn [fst snd].
    + destruct Hheld as [Hnil|(h' & Hp & Ht)].
      { rewrite Hnil in Hin. by apply elem_of_nil in Hin. }
      rewrite Ht in Hin. apply list_elem_of_singleton in Hin as ->.
      assert (timers c ≠ []) as Hne by (by rewrite Ht).
      split.
      { unfold progressBudget, progressCallback. simpl.
        rewrite Ht, clearTimeoutImpl_single, Hp.
        destruct (settled c); simpl; [unfold progressCount; simpl; lia|].
        destruct (negb _); unfold progressCount; simpl; lia. }
      split.
      { simpl. by rewrite Ht, clearTimeoutImpl_single. }
      split.
      { unfold progressCallback.
        destruct (settled c); simpl; [constructor|].
        destruct (truthy (progressText (plan c))) eqn:Htr; simpl;
          [|constructor].
        apply truthy_Some in Htr as (x & Hx & Hne').
        repeat constructor; simpl; rewrite ?Hx; auto. }
      intros _. split; [done|]. by eexists.
    + split; [simpl; lia|]. split; [tauto|]. split; [constructor|].
      unfold progressCount. simpl. lia.
Qed.

Lemma run_progress c ops :
  timersHeld c →
  (timers c ≠ [] → enabled (plan c) = true) →
  (progressCount (run c ops).2 + progressBudget (run c ops).1
   <= progressBudget c)%nat
  ∧ Forall (progressOf c) (run c ops).2
  ∧ ((0 < progressCount (run c ops).2)%nat →
     (timers c ≠ [] ∨ OpScheduleProgressCue ∈ ops)
     ∧ ∃ h, OpTimerElapses h ∈ ops).
Proof.
  revert c. induction ops as [|o ops IH]; intros c Hheld Hen.
  - cbn [run fst snd]. split; [unfold progressCount; simpl; lia|].
    split; [constructor|]. unfold progressCount. simpl. lia.
  - cbn [run].
    destruct (step_progress c o Hheld Hen) as (Hb & Ht & Hf & Hp).
    pose proof (step_timersHeld c o Hheld) as Hheld1.
    pose proof (step_plan c o) as Hplan.
    destruct (step c o) as [c1 out1]. cbn [fst snd] in *.
    assert (timers c1 ≠ [] → enabled (plan c1) = true) as Hen1.
    { intros Hne. rewrite Hplan. by apply Ht. }
    destruct (IH c1 Hheld1 Hen1) as (Hb1 & Hf1 & Hp1).
    destruct (run c1 ops) as [c2 out2]. cbn [fst snd] in *.
    rewrite progressCount_app. split; [lia|]. split.
    + apply Forall_app. split; [done|]. by rewrite <- Hplan.
    + intros Hpos.
      destruct (decide (0 < progressCount out1)%nat) as [H1|H1].
      * destruct (Hp H1) as (Hne & h & ->). split; [by left|].
        exists h. by left.
      * assert (0 < progressCount out2)%nat as H2 by lia.
        destruct (Hp1 H2) as (Hsched & h & Hh). split.
        -- destruct Hsched as [Hne|Hin]; [|right; by right].
           destruct (Ht Hne) as (_ & [?| ->]); [by left|right; by left].
        -- exists h. by right.
Qed.

Lemma run_disabled c ops :
  enabled (plan c) = false → timers c = [] →
  (run c ops).2 = [] ∧ timers (run c ops).1 = [].
Proof.
  revert c. induction ops as [|o ops IH]; intros c Hen Hnil; [done|].
  cbn [run].
  assert ((step c o).2 = [] ∧ timers (step c o).1 = []) as [Hout Ht].
  { destruct o; cbn [step fst snd].
    - unfold maybeSpeakAcknowledgement. by rewrite Hen.
    - unfold scheduleProgressCue. by rewrite Hen.
    - split; [done|]. unfold settle.
      destruct (progressTimer c); simpl; [|done]. by rewrite Hnil.
    - unfold timerElapses. rewrite Hnil.
      rewrite bool_decide_false by (by intros ?%elem_of_nil). done. }
  pose proof (step_plan c o) as Hplan.
  destruct (step c o) as [c1 out1]. cbn [fst snd] in *. subst out1.
  destruct (IH c1) as [Hout2 Ht2]; [by rewrite Hplan|done|].
  destruct (run c1 ops) as [c2 out2]. cbn [fst snd] in *. by subst out2.
Qed.

Lemma normalizeCueText_trimmed raw fallback t :
  fallback ≠ EmptyString → Js.trim fallback = fallback →
  normalizeCueText raw fallback = Some t →
  t ≠ EmptyString ∧ Js.trim t = t.
Proof.
  intros Hne Htrim. unfold normalizeCueText.
  destruct raw as [raw|]; [|by intros [= <-]].
  destruct (Nat.ltb_spec 0 (String.length (Js.trim raw))) as [Hlen|Hlen];
    [|done].
  intros [= <-]. split; [|apply trim_idem].
  intros Hempty. rewrite Hempty in Hlen. simpl in Hlen. lia.
Qed.

End ProgressCue.

(** X11: a cue controller speaks the progress cue at most once, whatever
    is done with it and however often it is scheduled or its timers
    elapse; a progress cue is spoken only with an enabled plan, has the
    plan's progress text, which is not empty, and is not awaited; and one
    is spoken only if the cue has been scheduled and a timer has
    elapsed. *)
Theorem progress_cue_at_most_once
    (plan : ResponseCues.VoiceCallResponseCuePlan) (ops : list ResponseCues.Op) :
  let out :=
    (ResponseCues.run
       (ResponseCues.createVoiceCallResponseCueController plan) ops).2 in
  (progressCount out <= 1)%nat
  ∧ Forall (fun q =>
              isProgressCue q = true →
              ResponseCues.enabled plan = true
              ∧ ResponseCues.progressText plan = Some (ResponseCues.text q)
              ∧ ResponseCues.text q ≠ EmptyString
              ∧ ResponseCues.awaited q = false) out
  ∧ ((0 < progressCount out)%nat →
     ResponseCues.OpScheduleProgressCue ∈ ops
     ∧ ∃ h, ResponseCues.OpTimerElapses h ∈ ops).
Proof.
  intros out. subst out.
  destruct (run_progress
              (ResponseCues.createVoiceCallResponseCueController plan) ops)
    as (Hb & Hf & Hp); [by left|done|].
  split; [|split].
  - unfold progressBudget at 2 in Hb. simpl in Hb. lia.
  - exact Hf.
  - intros Hpos. destruct (Hp Hpos) as ([Hne|Hin] & Hh); [done|]. done.
Qed.

(** X12: a controller whose plan is not enabled never speaks and never
    sets a timer, whatever is done with it. *)
Theorem disabled_plan_is_silent
    (plan : ResponseCues.VoiceCallResponseCuePlan) (ops : list ResponseCues.Op) :
  ResponseCues.enabled plan = false →
  (ResponseCues.run
     (ResponseCues.createVoiceCallResponseCueController plan) ops).2 = []
  ∧ ResponseCues.timers
      (ResponseCues.run
         (ResponseCues.createVoiceCallResponseCueController plan) ops).1 = [].
Proof. intros Hen. by apply run_disabled. Qed.

Lemma disabled_plan_is_silent_witness :
  (ResponseCues.run
     (ResponseCues.createVoiceCallResponseCueController
        (ResponseCues.resolveVoiceCallResponseCuePlan None))
     [ResponseCues.OpMaybeSpeakAcknowledgement;
      ResponseCues.OpScheduleProgressCue;
      ResponseCues.OpTimerElapses 0]).2 = [].
Proof.
  apply (disabled_plan_is_silent
           (ResponseCues.resolveVoiceCallResponseCuePlan None)
           [ResponseCues.OpMaybeSpeakAcknowledgement;
            ResponseCues.OpScheduleProgressCue;
            ResponseCues.OpTimerElapses 0]).
  reflexivity.
Defined.

(** X13: the resolved cue plan is enabled exactly when the configuration
    says [enabled: true]; a plan that is not enabled has no texts; the
    texts of a plan are never empty and carry no white space at their
    ends, so that testing a text for truthiness is testing it for null;
    and the delay is read the same way whether or not the plan is
    enabled: the floor of a finite value, 0 for a negative one, and the
    default for a missing or non-finite one. *)
Theorem resolved_cue_plan_well_formed
    (config : option ResponseCues.VoiceCallResponseCuesConfig) :
  let p := ResponseCues.resolveVoiceCallResponseCuePlan config in
  (ResponseCues.enabled p = true
   ↔ config ≫= ResponseCues.configEnabled = Some true)
  ∧ (ResponseCues.enabled p = false →
     ResponseCues.acknowledgementText p = None
     ∧ ResponseCues.progressText p = None)
  ∧ (∀ t, ResponseCues.acknowledgementText p = Some t
          ∨ ResponseCues.progressText p = Some t →
          t ≠ EmptyString ∧ Js.trim t = t)
  ∧ ResponseCues.truthy (ResponseCues.acknowledgementText p)
    = bool_decide (is_Some (ResponseCues.acknowledgementText p))
  ∧ ResponseCues.truthy (ResponseCues.progressText p)
    = bool_decide (is_Some (ResponseCues.progressText p))
  ∧ ResponseCues.progressDelayMs p
    = match config ≫= ResponseCues.configProgressDelayMs with
      | Some (Finite q) =>
          if Qlt_le_dec q 0 then 0%N else Z.to_N (Qfloor q)
      | _ => ResponseCues.DEFAULT_PROGRESS_DELAY_MS
      end.
Proof.
  intros p.
  assert (∀ t, ResponseCues.acknowledgementText p = Some t
               ∨ ResponseCues.progressText p = Some t →
               t ≠ EmptyString ∧ Js.trim t = t) as Htexts.
  { intros t. subst p. unfold ResponseCues.resolveVoiceCallResponseCuePlan.
    destruct (negb _); cbn [ResponseCues.acknowledgementText
                              ResponseCues.progressText].
    - by intros [?|?].
    - intros [Ht|Ht];
        (eapply normalizeCueText_trimmed; [| |exact Ht]); done. }
  assert (∀ t : option string,
            (∀ x, t = Some x → x ≠ EmptyString) →
            ResponseCues.truthy t = bool_decide (is_Some t)) as Htruthy.
  { intros [x|] Hx; [|done].
    destruct x; [by destruct (Hx _ eq_refl)|done]. }
  split; [|split; [|split; [exact Htexts|split; [|split]]]].
  - subst p. unfold ResponseCues.resolveVoiceCallResponseCuePlan.
    destruct config as [[[[]|] ? ? ?]|]; simpl; split; done.
  - subst p. unfold ResponseCues.resolveVoiceCallResponseCuePlan.
    destruct (negb _) eqn:Hn; simpl; [done|].
    apply negb_false_iff in Hn. rewrite Hn. done.
  - apply Htruthy. intros x Hx. apply (Htexts x). by left.
  - apply Htruthy. intros x Hx. apply (Htexts x). by right.
  - subst p. unfold ResponseCues.resolveVoiceCallResponseCuePlan.
    assert (∀ q, Z.to_N (Z.max 0 (Qfloor q))
                 = if Qlt_le_dec q 0 then 0%N else Z.to_N (Qfloor q))
      as Hdelay.
    { intros q. destruct (Qlt_le_dec q 0) as [Hq|Hq].
      - assert (Qfloor q < 0)%Z as Hf.
        { apply Z.lt_nge. intros Hge.
          assert (0 <= q)%Q as H0; [|by apply Qle_not_lt in H0].
          apply (Qle_trans _ (inject_Z (Qfloor q))); [|apply Qfloor_le].
          change 0%Q with (inject_Z 0). by rewrite <- Zle_Qle. }
        by rewrite Z.max_l by lia.
      - assert (0 <= Qfloor q)%Z as Hf.
        { change 0%Z with (Qfloor 0). by apply Qfloor_resp_le. }
        by rewrite Z.max_r by lia. }
    destruct (negb _); cbn [ResponseCues.progressDelayMs];
      destruct (config ≫= ResponseCues.configProgressDelayMs) as [[| | |q]|];
      try done; apply Hdelay.
Qed.

(** ** The request handler and a batch of events *)
Section RequestHandler.

Import Webhook.
Context {M : Type} `{Api.CallManagerApi M}.

(** What the loop body of the handler does to the server. *)
Local Abbreviation afterEvent s m e :=
  (if isTerminalEvent e
   then clearSingleTopicState
          (markResponseDisconnected s (terminalCallId m e)) (terminalCallId m e)
   else s).

Lemma processOne_eq s (m : M) calls log e :
  processOne (s, m, calls, log) e
  = (afterEvent s m e, (Api.processEvent m e).1, calls ++ [ProcessEvent e],
     log ++ match (Api.processEvent m e).2 with
            | Threw => [ELog LogError "[voice-call] Error processing event"]
            | Returned => []
            end).
Proof.
  unfold processOne, terminalCallId.
  destruct (Api.processEvent m e) as [m1 []]; cbn [fst snd];
    rewrite ?app_nil_r; by destruct (isTerminalEvent e).
Qed.

Lemma mark_pending_other s c c' :
  c' ≠ c →
  pendingResponses (markResponseDisconnected s c) !! c'
  = pendingResponses s !! c'.
Proof.
  intros Hne. unfold markResponseDisconnected.
  destruct (pendingResponses s !! c) as [st|]; [|done].
  cbn [pendingResponses setPendingResponses].
  rewrite lookup_insert_ne by done. by destruct (settleCues st).
Qed.

Lemma mark_keeps_dead s c c' :
  noGenerationCurrent s c' →
  noGenerationCurrent (markResponseDisconnected s c) c'.
Proof.
  intros Hdead. destruct (decide (c' = c)) as [->|Hne]; [apply mark_dead|].
  intros g. unfold isVoiceResponseGenerationCurrent.
  rewrite mark_pending_other by done. apply (Hdead g).
Qed.

Lemma mark_tasks s c :
  responseTasks (markResponseDisconnected s c) = responseTasks s
  ∧ singleTopicStates (markResponseDisconnected s c) = singleTopicStates s
  ∧ nextId (markResponseDisconnected s c) = nextId s.
Proof.
  unfold markResponseDisconnected.
  destruct (pendingResponses s !! c) as [st|]; [|done].
  by destruct (settleCues st).
Qed.

Lemma afterEvent_spec s (m : M) e :
  responseTasks (afterEvent s m e) = responseTasks s
  ∧ nextId (afterEvent s m e) = nextId s
  ∧ singleTopicStates (afterEvent s m e) ⊆ singleTopicStates s
  ∧ generationsGrow s (afterEvent s m e)
  ∧ (∀ c, noGenerationCurrent s c → noGenerationCurrent (afterEvent s m e) c)
  ∧ (isTerminalEvent e = true →
     noGenerationCurrent (afterEvent s m e) (terminalCallId m e)
     ∧ singleTopicStates (afterEvent s m e) !! terminalCallId m e = None).
Proof.
  destruct (isTerminalEvent e).
  - destruct (mark_tasks s (terminalCallId m e)) as (Ht & Hs & Hn).
    split; [exact Ht|]. split; [exact Hn|]. split; [|split; [|split]].
    + cbn [singleTopicStates clearSingleTopicState setSingleTopicStates].
      rewrite Hs. apply delete_subseteq.
    + apply mark_grows.
    + intros c Hc. by apply clearTopic_dead, mark_keeps_dead.
    + intros _. split; [apply clearTopic_dead, mark_dead|].
      cbn [singleTopicStates clearSingleTopicState setSingleTopicStates].
      apply lookup_delete_eq.
  - split; [done|]. split; [done|]. split; [done|].
    split; [apply generationsGrow_refl|]. split; [done|]. done.
Qed.

Lemma batch_spec events s (m : M) calls log :
  ∃ s1 log1,
    foldl processOne (s, m, calls, log) events
    = (s1, managerAfterEvents m events, calls ++ map ProcessEvent events,
       log ++ log1)
    ∧ Forall (fun e => isErrorLog e = true) log1
    ∧ (length log1 <= length events)%nat
    ∧ responseTasks s1 = responseTasks s
    ∧ nextId s1 = nextId s
    ∧ singleTopicStates s1 ⊆ singleTopicStates s
    ∧ generationsGrow s s1
    ∧ (∀ c, noGenerationCurrent s c → noGenerationCurrent s1 c)
    ∧ (∀ pre e post,
         events = pre ++ e :: post → isTerminalEvent e = true →
         noGenerationCurrent s1 (terminalCallId (managerAfterEvents m pre) e)
         ∧ singleTopicStates s1 !! terminalCallId (managerAfterEvents m pre) e
           = None).
Proof.
  revert s m calls log.
  induction events as [|e0 events IH]; intros s m calls log.
  - exists s, []. cbn [foldl map managerAfterEvents]. rewrite !app_nil_r.
    split; [done|]. split; [constructor|]. split; [done|].
    split; [done|]. split; [done|]. split; [done|].
    split; [apply generationsGrow_refl|]. split; [done|].
    intros pre e post Hnil. by destruct pre.
  - cbn [foldl]. rewrite processOne_eq.
    destruct (afterEvent_spec s m e0) as (Ht & Hn & Hs & Hg & Hd & Hterm).
    destruct (IH (afterEvent s m e0) (Api.processEvent m e0).1
                (calls ++ [ProcessEvent e0])
                (log ++ match (Api.processEvent m e0).2 with
                        | Threw =>
                            [ELog LogError "[voice-call] Error processing event"]
                        | Returned => []
                        end))
      as (s1 & log1 & Heq & Hlog & Hlen & Ht1 & Hn1 & Hs1 & Hg1 & Hd1 & Hterm1).
    exists s1,
      (match (Api.processEvent m e0).2 with
       | Threw => [ELog LogError "[voice-call] Error processing event"]
       | Returned => []
       end ++ log1).
    split.
    { rewrite Heq. cbn [map managerAfterEvents foldl].
      by rewrite <- !app_assoc. }
    split.
    { apply Forall_app. split; [|done].
      destruct (Api.processEvent m e0).2; by repeat constructor. }
    split.
    { rewrite length_app. cbn [length].
      destruct (Api.processEvent m e0).2; simpl; lia. }
    split; [by rewrite Ht1|]. split; [by rewrite Hn1|].
    split; [by etrans|].
    split; [by eapply generationsGrow_trans|].
    split; [intros c Hc; by apply Hd1, Hd|].
    intros pre e post Hev Hte. destruct pre as [|e1 pre].
    + cbn [app] in Hev. injection Hev as <- <-.
      cbn [managerAfterEvents foldl].
      destruct (Hterm Hte) as [Hdead Hnone]. split; [by apply Hd1|].
      by eapply lookup_weaken_None.
    + cbn [app] in Hev. injection Hev as <- ->.
      cbn [managerAfterEvents foldl]. by apply (Hterm1 pre e post).
Qed.

Lemma batch_log events s (m : M) calls log :
  (foldl processOne (s, m, calls, log) events).2
  = log
    ++ concat
         (imap (fun i event =>
                  match (Api.processEvent
                           (managerAfterEvents m (take i events)) event).2 with
                  | Threw =>
                      [ELog LogError "[voice-call] Error processing event"]
                  | Returned => []
                  end) events).
Proof.
  revert s m calls log.
  induction events as [|e0 events IH]; intros s m calls log.
  - cbn [foldl imap concat snd]. by rewrite app_nil_r.
  - cbn [foldl]. rewrite processOne_eq, IH, imap_cons.
    cbn [concat take managerAfterEvents foldl].
    rewrite <- app_assoc. do 2 f_equal.
Qed.

Lemma verified_request s (provider : VoiceCallProvider) (m : M)
    (req : IncomingMessage) (webhookPath body : string) :
  String.prefix webhookPath (requestPathname req) = true →
  requestMethod req = "POST" →
  requestBody req = BodyText body →
  ok (verifyWebhook provider (webhookContext req body)) = true →
  handleRequest provider s m req webhookPath
  = let ctx := webhookContext req body in
    let result := parseWebhookEvent provider ctx in
    let '(s1, m1, calls, log) :=
      foldl processOne
        (s, m, [VerifyWebhook ctx; ParseWebhookEvent ctx], [])
        (events result) in
    {| serverAfter := s1; managerAfter := m1;
       response :=
         Some {| responseStatus :=
                   if (statusCode result =? 0)%nat then 200
                   else statusCode result;
                 responseHeaders := providerResponseHeaders result;
                 responseBody :=
                   match providerResponseBody result with
                   | Some b => if Js.isEmpty b then "OK" else b
                   | None => "OK"
                   end |};
       consulted := calls; logged := log |}.
Proof.
  intros Hpath Hmethod Hbody Hok. unfold handleRequest.
  rewrite Hpath, Hmethod, Hbody. cbn [negb String.eqb]. simpl String.eqb.
  cbn [negb]. by rewrite Hok.
Qed.

(** X14: for a request that passes verification, the handler consults
    the provider once for verification and once for parsing and then
    gives every parsed event to the manager, in order, also after an
    event whose processing threw; what is logged is one error for each
    event whose processing threw, in the order of the events, and nothing
    else; the response has the provider's status unless that is 0, then
    200, the provider's headers, and the provider's body unless that is
    missing or empty, then OK.  The handler starts and resumes no
    response, and only removes topic states. *)
Theorem verified_request_processes_every_event
    (provider : VoiceCallProvider) (s : Server) (m : M)
    (req : IncomingMessage) (webhookPath body : string) :
  String.prefix webhookPath (requestPathname req) = true →
  requestMethod req = "POST" →
  requestBody req = BodyText body →
  ok (verifyWebhook provider (webhookContext req body)) = true →
  let ctx := webhookContext req body in
  let result := parseWebhookEvent provider ctx in
  let handled := handleRequest provider s m req webhookPath in
  consulted handled
  = [VerifyWebhook ctx; ParseWebhookEvent ctx]
    ++ map ProcessEvent (events result)
  ∧ managerAfter handled = managerAfterEvents m (events result)
  ∧ logged handled
    = concat
        (imap (fun i event =>
                 match (Api.processEvent
                          (managerAfterEvents m (take i (events result)))
                          event).2 with
                 | Threw =>
                     [ELog LogError "[voice-call] Error processing event"]
                 | Returned => []
                 end) (events result))
  ∧ Forall (fun e => isErrorLog e = true) (logged handled)
  ∧ (length (logged handled) <= length (events result))%nat
  ∧ response handled
    = Some {| responseStatus :=
                if decide (statusCode result = 0%nat) then 200%nat
                else statusCode result;
              responseHeaders := providerResponseHeaders result;
              responseBody :=
                match providerResponseBody result with
                | None => "OK"
                | Some b => if decide (b = EmptyString) then "OK" else b
                end |}
  ∧ responseTasks (serverAfter handled) = responseTasks s
  ∧ singleTopicStates (serverAfter handled) ⊆ singleTopicStates s
  ∧ generationsGrow s (serverAfter handled).
Proof.
  intros Hpath Hmethod Hbody Hok ctx result handled. subst handled.
  rewrite (verified_request s provider m req webhookPath body) by done.
  cbv zeta. fold ctx. fold result.
  pose proof (batch_log (events result) s m
                [VerifyWebhook ctx; ParseWebhookEvent ctx] []) as Hlogged.
  destruct (batch_spec (events result) s m
              [VerifyWebhook ctx; ParseWebhookEvent ctx] [])
    as (s1 & log1 & Heq & Hlog & Hlen & Ht & _ & Hs & Hg & _).
  rewrite Heq in Hlogged |- *. cbn [snd app] in Hlogged.
  cbn [consulted managerAfter logged response serverAfter app].
  split; [done|]. split; [done|]. split; [exact Hlogged|].
  split; [done|]. split; [done|]. split; [|done].
  do 2 f_equal.
  - destruct (Nat.eqb_spec (statusCode result) 0);
      by destruct (decide (statusCode result = 0%nat)).
  - destruct (providerResponseBody result) as [[|c b]|]; done.
Qed.

(** X15: the provider and the manager are consulted only for a request
    to the webhook path, with method POST, whose body could be read.  Any
    other request leaves the server and the manager as they are and logs
    nothing; a wrong path gives 404 whatever the method, a wrong method
    on the right path 405, a body over the limit 413, a body that timed
    out 408, and any other failure to read the body no response (the
    handler throws). *)
Theorem malformed_request_consults_nobody
    (provider : VoiceCallProvider) (s : Server) (m : M)
    (req : IncomingMessage) (webhookPath : string) :
  let handled := handleRequest provider s m req webhookPath in
  let onPath := String.prefix webhookPath (requestPathname req) in
  let isPost := String.eqb (requestMethod req) "POST" in
  let readable :=
    match requestBody req with BodyText _ => true | _ => false end in
  (consulted handled = [] ↔ onPath && isPost && readable = false)
  ∧ (onPath && isPost && readable = false →
     serverAfter handled = s ∧ managerAfter handled = m
     ∧ logged handled = []
     ∧ responseStatus <$> response handled
       = if negb onPath then Some 404%nat
         else if negb isPost then Some 405%nat
         else match requestBody req with
              | PayloadTooLarge => Some 413%nat
              | RequestBodyTimeout => Some 408%nat
              | _ => None
              end).
Proof.
  intros handled onPath isPost readable.
  subst handled onPath isPost readable. unfold handleRequest.
  destruct (String.prefix webhookPath (requestPathname req)); cbn [negb andb];
    [|by split].
  destruct (String.eqb (requestMethod req) "POST"); cbn [negb andb];
    [|by split].
  destruct (requestBody req) as [body| | |]; try by split.
  split; [|done]. split; [|done].
  destruct (ok _); cbn [negb]; [|done].
  destruct (batch_spec
              (events (parseWebhookEvent provider (webhookContext req body)))
              s m
              [VerifyWebhook (webhookContext req body);
               ParseWebhookEvent (webhookContext req body)] [])
    as (s1 & log1 & -> & _). done.
Qed.

(** X16: once the handler has processed a terminal event of a batch (an
    ended call, or an error that cannot be retried), the call of that
    event, looked up before the event was processed, has no current
    generation and no topic state when the handler is done, whatever the
    later events of the batch are; a response of that call that is still
    suspended speaks nothing when it is resumed with a fulfilled
    promise. *)
Theorem terminal_event_disconnects_call
    (provider : VoiceCallProvider) (s : Server) (m : M)
    (req : IncomingMessage) (webhookPath body : string)
    (pre post : list NormalizedEvent) (event : NormalizedEvent) :
  String.prefix webhookPath (requestPathname req) = true →
  requestMethod req = "POST" →
  requestBody req = BodyText body →
  ok (verifyWebhook provider (webhookContext req body)) = true →
  events (parseWebhookEvent provider (webhookContext req body))
  = pre ++ event :: post →
  isTerminalEvent event = true →
  let handled := handleRequest provider s m req webhookPath in
  let terminal := terminalCallId (managerAfterEvents m pre) event in
  noGenerationCurrent (serverAfter handled) terminal
  ∧ singleTopicStates (serverAfter handled) !! terminal = None
  ∧ ∀ tid t r,
      responseTasks (serverAfter handled) !! tid = Some t →
      taskCallId t = terminal →
      isFulfilled r = true →
      Forall (fun e => isSpeak e = false)
        (resumeInboundResponse (serverAfter handled) tid r).2.
Proof.
  intros Hpath Hmethod Hbody Hok Hevents Hterm handled terminal.
  subst handled.
  rewrite (verified_request s provider m req webhookPath body) by done.
  cbv zeta.
  destruct (batch_spec
              (events (parseWebhookEvent provider (webhookContext req body)))
              s m
              [VerifyWebhook (webhookContext req body);
               ParseWebhookEvent (webhookContext req body)] [])
    as (s1 & log1 & -> & _ & _ & _ & _ & _ & _ & _ & Hdead).
  cbn [serverAfter].
  destruct (Hdead pre event post Hevents Hterm) as [Hd Hnone].
  split; [exact Hd|]. split; [exact Hnone|].
  intros tid t r Ht Hcall Hr.
  destruct (stale_resume_silent s1 tid t r Ht) as [Hsilent _];
    [rewrite Hcall; apply Hd|done|].
  eapply Forall_impl; [exact Hsilent|]. by intros e [? _].
Qed.

End RequestHandler.

Lemma verified_request_processes_every_event_witness :
  let ended :=
    {| eventId := "evt-1"; eventCallId := "call-0";
       eventProviderCallId := "provider-1"; eventTimestamp := 1;
       eventDirection := None; eventFrom := None; eventTo := None;
       payload := CallEnded "completed" |} in
  let provider :=
    {| Webhook.verifyWebhook := fun _ =>
         {| Webhook.ok := true; Webhook.reason := None |};
       Webhook.parseWebhookEvent := fun _ =>
         {| Webhook.events := [ended]; Webhook.statusCode := 0;
            Webhook.providerResponseBody := Some EmptyString;
            Webhook.providerResponseHeaders := [] |} |} in
  let req :=
    {| Webhook.requestUrl := "/voice/webhook";
       Webhook.requestHost := "example.com";
       Webhook.requestPathname := "/voice/webhook";
       Webhook.requestSearchParams := [];
       Webhook.requestMethod := "POST";
       Webhook.requestHeaders := [];
       Webhook.requestRemoteAddress := None;
       Webhook.requestBody := Webhook.BodyText "CallUUID=1" |} in
  let m :=
    Manager.newManager
      {| Manager.providerName := "plivo"; Manager.fromNumber := "+15550000000";
         Manager.inboundPolicy := Manager.policyOpen; Manager.allowFrom := [] |}
      None in
  let handled :=
    Webhook.handleRequest provider Webhook.newServer m req "/voice/webhook" in
  Webhook.consulted handled
  = [Webhook.VerifyWebhook (Webhook.webhookContext req "CallUUID=1");
     Webhook.ParseWebhookEvent (Webhook.webhookContext req "CallUUID=1");
     Webhook.ProcessEvent ended]
  ∧ Webhook.response handled
    = Some {| Webhook.responseStatus := 200; Webhook.responseHeaders := [];
              Webhook.responseBody := "OK" |}.
Proof.
  intros ended provider req m handled.
  pose proof (verified_request_processes_every_event provider
                Webhook.newServer m req "/voice/webhook" "CallUUID=1"
                eq_refl eq_refl eq_refl eq_refl)
    as (Hc & _ & _ & _ & _ & Hr & _).
  split; [exact Hc|exact Hr].
Defined.

Lemma terminal_event_disconnects_call_witness :
  let ended :=
    {| eventId := "evt-1"; eventCallId := "call-0";
       eventProviderCallId := "provider-1"; eventTimestamp := 1;
       eventDirection := None; eventFrom := None; eventTo := None;
       payload := CallEnded "completed" |} in
  let provider :=
    {| Webhook.verifyWebhook := fun _ =>
         {| Webhook.ok := true; Webhook.reason := None |};
       Webhook.parseWebhookEvent := fun _ =>
         {| Webhook.events := [ended]; Webhook.statusCode := 200;
            Webhook.providerResponseBody := None;
            Webhook.providerResponseHeaders := [] |} |} in
  let req :=
    {| Webhook.requestUrl := "/voice/webhook";
       Webhook.requestHost := "example.com";
       Webhook.requestPathname := "/voice/webhook";
       Webhook.requestSearchParams := [];
       Webhook.requestMethod := "POST";
       Webhook.requestHeaders := [];
       Webhook.requestRemoteAddress := None;
       Webhook.requestBody := Webhook.BodyText "CallUUID=1" |} in
  let m :=
    Manager.newManager
      {| Manager.providerName := "plivo"; Manager.fromNumber := "+15550000000";
         Manager.inboundPolicy := Manager.policyOpen; Manager.allowFrom := [] |}
      None in
  let s :=
    (Webhook.handleInboundResponse
       {| Webhook.singleTopic := None; Webhook.responseCues := None;
          Webhook.coreConfig := true |}
       true Webhook.newServer "call-0" "where is my invoice").1 in
  let handled := Webhook.handleRequest provider s m req "/voice/webhook" in
  Webhook.isVoiceResponseGenerationCurrent s "call-0" 1 = true
  ∧ noGenerationCurrent (Webhook.serverAfter handled) "call-0".
Proof.
  intros ended provider req m s handled. split; [reflexivity|].
  pose proof (terminal_event_disconnects_call provider s m req
                "/voice/webhook" "CallUUID=1" [] [] ended
                eq_refl eq_refl eq_refl eq_refl eq_refl eq_refl) as [Hd _].
  exact Hd.
Defined.

(** ** Controllers in the states the server can reach *)

(** X17: in every state that the server reaches from its initial one, a
    call has at most one cue controller that is not settled, and that
    controller is the one of the call's current generation: the
    controller of any other generation is settled.  After the call's media
    stream has disconnected every controller of the call is settled.
    Every suspended response holds the controller that was made for its
    call and generation. *)
Theorem one_live_controller_per_call
    (config : Webhook.VoiceCallConfig) (acts : list Webhook.Action) :
  let s := Webhook.exec config Webhook.newServer acts in
  (∀ cid cid' i i',
     Webhook.cueControllers s !! cid = Some i →
     Webhook.cueControllers s !! cid' = Some i' →
     Webhook.cueCallId i = Webhook.cueCallId i' →
     ResponseCues.settled (Webhook.controller i) = false →
     ResponseCues.settled (Webhook.controller i') = false →
     cid = cid')
  ∧ (∀ cid i,
       Webhook.cueControllers s !! cid = Some i →
       Webhook.isVoiceResponseGenerationCurrent s (Webhook.cueCallId i)
         (Webhook.cueGeneration i) = false →
       ResponseCues.settled (Webhook.controller i) = true)
  ∧ (∀ callId cid i,
       Webhook.cueControllers
         (Webhook.step config s (Webhook.ADisconnected callId)).1 !! cid
       = Some i →
       Webhook.cueCallId i = callId →
       ResponseCues.settled (Webhook.controller i) = true)
  ∧ (∀ tid t,
       Webhook.responseTasks s !! tid = Some t →
       ∃ i, Webhook.cueControllers s !! Webhook.taskCues t = Some i
            ∧ Webhook.cueCallId i = Webhook.taskCallId t
            ∧ Webhook.cueGeneration i = Webhook.taskGeneration t).
Proof.
  intros s.
  assert (Webhook.coherent s) as Hs
    by apply exec_coherent, newServer_coherent.
  split; [|split; [|split]].
  - intros cid cid' i i' Hi Hi' Hcall Hu Hu'.
    destruct (Webhook.unsettledRegistered s Hs cid i Hi Hu)
      as (st & Hst & Hcid & _).
    destruct (Webhook.unsettledRegistered s Hs cid' i' Hi' Hu')
      as (st' & Hst' & Hcid' & _).
    rewrite Hcall, Hst' in Hst. injection Hst as ->. congruence.
  - intros cid i Hi Hnot.
    destruct (ResponseCues.settled (Webhook.controller i)) eqn:Hu; [done|].
    by rewrite (unsettled_current s cid i Hs Hi Hu) in Hnot.
  - intros callId cid i Hi Hcall.
    pose proof (step_coherent config s (Webhook.ADisconnected callId) Hs)
      as Hs'.
    destruct (ResponseCues.settled (Webhook.controller i)) eqn:Hu; [done|].
    pose proof (unsettled_current _ cid i Hs' Hi Hu) as Hcur.
    rewrite Hcall in Hcur. cbn [Webhook.step fst] in Hcur.
    by rewrite (clearTopic_dead _ callId callId (mark_dead s callId)) in Hcur.
  - intros tid t Ht. exact (Webhook.taskHoldsCues s Hs tid t Ht).
Qed.

(** ** The callbacks of the media stream *)
Section StreamCallbacks.

Import Webhook MediaStream.
Context {M : Type} `{Api.CallManagerApi M}.

(** X18: the transcript callback clears the provider's speech queue
    exactly when the provider is Twilio, known call or not.  For a provider
    call id that the manager does not know, nothing else happens: the
    server and the manager stay as they are.  For a known call the
    transcript is given to the manager as a final speech event of that
    call, whatever is decided about answering it. *)
Theorem stream_transcript_always_recorded
    (config : VoiceCallConfig) (providerName : string) (idNow now : nat)
    (warningResult endResult : CommandResult)
    (s : Server) (m : M) (providerCallId transcript : string) :
  let r :=
    onTranscript config providerName idNow now warningResult endResult s m
      providerCallId transcript in
  (ClearTtsQueue providerCallId ∈ streamOutput r ↔ providerName = "twilio")
  ∧ match Api.getCallByProviderCallId m providerCallId with
    | None =>
        streamServer r = s ∧ streamManager r = m
        ∧ streamCompletion r = Returned
    | Some call =>
        ∃ event,
          Api.processEvent m event = (streamManager r, streamCompletion r)
          ∧ eventCallId event = callId call
          ∧ eventProviderCallId event = providerCallId
          ∧ payload event = CallSpeech transcript true
    end.
Proof.
  intros r. subst r. unfold onTranscript. split.
  - assert (∀ pre post : list StreamOutput,
              (∀ o, o ∈ pre → ∃ e, o = ServerEffect e) →
              (∀ o, o ∈ post → ∃ e, o = ServerEffect e) →
              ClearTtsQueue providerCallId
                ∈ pre ++ (if String.eqb providerName "twilio"
                          then [ClearTtsQueue providerCallId] else []) ++ post
              ↔ providerName = "twilio") as Hbarge.
    { intros pre post Hpre Hpost. rewrite !elem_of_app.
      destruct (String.eqb_spec providerName "twilio") as [->|Hne].
      - split; [done|]. intros _. right. left. by left.
      - split; [|done]. intros [Hin|[Hin|Hin]].
        + by destruct (Hpre _ Hin).
        + by apply elem_of_nil in Hin.
        + by destruct (Hpost _ Hin). }
    assert (∀ o : StreamOutput,
              o ∈ [ServerEffect
                     (ELog LogInfo
                        ("[voice-call] Transcript for " +:+ providerCallId))] →
              ∃ e, o = ServerEffect e) as Hlog.
    { intros o ->%list_elem_of_singleton. by eexists. }
    destruct (Api.getCallByProviderCallId m providerCallId) as [call|].
    + destruct (Api.processEvent m _) as [m1 []]; cbn [streamOutput].
      * destruct (negb _); cbn [streamOutput].
        { rewrite <- (app_nil_r (if String.eqb providerName "twilio"
                                  then _ else _)).
          apply Hbarge; [done|]. by intros o ?%elem_of_nil. }
        destruct (shouldIgnoreTranscriptForResponse transcript);
          cbn [streamOutput].
        { apply Hbarge; [done|].
          intros o ->%list_elem_of_singleton. by eexists. }
        destruct (step config s _) as [s1 out]. cbn [streamOutput].
        apply Hbarge; [done|].
        intros o (e & -> & _)%list_elem_of_fmap. by eexists.
      * rewrite <- (app_nil_r (if String.eqb providerName "twilio"
                                then _ else _)).
        apply Hbarge; [done|]. by intros o ?%elem_of_nil.
    + cbn [streamOutput]. apply Hbarge; [done|].
      intros o ->%list_elem_of_singleton. by eexists.
  - destruct (Api.getCallByProviderCallId m providerCallId) as [call|];
      [|done].
    match goal with
    | |- context [Api.processEvent m ?ev] => exists ev
    end.
    split; [|by repeat split].
    destruct (Api.processEvent m _) as [m1 []];
      cbn [streamManager streamCompletion]; [|done].
    destruct (negb _); [done|].
    destruct (shouldIgnoreTranscriptForResponse transcript); [done|].
    by destruct (step config s _).
Qed.

(** X19: the transcript callback answers nothing, and leaves the server
    as it is, when the call is outbound and not in conversation mode, when
    the transcript is blank or a single filler word, or when the manager
    threw on the speech event: nothing is spoken and no call is ended. *)
Theorem stream_transcript_unanswered
    (config : VoiceCallConfig) (providerName : string) (idNow now : nat)
    (warningResult endResult : CommandResult)
    (s : Server) (m : M) (providerCallId transcript : string)
    (call : CallRecord) :
  Api.getCallByProviderCallId m providerCallId = Some call →
  let r :=
    onTranscript config providerName idNow now warningResult endResult s m
      providerCallId transcript in
  (direction call = outbound ∧ callMode call ≠ Some "conversation")
  ∨ Words.blank transcript
  ∨ (∃ w, Words.words transcript = [w]
          ∧ normalizeTranscriptWord w ∈ TRANSCRIPT_FILLER_WORDS)
  ∨ streamCompletion r = Threw →
  streamServer r = s
  ∧ Forall (fun o => ∀ e, o = ServerEffect e →
                          isSpeak e = false ∧ isEndCall e = false)
      (streamOutput r).
Proof.
  intros Hcall r Hwhy. subst r. unfold onTranscript in *. rewrite Hcall in *.
  assert (∀ post : list StreamOutput,
            Forall (fun o => ∀ e, o = ServerEffect e →
                                  isSpeak e = false ∧ isEndCall e = false)
              post →
            Forall (fun o => ∀ e, o = ServerEffect e →
                                  isSpeak e = false ∧ isEndCall e = false)
              ([ServerEffect
                  (ELog LogInfo
                     ("[voice-call] Transcript for " +:+ providerCallId))]
               ++ (if String.eqb providerName "twilio"
                   then [ClearTtsQueue providerCallId] else []) ++ post))
    as Hquiet.
  { intros post Hpost. apply Forall_app. split.
    - apply Forall_singleton. by intros e [= <-].
    - apply Forall_app. split; [|done].
      destruct (String.eqb providerName "twilio"); [|constructor].
      apply Forall_singleton. by intros e. }
  destruct (Api.processEvent m _) as [m1 []];
    cbn [streamServer streamOutput streamCompletion] in *.
  - destruct (negb _) eqn:Hresp; cbn [streamServer streamOutput].
    { split; [done|].
      rewrite <- (app_nil_r (if String.eqb providerName "twilio"
                                then _ else _)).
      by apply Hquiet. }
    destruct (shouldIgnoreTranscriptForResponse transcript) eqn:Hign;
      cbn [streamServer streamOutput].
    { split; [done|]. apply Hquiet.
      apply Forall_singleton. by intros e [= <-]. }
    exfalso. apply negb_false_iff in Hresp.
    destruct Hwhy as [[Hout Hmode]|[Hblank|[(w & Hw & Hfill)|Hthrew]]].
    + rewrite Hout in Hresp. by apply bool_decide_eq_true in Hresp.
    + apply words_blank in Hblank.
      by rewrite shouldIgnore_words, Hblank in Hign.
    + rewrite shouldIgnore_words, Hw in Hign. cbn zeta in Hign.
      assert (Js.has TRANSCRIPT_FILLER_WORDS (normalizeTranscriptWord w)
              = true) as Hhas by (by apply bool_decide_eq_true).
      rewrite Hhas in Hign.
      destruct (normalizeTranscriptWord w) eqn:Hn; [|done].
      revert Hfill. clear. vm_compute. intros Hfill.
      repeat (apply elem_of_cons in Hfill as [Hfill|Hfill]; [done|]).
      by apply elem_of_nil in Hfill.
    + revert Hthrew. destruct (step config s _). done.
  - split; [done|].
    rewrite <- (app_nil_r (if String.eqb providerName "twilio"
                              then _ else _)).
    by apply Hquiet.
Qed.

(** X20: when the media stream of a call disconnects, the call has no
    current generation and no topic state any more, and a response of
    the call that is still suspended speaks nothing when it is resumed
    with a fulfilled promise; the stream is unregistered exactly when the
    provider is Twilio.  A disconnect for a provider call id that the
    manager does not know leaves the server as it is. *)
Theorem stream_disconnect_ends_responses
    (providerName : string) (s : Server) (m : M) (providerCallId : string) :
  let r := onDisconnect providerName s m providerCallId in
  (UnregisterCallStream providerCallId ∈ r.2 ↔ providerName = "twilio")
  ∧ match Api.getCallByProviderCallId m providerCallId with
    | None => r.1 = s
    | Some call =>
        noGenerationCurrent r.1 (callId call)
        ∧ singleTopicStates r.1 !! callId call = None
        ∧ (∀ other, other ≠ callId call →
             pendingResponses r.1 !! other = pendingResponses s !! other
             ∧ singleTopicStates r.1 !! other = singleTopicStates s !! other)
        ∧ ∀ tid t res,
            responseTasks r.1 !! tid = Some t →
            taskCallId t = callId call →
            isFulfilled res = true →
            Forall (fun e => isSpeak e = false)
              (resumeInboundResponse r.1 tid res).2
    end.
Proof.
  intros r. subst r. unfold onDisconnect. cbn [fst snd]. split.
  - rewrite elem_of_app, list_elem_of_singleton.
    destruct (String.eqb_spec providerName "twilio") as [->|Hne].
    + split; [done|]. intros _. right. by left.
    + split; [|done]. intros [Hin|Hin]; [done|by apply elem_of_nil in Hin].
  - destruct (Api.getCallByProviderCallId m providerCallId) as [call|];
      [|done].
    assert (noGenerationCurrent
              (clearSingleTopicState
                 (markResponseDisconnected s (callId call)) (callId call))
              (callId call)) as Hdead
      by apply clearTopic_dead, mark_dead.
    split; [exact Hdead|]. split; [|split].
    + cbn [singleTopicStates clearSingleTopicState setSingleTopicStates].
      apply lookup_delete_eq.
    + intros other Hne. split.
      * cbn [pendingResponses clearSingleTopicState setSingleTopicStates].
        by apply mark_pending_other.
      * cbn [singleTopicStates clearSingleTopicState setSingleTopicStates].
        rewrite lookup_delete_ne by done.
        by destruct (mark_tasks s (callId call)) as (_ & -> & _).
    + intros tid t res Ht Hcall Hres.
      destruct (stale_resume_silent _ tid t res Ht) as [Hsilent _];
        [rewrite Hcall; apply Hdead|done|].
      eapply Forall_impl; [exact Hsilent|]. by intros e [? _].
Qed.

End StreamCallbacks.

Lemma stream_transcript_unanswered_witness :
  let config :=
    {| Webhook.singleTopic := None; Webhook.responseCues := None;
       Webhook.coreConfig := true |} in
  let ok := {| Webhook.success := true; Webhook.commandError := None |} in
  let m :=
    Manager.processEvent
      (Manager.newManager
         {| Manager.providerName := "twilio";
            Manager.fromNumber := "+15550000000";
            Manager.inboundPolicy := Manager.policyOpen;
            Manager.allowFrom := [] |}
         None)
      {| eventId := "evt-1"; eventCallId := "call-x";
         eventProviderCallId := "provider-1"; eventTimestamp := 1;
         eventDirection := Some inbound; eventFrom := Some "+15550001234";
         eventTo := None; payload := CallInitiated |} in
  let r :=
    MediaStream.onTranscript config "twilio" 7 7 ok ok Webhook.newServer m
      "provider-1" " Umm. " in
  is_Some (Api.getCallByProviderCallId m "provider-1")
  ∧ MediaStream.streamServer r = Webhook.newServer.
Proof.
  intros config ok m r.
  destruct (Api.getCallByProviderCallId m "provider-1") as [call|] eqn:Hcall;
    [|by vm_compute in Hcall].
  split; [by eexists|].
  apply (stream_transcript_unanswered config "twilio" 7 7 ok ok
           Webhook.newServer m "provider-1" " Umm. " call Hcall).
  right. right. left. exists "Umm.". split; [reflexivity|].
  vm_compute. do 13 right. by left.
Defined.

(** ** The end of a response *)
Section ResponseEnd.

Import Webhook.

Lemma clearCue_spec s c g :
  cueControllers (clearCueController s c g) = cueControllers s
  ∧ responseTasks (clearCueController s c g) = responseTasks s
  ∧ singleTopicStates (clearCueController s c g) = singleTopicStates s
  ∧ (∀ st, pendingResponses (clearCueController s c g) !! c = Some st →
           generation st = g → settleCues st = None)
  ∧ (∀ c', c' ≠ c →
           pendingResponses (clearCueController s c g) !! c'
           = pendingResponses s !! c')
  ∧ (∀ g', isVoiceResponseGenerationCurrent (clearCueController s c g) c g'
           = isVoiceResponseGenerationCurrent s c g').
Proof.
  unfold clearCueController, isVoiceResponseGenerationCurrent.
  destruct (pendingResponses s !! c) as [st|] eqn:Hst.
  - destruct (Nat.eqb_spec (generation st) g) as [Hg|Hg]; cbn [negb].
    + cbn [cueControllers responseTasks singleTopicStates pendingResponses
           setPendingResponses].
      split; [done|]. split; [done|]. split; [done|]. split; [|split].
      * intros st'. rewrite lookup_insert_eq. by intros [= <-].
      * intros c' Hne. by rewrite lookup_insert_ne.
      * intros g'. by rewrite lookup_insert_eq.
    + split; [done|]. split; [done|]. split; [done|]. split; [|split].
      * intros st'. rewrite Hst. intros [= <-]. done.
      * done.
      * intros g'. by rewrite Hst.
  - split; [done|]. split; [done|]. split; [done|]. split; [|split].
    + intros st'. by rewrite Hst.
    + done.
    + intros g'. by rewrite Hst.
Qed.

Lemma finallyBlock_spec s tid t :
  let s' := finallyBlock s tid t in
  responseTasks s' = delete tid (responseTasks s)
  ∧ singleTopicStates s' = singleTopicStates s
  ∧ cueControllers s'
    = alter (fun i => withController i (ResponseCues.settle (controller i)))
        (taskCues t) (cueControllers s)
  ∧ (∀ st, pendingResponses s' !! taskCallId t = Some st →
           generation st = taskGeneration t → settleCues st = None)
  ∧ (∀ c, c ≠ taskCallId t →
          pendingResponses s' !! c = pendingResponses s !! c)
  ∧ (∀ g, isVoiceResponseGenerationCurrent s' (taskCallId t) g
          = isVoiceResponseGenerationCurrent s (taskCallId t) g).
Proof.
  intros s'. subst s'. unfold finallyBlock.
  destruct (clearCue_spec s (taskCallId t) (taskGeneration t))
    as (Hc & Ht & Hs & Hp & Ho & Hcur).
  cbn [responseTasks singleTopicStates cueControllers pendingResponses
       setResponseTasks settleController setCueControllers].
  rewrite Ht, Hs, Hc. split; [done|]. split; [done|]. split; [done|].
  split; [exact Hp|]. split; [exact Ho|]. exact Hcur.
Qed.

Lemma withCues_tasks_kept s cid f :
  responseTasks (withCues s cid f).1 = responseTasks s.
Proof.
  unfold withCues. destruct (cueControllers s !! cid) as [i|]; [|done].
  by destruct (f (controller i)).
Qed.

Lemma resume_ends_by_finally s tid t r :
  responseTasks s !! tid = Some t →
  responseTasks (resumeInboundResponse s tid r).1 !! tid = None →
  (resumeInboundResponse s tid r).1 = finallyBlock s tid t.
Proof.
  intros Ht. unfold resumeInboundResponse. rewrite Ht.
  assert (∀ s1 a, responseTasks (setTaskAt s1 tid t a) !! tid ≠ None)
    as Hkept.
  { intros s1 a. cbn [responseTasks setTaskAt setResponseTasks].
    by rewrite lookup_insert_eq. }
  destruct (taskAt t), r as [[]|[]|[result|]|[result|]];
    cbn [fst]; try done; try (by rewrite Ht).
  all: try (destruct (negb (isVoiceResponseGenerationCurrent s (taskCallId t)
                              (taskGeneration t)));
            cbn [fst]; [done|]).
  all: try (destruct (withCues s (taskCues t) _) as [s1 out]; cbn [fst];
            intros Hn; exfalso; eapply Hkept; exact Hn).
  - destruct (ResponseCues.truthy (responseError result)); cbn [fst];
      [done|].
    destruct (ResponseCues.truthy (responseText result)); cbn [fst];
      [|done].
    intros Hn. exfalso. eapply Hkept. exact Hn.
  - by destruct (negb (success result)).
Qed.

End ResponseEnd.

(** X21: however a suspended response ends (with its answer spoken, by
    an error, by a rejected promise, or because it had become stale), when
    it is over its cue controller is settled and holds no timer of its
    own, the pending state of its call no longer refers to the controller
    if it is still of the response's generation, and nothing else
    changes: the other suspended responses, the other calls' pending
    states, which generation of the call is current, and the topic
    states. *)
Theorem ended_response_releases_cues
    (s : Webhook.Server) (tid : nat) (t : Webhook.ResponseTask)
    (r : Webhook.Resumption) :
  Webhook.responseTasks s !! tid = Some t →
  let s' := (Webhook.resumeInboundResponse s tid r).1 in
  Webhook.responseTasks s' !! tid = None →
  (∀ i, Webhook.cueControllers s !! Webhook.taskCues t = Some i →
        Webhook.cueControllers s' !! Webhook.taskCues t
        = Some (Webhook.withController i
                  (ResponseCues.settle (Webhook.controller i)))
        ∧ ResponseCues.settled (ResponseCues.settle (Webhook.controller i))
          = true
        ∧ ResponseCues.progressTimer
            (ResponseCues.settle (Webhook.controller i)) = None)
  ∧ (∀ st, Webhook.pendingResponses s' !! Webhook.taskCallId t = Some st →
           Webhook.generation st = Webhook.taskGeneration t →
           Webhook.settleCues st = None)
  ∧ (∀ g, Webhook.isVoiceResponseGenerationCurrent s' (Webhook.taskCallId t) g
          = Webhook.isVoiceResponseGenerationCurrent s (Webhook.taskCallId t) g)
  ∧ (∀ other, other ≠ tid →
        Webhook.responseTasks s' !! other = Webhook.responseTasks s !! other)
  ∧ (∀ callId, callId ≠ Webhook.taskCallId t →
        Webhook.pendingResponses s' !! callId
        = Webhook.pendingResponses s !! callId)
  ∧ (∀ cid, cid ≠ Webhook.taskCues t →
        Webhook.cueControllers s' !! cid = Webhook.cueControllers s !! cid)
  ∧ Webhook.singleTopicStates s' = Webhook.singleTopicStates s.
Proof.
  intros Ht s' Hgone. subst s'.
  rewrite (resume_ends_by_finally s tid t r Ht Hgone).
  destruct (finallyBlock_spec s tid t) as (Htasks & Htopic & Hcues & Hp & Ho & Hcur).
  split; [|split; [exact Hp|split; [exact Hcur|split; [|split; [exact Ho|split]]]]].
  - intros i Hi. rewrite Hcues, lookup_alter_eq, Hi. split; [done|].
    split; [apply settle_settled|].
    unfold ResponseCues.settle.
    by destruct (ResponseCues.progressTimer (Webhook.controller i)).
  - intros other Hne. rewrite Htasks. by apply lookup_delete_ne.
  - intros cid Hne. rewrite Hcues. by apply lookup_alter_ne.
  - exact Htopic.
Qed.

Lemma ended_response_releases_cues_witness :
  let s :=
    (Webhook.handleInboundResponse
       {| Webhook.singleTopic := None;
          Webhook.responseCues :=
            Some {| ResponseCues.configEnabled := Some true;
                    ResponseCues.configAcknowledgement := None;
                    ResponseCues.configProgress := None;
                    ResponseCues.configProgressDelayMs := None |};
          Webhook.coreConfig := true |}
       true Webhook.newServer "call-0" "where is my invoice").1 in
  let s' :=
    (Webhook.resumeInboundResponse s 1 (Webhook.ImportSettled false)).1 in
  is_Some (Webhook.responseTasks s !! 1)
  ∧ ∀ st, Webhook.pendingResponses s' !! "call-0" = Some st →
          Webhook.generation st = 1 → Webhook.settleCues st = None.
Proof.
  intros s s'. split; [by eexists|].
  pose proof (ended_response_releases_cues s 1
                {| Webhook.taskCallId := "call-0"; Webhook.taskGeneration := 1;
                   Webhook.taskCues := 0; Webhook.taskAt := Webhook.AwaitImport |}
                (Webhook.ImportSettled false) eq_refl eq_refl)
    as (_ & H & _).
  exact H.
Defined.
